(** * Tricelerate 2.0 front-end script ([script.js]): a shallow embedding

    The script is event-driven browser code.  Each feature is embedded as a
    small state machine: the synchronous body of every function and listener
    of the script is a Rocq function on an explicit state, and whatever the
    browser or the animation engine does asynchronously (dispatching an event,
    running a timer, completing a timeline) is an event fed to a [step]
    function.  Time is a logical clock counted in milliseconds.

    - [Dom]: the document as a tree of elements, with the queries and
      updates the script uses.  An element is known by a handle; the
      handles of a document are meant to be distinct.
    - [ImageLoad]: [waitForImageLoad].
    - [Lightbox]: [initPosterClickToEnlarge] with [openLightbox] and
      [closeLightbox].
    - [Buttons]: [initButtonInteractions].
    - [Modal]: [initModal] with [getModalEls], [buildTimelines],
      [openModal], [closeModal] and the three delegated listeners.

    - [Preloader]: [initPreloader], as far as it decides when the two
      animations are played and the preloader is hidden.
    - [Startup]: the last statement of the script, which decides when
      [initAll] runs.

    The animation engine is kept abstract: a tween or a timeline is a value
    that records its targets, and what the engine does on its own is an
    event: an animation frame on which the tweens of the buttons are
    rendered, a write to the inline style of an element of the modal, the
    completion of a timeline.  The steps of the preloader timeline and the
    scroll parallax only hand values to the engine and are not embedded. *)

From Stdlib Require Import ZArith List String Bool Lia QArith.
Import ListNotations.

Local Open Scope string_scope.
Local Open Scope list_scope.
Local Open Scope Z_scope.

(* ================================================================== *)
(** * [waitForImageLoad]: the image-load signal                         *)
(* ================================================================== *)

Module ImageLoad.

(** The two properties of an [<img>] that the helper reads. *)
Record image := { complete : bool; naturalWidth : Z }.

(** What the promise executor leaves behind: the [fired] flag, which of the
    two listeners are still attached to the image, the pending timer (with
    the instant at which it is due), and how often [resolve] has been
    called.  [clock] is the current instant. *)
Record wait := {
  fired : bool;
  load_listener : bool;
  error_listener : bool;
  timer : option Z;
  resolved : nat;
  clock : Z
}.

(** [timeout = 1800] is the default of the second parameter. *)
Definition default_timeout : Z := 1800.

Definition timeout_ms (timeout : option Z) : Z :=
  match timeout with Some t => t | None => default_timeout end.

(** [setTimeout] takes its delay as a 32-bit signed integer, wrapping
    around, and treats a negative delay as zero. *)
Definition toInt32 (n : Z) : Z := (n + 2 ^ 31) mod 2 ^ 32 - 2 ^ 31.

Definition due (now delay : Z) : Z := now + Z.max 0 (toInt32 delay).

(** JavaScript truthiness of a number. *)
Definition truthy (n : Z) : bool := negb (n =? 0).

(** [resolve()] *)
Definition resolve (w : wait) : wait :=
  {| fired := fired w; load_listener := load_listener w;
     error_listener := error_listener w; timer := timer w;
     resolved := S (resolved w); clock := clock w |}.

(** [cleanup]: both listeners removed, the timer cleared. *)
Definition cleanup (w : wait) : wait :=
  {| fired := fired w; load_listener := false; error_listener := false;
     timer := None; resolved := resolved w; clock := clock w |}.

Definition set_fired (w : wait) : wait :=
  {| fired := true; load_listener := load_listener w;
     error_listener := error_listener w; timer := timer w;
     resolved := resolved w; clock := clock w |}.

(** [onLoad] and [onError] have the same body. *)
Definition onLoad (w : wait) : wait :=
  if fired w then w else resolve (cleanup (set_fired w)).

Definition onError (w : wait) : wait :=
  if fired w then w else resolve (cleanup (set_fired w)).

(** The callback given to [setTimeout]. *)
Definition onTimer (w : wait) : wait :=
  if negb (fired w) then resolve (cleanup (set_fired w)) else w.

(** The promise executor, started at instant [now]. *)
Definition waitForImageLoad (img : option image) (timeout : option Z)
    (now : Z) : wait :=
  let settled :=
    {| fired := false; load_listener := false; error_listener := false;
       timer := None; resolved := 1; clock := now |} in
  match img with
  | None => settled
  | Some i =>
      if complete i && truthy (naturalWidth i) then settled
      else
        {| fired := false; load_listener := true; error_listener := true;
           timer := Some (due now (timeout_ms timeout));
           resolved := 0; clock := now |}
  end.

(** What can happen afterwards: the image dispatches [load] or [error], or
    time passes. *)
Inductive event := Load | Error | Elapse (dt : Z).

Definition is_producer (e : event) : bool :=
  match e with Load | Error => true | Elapse _ => false end.

Definition tick (dt : Z) (w : wait) : wait :=
  {| fired := fired w; load_listener := load_listener w;
     error_listener := error_listener w; timer := timer w;
     resolved := resolved w; clock := clock w + Z.max 0 dt |}.

(** A one-shot timer leaves the timer table when it runs. *)
Definition drop_timer (w : wait) : wait :=
  {| fired := fired w; load_listener := load_listener w;
     error_listener := error_listener w; timer := None;
     resolved := resolved w; clock := clock w |}.

Definition run_timers (w : wait) : wait :=
  match timer w with
  | Some d => if d <=? clock w then onTimer (drop_timer w) else w
  | None => w
  end.

(** An event reaches a listener only while the listener is attached. *)
Definition step (w : wait) (e : event) : wait :=
  match e with
  | Load => if load_listener w then onLoad w else w
  | Error => if error_listener w then onError w else w
  | Elapse dt => run_timers (tick dt w)
  end.

Definition run (w : wait) (es : list event) : wait := fold_left step es w.

(** The promise is pending until [resolve] is first called. *)
Definition pending (w : wait) : bool := Nat.eqb (resolved w) 0.

(** The invariant of the slow path: either nothing has fired, both listeners
    and the timer are in place and the clock has not passed the deadline, or
    [resolve] ran exactly once and everything was torn down. *)
Definition waiting (deadline : Z) (w : wait) : Prop :=
  fired w = false /\ load_listener w = true /\ error_listener w = true /\
  timer w = Some deadline /\ resolved w = 0%nat /\ clock w <= deadline.

Definition done (w : wait) : Prop :=
  fired w = true /\ load_listener w = false /\ error_listener w = false /\
  timer w = None /\ resolved w = 1%nat.

(** The state of the two fast paths: resolved, nothing attached. *)
Definition idle (w : wait) : Prop :=
  load_listener w = false /\ error_listener w = false /\
  timer w = None /\ resolved w = 1%nat.

End ImageLoad.

(* ================================================================== *)
(** * The document                                                      *)
(* ================================================================== *)

Module Dom.

(** An element carries a handle [nid] that stands for its identity: two
    references are [===] when their handles are equal.  [id_attr] is the
    [id] attribute, [classes] the tokens of [classList], [attrs] the other
    attributes. *)
Record element := {
  nid : nat;
  tag : string;
  id_attr : option string;
  classes : list string;
  attrs : list (string * string)
}.

(** The document is the tree of elements below (and including) [<body>]. *)
#[local] Set Warnings "-register-all".
Inductive node := Node (e : element) (kids : list node).

Definition elt (n : node) : element := let 'Node e _ := n in e.
Definition children (n : node) : list node := let 'Node _ ks := n in ks.
Definition handle (n : node) : nat := nid (elt n).

(** The selectors the script uses: [#id], [.class] and a list of tag names
    ([a, button, input, textarea, select]). *)
Inductive selector :=
| ById (i : string)
| ByClass (c : string)
| ByTags (ts : list string).

Definition has_class (c : string) (e : element) : bool :=
  existsb (String.eqb c) (classes e).

Definition matches (s : selector) (e : element) : bool :=
  match s with
  | ById i => match id_attr e with Some j => String.eqb j i | None => false end
  | ByClass c => has_class c e
  | ByTags ts => existsb (String.eqb (tag e)) ts
  end.

(** Document order: a node, then its subtrees from left to right. *)
Fixpoint flatten (n : node) : list node :=
  match n with Node _ ks => n :: flat_map flatten ks end.

Definition descendants (n : node) : list node := flat_map flatten (children n).

(** [document.querySelector] looks at every element of the document,
    [element.querySelector] at the proper descendants of the element. *)
Definition doc_querySelector (s : selector) (d : node) : option node :=
  find (fun m => matches s (elt m)) (flatten d).

Definition doc_querySelectorAll (s : selector) (d : node) : list node :=
  filter (fun m => matches s (elt m)) (flatten d).

Definition querySelector (s : selector) (n : node) : option node :=
  find (fun m => matches s (elt m)) (descendants n).

Definition querySelectorAll (s : selector) (n : node) : list node :=
  filter (fun m => matches s (elt m)) (descendants n).

(** The element with handle [t] followed by its ancestors, innermost first;
    empty when [t] is not in the tree. *)
Fixpoint chain (t : nat) (n : node) {struct n} : list node :=
  match n with
  | Node e ks =>
      if Nat.eqb (nid e) t then [n]
      else
        let fix go (l : list node) : list node :=
          match l with
          | [] => []
          | k :: l' => match chain t k with [] => go l' | c => c end
          end in
        match go ks with [] => [] | c => c ++ [n] end
  end.

(** [t.closest(s)]: the nearest of [t] and its ancestors that matches. *)
Definition closest (s : selector) (t : nat) (d : node) : option node :=
  find (fun m => matches s (elt m)) (chain t d).

(** The element behind a handle, as it now stands in the document. *)
Definition lookup (t : nat) (d : node) : option node := hd_error (chain t d).

(** [t.parentNode], for an element of the document. *)
Definition parentNode (t : nat) (d : node) : option node :=
  match chain t d with _ :: p :: _ => Some p | _ => None end.

(** [n.contains(t)]: [t] is [n] or one of its descendants. *)
Definition contains (n : node) (t : nat) : bool :=
  existsb (fun m => Nat.eqb (handle m) t) (flatten n).

(** Changing elements in place. *)
Fixpoint tmap (g : element -> element) (n : node) : node :=
  match n with Node e ks => Node (g e) (map (tmap g) ks) end.

Definition update (t : nat) (f : element -> element) (d : node) : node :=
  tmap (fun e => if Nat.eqb (nid e) t then f e else e) d.

(** [classList.add], [classList.remove], [classList.contains]. *)
Definition classList_add (c : string) (e : element) : element :=
  {| nid := nid e; tag := tag e; id_attr := id_attr e;
     classes := if has_class c e then classes e else classes e ++ [c];
     attrs := attrs e |}.

Definition classList_remove (c : string) (e : element) : element :=
  {| nid := nid e; tag := tag e; id_attr := id_attr e;
     classes := filter (fun x => negb (String.eqb c x)) (classes e);
     attrs := attrs e |}.

(** [getAttribute] and [setAttribute] on the attributes other than [id] and
    [class]. *)
Fixpoint assoc_get (k : string) (l : list (string * string)) : option string :=
  match l with
  | [] => None
  | (k', v) :: r => if String.eqb k k' then Some v else assoc_get k r
  end.

Fixpoint assoc_set (k v : string) (l : list (string * string))
  : list (string * string) :=
  match l with
  | [] => [(k, v)]
  | (k', v') :: r =>
      if String.eqb k k' then (k, v) :: r else (k', v') :: assoc_set k v r
  end.

Definition getAttribute (k : string) (e : element) : option string :=
  assoc_get k (attrs e).

Definition setAttribute (k v : string) (e : element) : element :=
  {| nid := nid e; tag := tag e; id_attr := id_attr e; classes := classes e;
     attrs := assoc_set k v (attrs e) |}.

Definition assoc_remove (k : string) (l : list (string * string))
  : list (string * string) :=
  filter (fun p => negb (String.eqb k (fst p))) l.

Definition removeAttribute (k : string) (e : element) : element :=
  {| nid := nid e; tag := tag e; id_attr := id_attr e; classes := classes e;
     attrs := assoc_remove k (attrs e) |}.

(** [document.createElement(tag)] with the handle it is given, followed by
    [el.className = c]. *)
Definition createElement (h : nat) (t : string) : element :=
  {| nid := h; tag := t; id_attr := None; classes := []; attrs := [] |}.

Definition set_className (c : string) (e : element) : element :=
  {| nid := nid e; tag := tag e; id_attr := id_attr e; classes := [c];
     attrs := attrs e |}.

(** [document.body.appendChild(n)] *)
Definition body_appendChild (n : node) (d : node) : node :=
  match d with Node e ks => Node e (ks ++ [n]) end.

(** Taking the element with handle [t] out of the tree. *)
Fixpoint detach (t : nat) (n : node) {struct n} : node :=
  match n with
  | Node e ks =>
      let fix go (l : list node) : list node :=
        match l with
        | [] => []
        | k :: l' => if Nat.eqb (handle k) t then go l' else detach t k :: go l'
        end in
      Node e (go ks)
  end.

(** [p.removeChild(c)] raises [NotFoundError] ([None]) unless [c] is a child
    of [p]. *)
Definition removeChild (p c : nat) (d : node) : option node :=
  match parentNode c d with
  | Some q => if Nat.eqb (handle q) p then Some (detach c d) else None
  | None => None
  end.

(** How many elements of the document match a selector. *)
Definition count (s : selector) (d : node) : nat :=
  List.length (doc_querySelectorAll s d).

(** An update that leaves the handle, the id and the tag of an element
    alone: the class list and the attributes play no part in an [#id] or
    tag selector. *)
Definition same_identity (f : element -> element) : Prop :=
  forall e, nid (f e) = nid e /\ id_attr (f e) = id_attr e /\ tag (f e) = tag e.

End Dom.

(* ================================================================== *)
(** * [initPosterClickToEnlarge]: the poster lightbox                   *)
(* ================================================================== *)

Module Lightbox.
Import Dom.

(** The variables [closeLightbox] closes over. *)
Record closure := { lb : nat; backdrop : nat; img : nat }.

(** The timelines the feature starts.  [inTL] has no callback; [outTL]
    carries the [onComplete] that takes the overlay out of the document. *)
Inductive timeline :=
| InTL (b i : nat)
| OutTL (c : closure).

(** [posterWrap] and [poster] are found once, when the feature is set up.
    [fresh] is the handle the next [createElement] hands out.  The listeners
    are those the script has attached: [click] listeners on overlay elements,
    and the [keydown] listeners on [window], all of them registered with
    [{ once: true }].  [prevented] counts the [preventDefault] calls. *)
Record state := {
  doc : node;
  fresh : nat;
  posterWrap : nat;
  poster : nat;
  click_listeners : list (nat * closure);
  keydown_once : list closure;
  running : list timeline;
  prevented : nat
}.

Definition set_doc (d : node) (st : state) : state :=
  {| doc := d; fresh := fresh st; posterWrap := posterWrap st;
     poster := poster st; click_listeners := click_listeners st;
     keydown_once := keydown_once st; running := running st;
     prevented := prevented st |}.

Definition set_running (r : list timeline) (st : state) : state :=
  {| doc := doc st; fresh := fresh st; posterWrap := posterWrap st;
     poster := poster st; click_listeners := click_listeners st;
     keydown_once := keydown_once st; running := r;
     prevented := prevented st |}.

Definition set_keydown_once (l : list closure) (st : state) : state :=
  {| doc := doc st; fresh := fresh st; posterWrap := posterWrap st;
     poster := poster st; click_listeners := click_listeners st;
     keydown_once := l; running := running st;
     prevented := prevented st |}.

Definition preventDefault (st : state) : state :=
  {| doc := doc st; fresh := fresh st; posterWrap := posterWrap st;
     poster := poster st; click_listeners := click_listeners st;
     keydown_once := keydown_once st; running := running st;
     prevented := S (prevented st) |}.

(** [a || b] on strings: [null] and the empty string are falsy. *)
Definition js_or (a : option string) (b : string) : string :=
  match a with
  | Some x => if String.eqb x "" then b else x
  | None => b
  end.

(** An attribute of the poster, read from the document (a poster that has
    left the document reads as having none). *)
Definition poster_attr (k : string) (st : state) : option string :=
  match lookup (poster st) (doc st) with
  | Some n => getAttribute k (elt n)
  | None => None
  end.

(** The overlay subtree [openLightbox] assembles before appending it. *)
Definition overlay (h : nat) (src alt : string) : node :=
  let lb := set_className "tric-lightbox" (createElement h "div") in
  let backdrop :=
    set_className "tric-lightbox-backdrop" (createElement (h + 1) "div") in
  let imgWrap :=
    set_className "tric-lightbox-wrap" (createElement (h + 2) "div") in
  let img :=
    setAttribute "alt" alt
      (setAttribute "src" src (createElement (h + 3) "img")) in
  Node lb [Node backdrop []; Node imgWrap [Node img []]].

Definition the_overlay : selector := ByClass "tric-lightbox".

(** [openLightbox].  The source of the enlarged image is the poster's [src]
    attribute or else its [src] property, which reflects that attribute:
    empty for a poster without one.  (For an attribute that is there but
    empty the browser gives the address of the page; the document of this
    model has no address, and the image is left without a source in that
    one case.) *)
Definition openLightbox (st : state) : state :=
  match doc_querySelector the_overlay (doc st) with
  | Some _ => st
  | None =>
      let src := js_or (poster_attr "src" st)
                   (match poster_attr "src" st with Some u => u | None => "" end) in
      let alt := js_or (poster_attr "alt" st) "" in
      let h := fresh st in
      let c := {| lb := h; backdrop := (h + 1)%nat; img := (h + 3)%nat |} in
      {| doc := body_appendChild (overlay h src alt) (doc st);
         fresh := (h + 4)%nat;
         posterWrap := posterWrap st;
         poster := poster st;
         click_listeners :=
           click_listeners st ++ [((h + 1)%nat, c); ((h + 3)%nat, c)];
         keydown_once := keydown_once st ++ [c];
         running := running st ++ [InTL (h + 1) (h + 3)];
         prevented := prevented st |}
  end.

(** [closeLightbox]: start the exit timeline. *)
Definition closeLightbox (c : closure) (st : state) : state :=
  set_running (running st ++ [OutTL c]) st.

(** The [onComplete] of the exit timeline:
    [try { if (lb && lb.parentNode) lb.parentNode.removeChild(lb); } catch (e) {}] *)
Definition outTL_onComplete (c : closure) (st : state) : state :=
  match parentNode (lb c) (doc st) with
  | Some p =>
      match removeChild (handle p) (lb c) (doc st) with
      | Some d => set_doc d st
      | None => st
      end
  | None => st
  end.

(** [escClose]: the [keydown] listener on [window].  By the time it runs the
    browser has already dropped it ([once]), so its own
    [removeEventListener] finds nothing to remove. *)
Definition escClose (key : string) (c : closure) (st : state) : state :=
  if String.eqb key "Escape" then closeLightbox c st else st.

(** The listener on the poster wrapper. *)
Definition onPosterWrapClick (st : state) : state :=
  openLightbox (preventDefault st).

Definition listeners_on (h : nat) (st : state) : list closure :=
  map snd (filter (fun p => Nat.eqb (fst p) h) (click_listeners st)).

(** The [click] listeners of one element on the event's path, in the order
    in which they were attached. *)
Definition click_at (st : state) (h : nat) : state :=
  let st1 := if Nat.eqb h (posterWrap st) then onPosterWrapClick st else st in
  fold_left (fun s c => closeLightbox c s) (listeners_on h st) st1.

Inductive event :=
| Click (target : nat)
| KeyDown (key : string)
| Complete (i : nat).

Fixpoint remove_nth {A} (i : nat) (l : list A) : list A :=
  match l, i with
  | [], _ => []
  | _ :: r, O => r
  | x :: r, S j => x :: remove_nth j r
  end.

(** A click bubbles from its target to [<body>]; a key press runs the
    [window] listeners, each of which is gone afterwards; the animation
    engine completes the [i]-th running timeline. *)
Definition step (st : state) (e : event) : state :=
  match e with
  | Click t => fold_left click_at (map handle (chain t (doc st))) st
  | KeyDown key =>
      fold_left (fun s c => escClose key c s) (keydown_once st)
        (set_keydown_once [] st)
  | Complete i =>
      match nth_error (running st) i with
      | Some (OutTL c) =>
          outTL_onComplete c (set_running (remove_nth i (running st)) st)
      | Some (InTL _ _) => set_running (remove_nth i (running st)) st
      | None => st
      end
  end.

Definition run (st : state) (es : list event) : state := fold_left step es st.

Definition max_handle (d : node) : nat :=
  fold_right Nat.max 0%nat (map handle (flatten d)).

(** [initPosterClickToEnlarge]: nothing is attached unless both the wrapper
    and the poster are found. *)
Definition initPosterClickToEnlarge (d : node) : option state :=
  match doc_querySelector (ByClass "image-container") d,
        doc_querySelector (ById "posterImage") d with
  | Some w, Some p =>
      Some {| doc := d; fresh := S (max_handle d);
              posterWrap := handle w; poster := handle p;
              click_listeners := []; keydown_once := [];
              running := []; prevented := 0 |}
  | _, _ => None
  end.

Definition overlays (st : state) : nat := count the_overlay (doc st).

(** The closure of the [closeLightbox] that the next [openLightbox] defines. *)
Definition new_closure (st : state) : closure :=
  {| lb := fresh st; backdrop := (fresh st + 1)%nat; img := (fresh st + 3)%nat |}.

(** [createElement] hands out handles that the document does not use. *)
Definition fresh_ok (st : state) : Prop :=
  Forall (fun m => (handle m < fresh st)%nat) (flatten (doc st)).

(** The exit timeline of the overlay of closure [c] is under way. *)
Definition closing (c : closure) (st : state) : Prop :=
  In (OutTL c) (running st).

End Lightbox.

(* ================================================================== *)
(** * [initButtonInteractions]: button micro-interactions               *)
(* ================================================================== *)

Module Buttons.
Import Dom.

(** The three style properties the listeners animate. *)
Record visual := { y : Q; scale : Q; boxShadow : string }.

(** The properties a tween drives, with their end values. *)
Record vars := {
  to_y : option Q;
  to_scale : option Q;
  to_boxShadow : option string
}.

(** A tween created by [gsap.to(target, vars)], with the instant of the
    engine's clock at which it reaches its end values. *)
Record tween := { target : nat; goal : vars; ends : Z }.

(** [buttons] are the elements [qsa('.btn')] found when the listeners were
    attached.  [look] gives every element the values last written to its
    style.  [tweens] are the tweens under way, in the order of their
    creation, which is the order in which the engine renders them on a
    frame (none of the tweens asks the engine to overwrite another).
    [clock] is the time of the engine, in milliseconds: it stands at the
    instant of the last animation frame, and a tween made by a listener
    starts from there. *)
Record state := {
  buttons : list nat;
  look : nat -> visual;
  tweens : list tween;
  clock : Z
}.

(** [gsap.to(btn, { ..., duration })], the duration in milliseconds. *)
Definition gsap_to (h : nat) (v : vars) (duration : Z) (st : state) : state :=
  {| buttons := buttons st; look := look st;
     tweens := tweens st ++ [{| target := h; goal := v;
                                ends := clock st + duration |}];
     clock := clock st |}.

Definition reach (v : vars) (s : visual) : visual :=
  {| y := match to_y v with Some q => q | None => y s end;
     scale := match to_scale v with Some q => q | None => scale s end;
     boxShadow :=
       match to_boxShadow v with Some b => b | None => boxShadow s end |}.

(** A tween that ends writes its end values on its target. *)
Definition finish (l : nat -> visual) (tw : tween) : nat -> visual :=
  fun h => if Nat.eqb h (target tw) then reach (goal tw) (l h) else l h.

(** A tween under way writes, for each property it drives, the value the
    engine has interpolated for the frame; [m] holds those values. *)
Definition between (v : vars) (m : visual) : vars :=
  {| to_y := option_map (fun _ => y m) (to_y v);
     to_scale := option_map (fun _ => scale m) (to_scale v);
     to_boxShadow := option_map (fun _ => boxShadow m) (to_boxShadow v) |}.

Definition progress (l : nat -> visual) (tw : tween) (m : visual)
  : nat -> visual :=
  fun h =>
    if Nat.eqb h (target tw) then reach (between (goal tw) m) (l h) else l h.

(** What one tween does on the frame rendered at instant [now]. *)
Definition render (now : Z) (mid : tween -> visual) (l : nat -> visual)
    (tw : tween) : nat -> visual :=
  if ends tw <=? now then finish l tw else progress l tw (mid tw).

Definition lift : vars :=
  {| to_y := Some (-4 # 1)%Q; to_scale := Some (101 # 100)%Q;
     to_boxShadow := None |}.

Definition rest : vars :=
  {| to_y := Some 0%Q; to_scale := Some 1%Q; to_boxShadow := None |}.

Definition glow : vars :=
  {| to_y := None; to_scale := None;
     to_boxShadow := Some "0 10px 30px rgba(99,58,234,0.18)" |}.

Definition no_glow : vars :=
  {| to_y := None; to_scale := None; to_boxShadow := Some "none" |}.

(** The four listeners of one button. *)
Definition onMouseEnter (btn : nat) : state -> state := gsap_to btn lift 180.
Definition onMouseLeave (btn : nat) : state -> state := gsap_to btn rest 280.
Definition onFocus (btn : nat) : state -> state := gsap_to btn glow 180.
Definition onBlur (btn : nat) : state -> state := gsap_to btn no_glow 180.

(** [Frame dt mid]: the engine renders an animation frame, [dt] ms of its
    clock after the last one; [mid] gives the interpolated values it writes
    for the tweens that are still under way. *)
Inductive event :=
| MouseEnter (h : nat)
| MouseLeave (h : nat)
| Focus (h : nat)
| Blur (h : nat)
| Frame (dt : Z) (mid : tween -> visual).

Definition listening (h : nat) (st : state) : bool :=
  existsb (Nat.eqb h) (buttons st).

(** An animation frame: every tween under way is rendered, in the order of
    creation; those whose end has come write their end values and are
    gone. *)
Definition tick (dt : Z) (mid : tween -> visual) (st : state) : state :=
  let now := clock st + Z.max 0 dt in
  {| buttons := buttons st;
     look := fold_left (render now mid) (tweens st) (look st);
     tweens := filter (fun tw => negb (ends tw <=? now)) (tweens st);
     clock := now |}.

Definition step (st : state) (e : event) : state :=
  match e with
  | MouseEnter h => if listening h st then onMouseEnter h st else st
  | MouseLeave h => if listening h st then onMouseLeave h st else st
  | Focus h => if listening h st then onFocus h st else st
  | Blur h => if listening h st then onBlur h st else st
  | Frame dt mid => tick dt mid st
  end.

Definition run (st : state) (es : list event) : state := fold_left step es st.

(** [initButtonInteractions] on a page whose styles give every element the
    values [css]. *)
Definition initButtonInteractions (d : node) (css : nat -> visual) : state :=
  {| buttons := map handle (doc_querySelectorAll (ByClass "btn") d);
     look := css; tweens := []; clock := 0 |}.

(** The transform at rest: no translation, scale one. *)
Definition at_rest (s : visual) : Prop := y s = 0%Q /\ scale s = 1%Q.

(** Every tween under way ends within the longest duration the listeners
    use. *)
Definition bounded (st : state) : Prop :=
  Forall (fun tw => ends tw <= clock st + 280) (tweens st).

End Buttons.

(* ================================================================== *)
(** * [initModal]: the details modal                                    *)
(* ================================================================== *)

Module Modal.
Import Dom.

(** What [getModalEls] returns: the elements as they stand at the time of
    the query. *)
Record modalEls := {
  modal : node;
  backdrop : option node;
  content : option node;
  closeBtns : list node
}.

Definition getModalEls (d : node) : option modalEls :=
  match doc_querySelector (ById "detailsModal") d with
  | None => None
  | Some m =>
      Some {| modal := m;
              backdrop := querySelector (ByClass "modal-backdrop") m;
              content := querySelector (ByClass "modal-content") m;
              closeBtns := querySelectorAll (ByClass "modal-close-btn") m |}
  end.

(** A timeline object of the animation engine: the run of [buildTimelines]
    that made it, whether it is the opening or the closing one, and the
    elements its tweens were given. *)
Record timeline := {
  build : nat;
  opening : bool;
  on_backdrop : option nat;
  on_content : option nat
}.

(** Calls into the animation engine, with the elements they hand to it.
    The engine animates an element by writing its inline style, during the
    call and on the frames that follow; what it writes reaches the document
    as [Render] events (below), those of a call right after the listener
    that made it, and the log of calls tells which elements it may write
    to.  No statement of the script reads an inline style, so nothing a
    listener does depends on the instant at which a write arrives. *)
Inductive gsap_call :=
| GsapSet (targets : list (option nat)) (vars : string)
| Play0 (tl : timeline).

(** [openTL] and [closeTL] are the two variables of [initModal]; [builds]
    counts the runs of [buildTimelines] that made timelines.  [gsap] is the
    log of the calls into the engine.  [close_then] holds the callbacks
    given to [closeTL.play(0).then], each with the modal element it closes
    over, [close_running] tells whether the closing timeline is under way.
    [console] holds what the script itself has logged, [uncaught] the
    exceptions that have left a listener. *)
Record state := {
  doc : node;
  openTL : option timeline;
  closeTL : option timeline;
  builds : nat;
  console : list string;
  focused : option nat;
  gsap : list gsap_call;
  close_running : bool;
  close_then : list nat;
  prevented : nat;
  uncaught : list string
}.

Definition set_doc (d : node) (st : state) : state :=
  {| doc := d; openTL := openTL st; closeTL := closeTL st;
     builds := builds st; console := console st; focused := focused st;
     gsap := gsap st; close_running := close_running st;
     close_then := close_then st; prevented := prevented st;
     uncaught := uncaught st |}.

Definition console_warn (msg : string) (st : state) : state :=
  {| doc := doc st; openTL := openTL st; closeTL := closeTL st;
     builds := builds st; console := console st ++ [msg];
     focused := focused st; gsap := gsap st;
     close_running := close_running st; close_then := close_then st;
     prevented := prevented st; uncaught := uncaught st |}.

Definition focus (h : nat) (st : state) : state :=
  {| doc := doc st; openTL := openTL st; closeTL := closeTL st;
     builds := builds st; console := console st; focused := Some h;
     gsap := gsap st; close_running := close_running st;
     close_then := close_then st; prevented := prevented st;
     uncaught := uncaught st |}.

Definition gsap_do (c : gsap_call) (st : state) : state :=
  {| doc := doc st; openTL := openTL st; closeTL := closeTL st;
     builds := builds st; console := console st; focused := focused st;
     gsap := gsap st ++ [c]; close_running := close_running st;
     close_then := close_then st; prevented := prevented st;
     uncaught := uncaught st |}.

Definition preventDefault (st : state) : state :=
  {| doc := doc st; openTL := openTL st; closeTL := closeTL st;
     builds := builds st; console := console st; focused := focused st;
     gsap := gsap st; close_running := close_running st;
     close_then := close_then st; prevented := S (prevented st);
     uncaught := uncaught st |}.

Definition throw (msg : string) (st : state) : state :=
  {| doc := doc st; openTL := openTL st; closeTL := closeTL st;
     builds := builds st; console := console st; focused := focused st;
     gsap := gsap st; close_running := close_running st;
     close_then := close_then st; prevented := prevented st;
     uncaught := uncaught st ++ [msg] |}.

(** The elements among [ts] that are there. *)
Definition present (ts : list (option nat)) : list nat :=
  flat_map (fun o => match o with Some h => [h] | None => [] end) ts.

Definition targets_of (c : gsap_call) : list nat :=
  match c with
  | GsapSet ts _ => present ts
  | Play0 tl => present [on_backdrop tl; on_content tl]
  end.

(** The elements the engine has been handed so far. *)
Definition engine_targets (st : state) : list nat :=
  flat_map targets_of (gsap st).

(** How a call ends: it returns, or it raises an exception. *)
Inductive outcome :=
| Returned (st : state)
| Raised (msg : string) (st : state).

(** [closeTL.play(0).then(cb)], [cb] closing over the modal element [m]. *)
Definition play_close_then (tl : timeline) (m : nat) (st : state) : state :=
  {| doc := doc st; openTL := openTL st; closeTL := closeTL st;
     builds := builds st; console := console st; focused := focused st;
     gsap := gsap st ++ [Play0 tl]; close_running := true;
     close_then := close_then st ++ [m]; prevented := prevented st;
     uncaught := uncaught st |}.

(** [buildTimelines].  Its first statement, [gsap.set([backdrop, content],
    ...)], makes the engine read a property of the first element of the
    list: when the modal has no backdrop that element is [null], and the
    call raises a [TypeError] before either variable is assigned.  A missing
    content element, further down the list, is passed over by the engine,
    as is a missing target of a tween. *)
Definition buildTimelines (els : option modalEls) (st : state) : outcome :=
  match els with
  | None => Returned st
  | Some e =>
      match backdrop e with
      | None => Raised "TypeError" st
      | Some _ =>
          let b := option_map handle (backdrop e) in
          let c := option_map handle (content e) in
          Returned
            {| doc := doc st;
               openTL := Some {| build := builds st; opening := true;
                                 on_backdrop := b; on_content := c |};
               closeTL := Some {| build := builds st; opening := false;
                                  on_backdrop := b; on_content := c |};
               builds := S (builds st);
               console := console st; focused := focused st;
               gsap := gsap st ++ [GsapSet [b; c] "clearProps: all"];
               close_running := close_running st;
               close_then := close_then st;
               prevented := prevented st; uncaught := uncaught st |}
      end
  end.

Definition focusables : selector :=
  ByTags ["a"; "button"; "input"; "textarea"; "select"].

(** [if (focusable.length) focusable[0].focus()] *)
Definition focus_first (m : node) (st : state) : state :=
  match querySelectorAll focusables m with
  | f :: _ => focus (handle f) st
  | [] => st
  end.

(** [openModal].  The two changes to the modal touch neither the tree nor
    the tags below it, so [modal.querySelectorAll] finds in the queried
    element what it finds in the document.  An exception raised by
    [buildTimelines] ends the function, and with it the listener that
    called it, with the modal already marked as open. *)
Definition openModal (st : state) : state :=
  match getModalEls (doc st) with
  | None => console_warn "Modal not found" st
  | Some els =>
      let h := handle (modal els) in
      let st := set_doc (update h (classList_add "is-open") (doc st)) st in
      let st :=
        set_doc (update h (setAttribute "aria-hidden" "false") (doc st)) st in
      match
        match openTL st with
        | None => buildTimelines (Some els) st
        | Some _ => Returned st
        end
      with
      | Raised msg st => throw msg st
      | Returned st =>
          let st :=
            gsap_do (GsapSet [option_map handle (backdrop els)]
                       "autoAlpha: 0") st in
          let st :=
            gsap_do (GsapSet [option_map handle (content els)]
                       "y: 18, autoAlpha: 0") st in
          match openTL st with
          | None => throw "TypeError: openTL is null" st
          | Some tl => focus_first (modal els) (gsap_do (Play0 tl) st)
          end
      end
  end.

Definition closeModal (st : state) : state :=
  match getModalEls (doc st) with
  | None => st
  | Some els =>
      match
        match closeTL st with
        | None => buildTimelines (Some els) st
        | Some _ => Returned st
        end
      with
      | Raised msg st => throw msg st
      | Returned st =>
          match closeTL st with
          | None => throw "TypeError: closeTL is null" st
          | Some tl => play_close_then tl (handle (modal els)) st
          end
      end
  end.

(** The callback of [closeTL.play(0).then]. *)
Definition close_callback (st : state) (m : nat) : state :=
  let st := set_doc (update m (classList_remove "is-open") (doc st)) st in
  set_doc (update m (setAttribute "aria-hidden" "true") (doc st)) st.

Definition is_some {A} (o : option A) : bool :=
  match o with Some _ => true | None => false end.

(** [t === els.backdrop] *)
Definition same (t : nat) (o : option node) : bool :=
  match o with Some b => Nat.eqb (handle b) t | None => false end.

(** What the delegated [click] listener decides to do for target [t]. *)
Inductive action := DoOpen | DoClose | DoNothing.

Definition click_action (d : node) (t : nat) : action :=
  if is_some (closest (ById "viewDetailsBtn") t d) then DoOpen
  else
    match getModalEls d with
    | Some els =>
        if is_some (closest (ByClass "modal-close-btn") t d) then DoClose
        else if same t (backdrop els) then DoClose
        else DoNothing
    | None => DoNothing
    end.

Definition onDocumentClick (st : state) (t : nat) : state :=
  match click_action (doc st) t with
  | DoOpen => openModal (preventDefault st)
  | DoClose => closeModal (preventDefault st)
  | DoNothing => st
  end.

Definition is_open (m : node) : bool := has_class "is-open" (elt m).

Definition onKeyDown (st : state) (key : string) : state :=
  if String.eqb key "Escape" then
    match getModalEls (doc st) with
    | Some els => if is_open (modal els) then closeModal st else st
    | None => st
    end
  else st.

Definition onFocusIn (st : state) (t : nat) : state :=
  match getModalEls (doc st) with
  | None => st
  | Some els =>
      if negb (is_open (modal els)) then st
      else if negb (contains (modal els) t) then focus_first (modal els) st
      else st
  end.

(** The closing timeline reaches its end: the pending callbacks run. *)
Definition onCloseComplete (st : state) : state :=
  if close_running st then
    fold_left close_callback (close_then st)
      {| doc := doc st; openTL := openTL st; closeTL := closeTL st;
         builds := builds st; console := console st; focused := focused st;
         gsap := gsap st; close_running := false; close_then := [];
         prevented := prevented st; uncaught := uncaught st |}
  else st.

(** The inline style of an element, set to [css] or taken away. *)
Definition write_style (css : option string) (e : element) : element :=
  match css with
  | Some s => setAttribute "style" s e
  | None => removeAttribute "style" e
  end.

(** The engine writes the inline style of an element it has been handed. *)
Definition onRender (st : state) (h : nat) (css : option string) : state :=
  if existsb (Nat.eqb h) (engine_targets st)
  then set_doc (update h (write_style css) (doc st)) st
  else st.

(** [Render h css]: the engine writes the inline style of element [h],
    while it carries out a call or on a later frame.  [Mutate d]: the page
    (not this script) replaces the document by [d]. *)
Inductive event :=
| Click (t : nat)
| KeyDown (key : string)
| FocusIn (t : nat)
| CloseComplete
| Render (h : nat) (css : option string)
| Mutate (d : node).

Definition step (st : state) (e : event) : state :=
  match e with
  | Click t => onDocumentClick st t
  | KeyDown k => onKeyDown st k
  | FocusIn t => onFocusIn st t
  | CloseComplete => onCloseComplete st
  | Render h css => onRender st h css
  | Mutate d => set_doc d st
  end.

Definition run (st : state) (es : list event) : state := fold_left step es st.

Definition initModal (d : node) : state :=
  {| doc := d; openTL := None; closeTL := None; builds := 0;
     console := []; focused := None; gsap := []; close_running := false;
     close_then := []; prevented := 0; uncaught := [] |}.

(** The modal as the document now shows it. *)
Definition shown_open (st : state) : bool :=
  match doc_querySelector (ById "detailsModal") (doc st) with
  | Some m => is_open m
  | None => false
  end.

Definition aria_hidden (st : state) : option string :=
  match doc_querySelector (ById "detailsModal") (doc st) with
  | Some m => getAttribute "aria-hidden" (elt m)
  | None => None
  end.

(** The document after the two statements with which [openModal] marks the
    element [h] open, and after the two statements of the closing callback. *)
Definition opened (h : nat) (d : node) : node :=
  update h (setAttribute "aria-hidden" "false")
    (update h (classList_add "is-open") d).

Definition closed (h : nat) (d : node) : node :=
  update h (setAttribute "aria-hidden" "true")
    (update h (classList_remove "is-open") d).

(** [h] is the handle of the modal of document [d]. *)
Definition modal_is (h : nat) (d : node) : Prop :=
  exists m, doc_querySelector (ById "detailsModal") d = Some m /\ handle m = h.

(** The handles of the modal, its backdrop and its content area, as a query
    of document [d] finds them. *)
Definition modal_handles (d : node)
  : option (nat * option nat * option nat) :=
  match getModalEls d with
  | Some els =>
      Some (handle (modal els), option_map handle (backdrop els),
            option_map handle (content els))
  | None => None
  end.

(** The page leaves the modal alone: whatever it changes, a query finds the
    same modal, backdrop and content elements as in [d]. *)
Definition leaves_modal (d : node) (e : event) : Prop :=
  match e with
  | Mutate d' => modal_handles d' = modal_handles d
  | _ => True
  end.

(** The state of the timeline cache: nothing built yet, or both timelines
    built by the one and only run of [buildTimelines]. *)
Definition unbuilt (st : state) : Prop :=
  openTL st = None /\ closeTL st = None /\ builds st = 0%nat.

Definition built_on (b c : option nat) (st : state) : Prop :=
  openTL st = Some {| build := 0; opening := true;
                      on_backdrop := b; on_content := c |} /\
  closeTL st = Some {| build := 0; opening := false;
                       on_backdrop := b; on_content := c |} /\
  builds st = 1%nat.


(** An update that leaves the membership of class [c] alone. *)
Definition keeps_class (c : string) (f : element -> element) : Prop :=
  forall e, has_class c (f e) = has_class c e.

(** A request that is logged and otherwise ignored when the modal is
    missing. *)
Definition logged_and_ignored (request : state -> state) : Prop :=
  forall st, getModalEls (doc st) = None ->
    exists msg, request st = console_warn msg st.

(** A request that is ignored without a trace when the modal is missing. *)
Definition silently_ignored (request : state -> state) : Prop :=
  forall st, getModalEls (doc st) = None -> request st = st.

(** The two halves of the backdrop rule, read literally: a click on the
    backdrop element closes the modal; a click on an element below the
    backdrop that is neither the backdrop nor a close button does not. *)
Definition backdrop_click_closes : Prop :=
  forall d els b,
    getModalEls d = Some els -> backdrop els = Some b ->
    click_action d (handle b) = DoClose.

Definition content_click_keeps : Prop :=
  forall d els b t n,
    getModalEls d = Some els -> backdrop els = Some b ->
    contains b t = true -> handle b <> t ->
    lookup t d = Some n -> has_class "modal-close-btn" (elt n) = false ->
    click_action d t <> DoClose.

(** Neither request will have to build timelines on a modal without
    backdrop: the backdrop is there, or both timelines are in the cache. *)
Definition ready (els : modalEls) (st : state) : Prop :=
  backdrop els <> None \/ (openTL st <> None /\ closeTL st <> None).





(** A document whose modal, if it has one, has its backdrop; and an event
    by which the page does not take the backdrop away. *)
Definition has_backdrop (d : node) : Prop :=
  forall els, getModalEls d = Some els -> backdrop els <> None.

Definition backdrop_stays (e : event) : Prop :=
  match e with
  | Mutate d' => has_backdrop d'
  | _ => True
  end.

Definition is_render (e : event) : bool :=
  match e with
  | Render _ _ => true
  | _ => false
  end.

End Modal.

(* ================================================================== *)
(** * Example pages                                                     *)
(* ================================================================== *)

Module Samples.
Import Dom.

Definition el (h : nat) (t : string) (i : option string) (cs : list string)
    (ats : list (string * string)) : element :=
  {| nid := h; tag := t; id_attr := i; classes := cs; attrs := ats |}.

Definition poster_block : node :=
  Node (el 1 "div" None ["image-container"] [])
    [Node (el 2 "img" (Some "posterImage") []
             [("src", "poster.jpg"); ("alt", "Tricelerate 2.0")]) []].

Definition details_button : node :=
  Node (el 3 "button" (Some "viewDetailsBtn") ["btn"] []) [].

(** The modal: a backdrop that holds the content area, which holds a close
    button (with an icon inside) and a link. *)
Definition details_modal : node :=
  Node (el 4 "div" (Some "detailsModal") ["modal"] [("aria-hidden", "true")])
    [Node (el 5 "div" None ["modal-backdrop"] [])
       [Node (el 6 "div" None ["modal-content"] [])
          [Node (el 7 "button" None ["modal-close-btn"; "btn"] [])
             [Node (el 8 "span" None ["icon"] []) []];
           Node (el 9 "a" None [] [("href", "#register")]) []]]].

(** The landing page. *)
Definition page : node :=
  Node (el 0 "body" None [] []) [poster_block; details_button; details_modal].

(** The same page without the modal. *)
Definition page_without_modal : node :=
  Node (el 0 "body" None [] []) [poster_block; details_button].

(** The page after its modal was swapped for a new one. *)
Definition page_with_new_modal : node :=
  Node (el 0 "body" None [] [])
    [poster_block; details_button;
     Node (el 14 "div" (Some "detailsModal") ["modal"] [])
       [Node (el 15 "div" None ["modal-backdrop"] []) [];
        Node (el 16 "div" None ["modal-content"] [])
          [Node (el 17 "button" None ["modal-close-btn"] []) []]]].

(** The lightbox feature set up on the landing page: what
    [initPosterClickToEnlarge] returns for it. *)
Definition lightbox_start : Lightbox.state :=
  {| Lightbox.doc := page; Lightbox.fresh := 10;
     Lightbox.posterWrap := 1; Lightbox.poster := 2;
     Lightbox.click_listeners := []; Lightbox.keydown_once := [];
     Lightbox.running := []; Lightbox.prevented := 0 |}.

(** Styles that leave every element untransformed and without a shadow. *)
Definition plain_css (h : nat) : Buttons.visual :=
  {| Buttons.y := 0%Q; Buttons.scale := 1%Q; Buttons.boxShadow := "none" |}.

(** Values that a tween may write on a frame before it has ended. *)
Definition halfway (tw : Buttons.tween) : Buttons.visual :=
  {| Buttons.y := (-2 # 1)%Q; Buttons.scale := (201 # 200)%Q;
     Buttons.boxShadow := "0 5px 15px rgba(99,58,234,0.09)" |}.

(** Styles that show every element enlarged by a tenth. *)
Definition enlarged_css (h : nat) : Buttons.visual :=
  {| Buttons.y := 0%Q; Buttons.scale := (11 # 10)%Q;
     Buttons.boxShadow := "none" |}.

(** The landing page with a modal that lacks its backdrop. *)
Definition page_without_backdrop : node :=
  Node (el 0 "body" None [] [])
    [poster_block; details_button;
     Node (el 4 "div" (Some "detailsModal") ["modal"]
             [("aria-hidden", "true")])
       [Node (el 6 "div" None ["modal-content"] [])
          [Node (el 7 "button" None ["modal-close-btn"; "btn"] []) []]]].


(** A page whose open trigger wraps the modal itself. *)
Definition page_modal_in_trigger : node :=
  Node (el 0 "body" None [] [])
    [Node (el 3 "div" (Some "viewDetailsBtn") ["btn"] [])
       [Node (el 4 "div" (Some "detailsModal") ["modal"] [])
          [Node (el 5 "div" None ["modal-backdrop"] []) [];
           Node (el 6 "div" None ["modal-content"] []) []]]].

End Samples.

(* ================================================================== *)
(** * [initPreloader]: the poster entrance                              *)
(* ================================================================== *)

Module Preloader.
Import Dom.

(** [wait] is the promise of [waitForImageLoad(poster, 1800)]; [then_ran]
    tells whether its [then] callback has run; [posterTween_plays] counts
    the calls of [posterTween.play()], [tl_plays] those of [tl.play()].
    [preloader] is what [qs('.preloader')] found, [preloader_hidden] whether
    its [display] was set to ['none']. *)
Record state := {
  wait : ImageLoad.wait;
  then_ran : bool;
  posterTween_plays : nat;
  tl_plays : nat;
  preloader : option nat;
  preloader_hidden : bool
}.

(** The reaction of the promise: the callback given to [then] runs once,
    after the promise has been resolved. *)
Definition react (st : state) : state :=
  if negb (then_ran st) && negb (ImageLoad.pending (wait st)) then
    {| wait := wait st; then_ran := true;
       posterTween_plays := S (posterTween_plays st);
       tl_plays := tl_plays st; preloader := preloader st;
       preloader_hidden := preloader_hidden st |}
  else st.

(** [initPreloader] at instant [now]; [img] gives the load state of an
    image element.  The main timeline is played whatever the image does. *)
Definition initPreloader (d : node) (img : nat -> ImageLoad.image) (now : Z)
  : state :=
  let poster :=
    option_map (fun n => img (handle n))
      (doc_querySelector (ById "posterImage") d) in
  react
    {| wait := ImageLoad.waitForImageLoad poster (Some 1800) now;
       then_ran := false; posterTween_plays := 0; tl_plays := 1;
       preloader := option_map handle (doc_querySelector (ByClass "preloader") d);
       preloader_hidden := false |}.

(** The [onComplete] of the fade of the preloader:
    [try { preloader.style.display = 'none'; } catch (e) {}] *)
Definition fade_onComplete (st : state) : state :=
  match preloader st with
  | Some _ =>
      {| wait := wait st; then_ran := then_ran st;
         posterTween_plays := posterTween_plays st; tl_plays := tl_plays st;
         preloader := preloader st; preloader_hidden := true |}
  | None => st
  end.

Inductive event :=
| Image (e : ImageLoad.event)
| FadeComplete.

Definition step (st : state) (e : event) : state :=
  match e with
  | Image ie =>
      react {| wait := ImageLoad.step (wait st) ie; then_ran := then_ran st;
               posterTween_plays := posterTween_plays st;
               tl_plays := tl_plays st; preloader := preloader st;
               preloader_hidden := preloader_hidden st |}
  | FadeComplete => fade_onComplete st
  end.

Definition run (st : state) (es : list event) : state := fold_left step es st.

(** What holds between the promise and the poster tween. *)
Definition settled_or_waiting (dl : Z) (st : state) : Prop :=
  tl_plays st = 1%nat /\
  (preloader_hidden st = true -> preloader st <> None) /\
  ((then_ran st = true /\ posterTween_plays st = 1%nat /\
    ImageLoad.resolved (wait st) = 1%nat /\
    (ImageLoad.idle (wait st) \/ ImageLoad.done (wait st))) \/
   (then_ran st = false /\ posterTween_plays st = 0%nat /\
    ImageLoad.waiting dl (wait st))).

End Preloader.

(* ================================================================== *)
(** * Start-up: when [initAll] runs                                     *)
(* ================================================================== *)

Module Startup.

Inductive readyState := Loading | Interactive | Complete.

(** [dcl_listeners] counts the [DOMContentLoaded] listeners on the
    document, [timers] holds the instants at which a pending
    [setTimeout(initAll, 40)] is due, [inits] counts the runs of
    [initAll]. *)
Record state := {
  dcl_listeners : nat;
  timers : list Z;
  inits : nat;
  clock : Z
}.

(** The last statement of the script, run at instant [now]. *)
Definition start (rs : readyState) (now : Z) : state :=
  match rs with
  | Complete | Interactive =>
      {| dcl_listeners := 0; timers := [now + 40]; inits := 0; clock := now |}
  | Loading =>
      {| dcl_listeners := 1; timers := []; inits := 0; clock := now |}
  end.

Inductive event :=
| DOMContentLoaded
| Elapse (dt : Z).

(** Every listener of [DOMContentLoaded] sets a timer of its own; time
    passing runs [initAll] once for each timer that is due. *)
Definition step (st : state) (e : event) : state :=
  match e with
  | DOMContentLoaded =>
      {| dcl_listeners := dcl_listeners st;
         timers := timers st ++ repeat (clock st + 40) (dcl_listeners st);
         inits := inits st; clock := clock st |}
  | Elapse dt =>
      let now := clock st + Z.max 0 dt in
      let due := filter (fun t => t <=? now) (timers st) in
      {| dcl_listeners := dcl_listeners st;
         timers := filter (fun t => negb (t <=? now)) (timers st);
         inits := Nat.add (inits st) (List.length due);
         clock := now |}
  end.

Definition run (st : state) (es : list event) : state := fold_left step es st.

Definition is_dcl (e : event) : bool :=
  match e with DOMContentLoaded => true | Elapse _ => false end.

(** How often the document has announced that its content is loaded. *)
Definition announcements (es : list event) : nat :=
  List.length (filter is_dcl es).

(** No timer is due earlier than 40 ms after the start. *)
Definition not_early (base : Z) (st : state) : Prop :=
  Forall (fun t => base + 40 <= t) (timers st) /\
  base <= clock st /\
  ((0 < inits st)%nat -> base + 40 <= clock st).

(** With the document ready at the start, the one timer runs in the time
    step that reaches its instant. *)
Definition one_shot (base : Z) (st : state) : Prop :=
  dcl_listeners st = 0%nat /\
  ((inits st = 0%nat /\ timers st = [base + 40] /\ clock st < base + 40) \/
   (inits st = 1%nat /\ timers st = [] /\ base + 40 <= clock st)).

End Startup.

(* ================================================================== *)
(** * Notions used to state further properties                          *)
(* ================================================================== *)

Module Notions.
Import Dom.

(** ** The lightbox *)

(** The document is the page [d] as it was, or [d] with one overlay as the
    last child of [<body>]. *)
Definition page_or_overlay (d : node) (st : Lightbox.state) : Prop :=
  Lightbox.doc st = d \/
  exists h src alt,
    (Lightbox.max_handle d < h)%nat /\
    Lightbox.doc st = body_appendChild (Lightbox.overlay h src alt) d.

(** The closures a state holds, in listeners and in running timelines. *)
Definition known (c : Lightbox.closure) (st : Lightbox.state) : Prop :=
  In c (map snd (Lightbox.click_listeners st)) \/
  In c (Lightbox.keydown_once st) \/
  In (Lightbox.OutTL c) (Lightbox.running st).

(** Overlays are made four handles apart, starting after the handles of the
    page. *)
Definition slot (d : node) (h : nat) : Prop :=
  exists k, h = (S (Lightbox.max_handle d) + 4 * k)%nat.

Definition lightbox_inv (d : node) (st : Lightbox.state) : Prop :=
  slot d (Lightbox.fresh st) /\
  (forall c, known c st ->
     slot d (Lightbox.lb c) /\ (Lightbox.lb c < Lightbox.fresh st)%nat) /\
  (Lightbox.doc st = d \/
   exists h src alt,
     slot d h /\ (h < Lightbox.fresh st)%nat /\
     Lightbox.doc st = body_appendChild (Lightbox.overlay h src alt) d).

(** A closure made earlier, on a state in which handles are kept apart. *)
Definition placed (d : node) (st : Lightbox.state) (c : Lightbox.closure)
  : Prop :=
  slot d (Lightbox.lb c) /\ (Lightbox.lb c < Lightbox.fresh st)%nat.

(** ** The modal *)

(** An event that does not come from the page. *)
Definition is_interaction (e : Modal.event) : bool :=
  match e with Modal.Mutate _ => false | _ => true end.

(** What the four statements of an open followed by a completed close do
    to an element, and what the two statements of an open do. *)
Definition open_and_close (e : element) : element :=
  setAttribute "aria-hidden" "true"
    (classList_remove "is-open"
       (setAttribute "aria-hidden" "false" (classList_add "is-open" e))).

Definition mark_open (e : element) : element :=
  setAttribute "aria-hidden" "false" (classList_add "is-open" e).

Definition mark_closed (e : element) : element :=
  setAttribute "aria-hidden" "true" (classList_remove "is-open" e).

(** [e'] is [e] but for its inline style. *)
Definition restyled (e e' : element) : Prop :=
  nid e' = nid e /\ tag e' = tag e /\ id_attr e' = id_attr e /\
  classes e' = classes e /\
  forall k, k <> "style" -> getAttribute k e' = getAttribute k e.

(** The elements the controller has the engine animate: the backdrop and
    the content area of the modal of [d]. *)
Definition animated (d : node) : list nat :=
  match Modal.modal_handles d with
  | Some (_, b, c) => Modal.present [b; c]
  | None => []
  end.

(** [doc] is the page [d] with elements changed in place: handles, ids, tags
    and the tree are those of [d]; every element other than the modal of
    [d] is as it was but for its inline style, and exactly as it was unless
    it is one of [ts]. *)
Definition in_place (ts : list nat) (d doc : node) : Prop :=
  exists g,
    doc = tmap g d /\ same_identity g /\
    forall e,
      (forall els, Modal.getModalEls d = Some els ->
                   nid e <> handle (Modal.modal els)) ->
      restyled e (g e) /\ (~ In (nid e) ts -> g e = e).

(** [m] is the handle of the modal of [d]. *)
Definition modal_of (d : node) (m : nat) : Prop :=
  exists els, Modal.getModalEls d = Some els /\ m = handle (Modal.modal els).

(** The cached timelines are on elements among [ts]. *)
Definition cached_on (ts : list nat) (st : Modal.state) : Prop :=
  forall tl,
    Modal.openTL st = Some tl \/ Modal.closeTL st = Some tl ->
    incl (Modal.present [Modal.on_backdrop tl; Modal.on_content tl]) ts.

(** What the modal controller keeps of the page [d]. *)
Definition only_modal_changed (d : node) (st : Modal.state) : Prop :=
  Modal.modal_handles (Modal.doc st) = Modal.modal_handles d /\
  (forall m, In m (Modal.close_then st) -> modal_of d m) /\
  incl (Modal.engine_targets st) (animated d) /\
  cached_on (animated d) st /\
  in_place (animated d) d (Modal.doc st).

(** ** The buttons *)

(** The button an event is aimed at. *)
Definition aimed (e : Buttons.event) : option nat :=
  match e with
  | Buttons.MouseEnter h | Buttons.MouseLeave h
  | Buttons.Focus h | Buttons.Blur h => Some h
  | Buttons.Frame _ _ => None
  end.

Definition aimed_at (h : nat) (e : Buttons.event) : bool :=
  match aimed e with Some h' => Nat.eqb h' h | None => false end.

Definition is_pointer (e : Buttons.event) : bool :=
  match e with
  | Buttons.MouseEnter _ | Buttons.MouseLeave _ => true
  | _ => false
  end.

Definition is_focus (e : Buttons.event) : bool :=
  match e with
  | Buttons.Focus _ | Buttons.Blur _ => true
  | _ => false
  end.

Definition is_frame (e : Buttons.event) : bool :=
  match e with
  | Buttons.Frame _ _ => true
  | _ => false
  end.

Definition transform (s : Buttons.visual) : Q * Q :=
  (Buttons.y s, Buttons.scale s).

(** The values [v] leave the aspect [view] of an element as it is, at their
    end and on the way there. *)
Definition keeps {A} (view : Buttons.visual -> A) (v : Buttons.vars) : Prop :=
  forall s,
    view (Buttons.reach v s) = view s /\
    forall m, view (Buttons.reach (Buttons.between v m) s) = view s.

(** A tween that leaves the aspect [view] of element [h] as it is. *)
Definition quiet {A} (view : Buttons.visual -> A) (h : nat)
    (tw : Buttons.tween) : Prop :=
  Buttons.target tw = h -> keeps view (Buttons.goal tw).

(** A tween that drives the shadow. *)
Definition on_shadow (tw : Buttons.tween) : bool :=
  match Buttons.to_boxShadow (Buttons.goal tw) with
  | Some _ => true
  | None => false
  end.

(** Every tween on a shadow ends within the 180 ms of the focus and blur
    tweens. *)
Definition shadows_short (st : Buttons.state) : Prop :=
  Forall (fun tw => on_shadow tw = true ->
                    Buttons.ends tw <= Buttons.clock st + 180)
    (Buttons.tweens st).

(** No tween under way has reached its end. *)
Definition alive (st : Buttons.state) : Prop :=
  Forall (fun tw => Buttons.clock st < Buttons.ends tw) (Buttons.tweens st).

(** An event whose listener, if there is one, starts no tween that changes
    the aspect [view] of element [h]; [bs] are the elements with
    listeners. *)
Definition calm {A} (view : Buttons.visual -> A) (h : nat) (bs : list nat)
    (e : Buttons.event) : Prop :=
  match e with
  | Buttons.MouseEnter h' =>
      existsb (Nat.eqb h') bs = true -> h' = h -> keeps view Buttons.lift
  | Buttons.MouseLeave h' =>
      existsb (Nat.eqb h') bs = true -> h' = h -> keeps view Buttons.rest
  | Buttons.Focus h' =>
      existsb (Nat.eqb h') bs = true -> h' = h -> keeps view Buttons.glow
  | Buttons.Blur h' =>
      existsb (Nat.eqb h') bs = true -> h' = h -> keeps view Buttons.no_glow
  | Buttons.Frame _ _ => True
  end.

(** The tween [x] is under way and is the one whose end decides the aspect
    [view] of [h]: the tweens made after it leave that aspect alone, and a
    tween made before it either leaves it alone or ends no later than
    [x]. *)
Definition last_driver {A} (view : Buttons.visual -> A) (h : nat)
    (x : Buttons.tween) (st : Buttons.state) : Prop :=
  Buttons.clock st < Buttons.ends x /\
  exists pre post,
    Buttons.tweens st = pre ++ x :: post /\
    Forall (fun tw => quiet view h tw \/ Buttons.ends tw <= Buttons.ends x)
      pre /\
    Forall (quiet view h) post.

(** The aspect [view] of [h] has the value [v], and no tween under way
    changes it. *)
Definition settled {A} (view : Buttons.visual -> A) (h : nat) (v : A)
    (st : Buttons.state) : Prop :=
  Forall (quiet view h) (Buttons.tweens st) /\ view (Buttons.look st h) = v.

(** The round trip read literally: on any page, a pointer-enter, a
    pointer-leave and the end of the leave tween give every button the
    translate-y and scale it had before the pointer-enter. *)
Definition hover_restores_original : Prop :=
  forall d css n dt mid,
    In n (doc_querySelectorAll (ByClass "btn") d) -> 280 <= dt ->
    let before := Buttons.initButtonInteractions d css in
    let after :=
      Buttons.run before
        [Buttons.MouseEnter (handle n); Buttons.MouseLeave (handle n);
         Buttons.Frame dt mid] in
    transform (Buttons.look after (handle n))
    = transform (Buttons.look before (handle n)).

End Notions.

(* ================================================================== *)
(** * Part II: properties                                               *)
(* ================================================================== *)

Module DomFacts.
Import Dom.

(** Induction on a tree of elements, with the hypothesis for every child. *)
Lemma node_rect' (P : node -> Prop) :
  (forall e ks, Forall P ks -> P (Node e ks)) -> forall n, P n.
Proof.
  intros H. fix IH 1. intros [e ks]. apply H.
  induction ks as [ | k ks IHks]; constructor; [apply IH | exact IHks].
Qed.

Lemma find_hd_filter {A} (p : A -> bool) (l : list A) :
  find p l = hd_error (filter p l).
Proof.
  induction l as [ | a l IH]; simpl; [reflexivity | ].
  destruct (p a); [reflexivity | exact IH].
Qed.

Lemma find_none_filter {A} (p : A -> bool) (l : list A) :
  find p l = None <-> filter p l = [].
Proof.
  rewrite find_hd_filter. destruct (filter p l); simpl; split; congruence.
Qed.

Lemma find_map {A B} (f : A -> B) (p : B -> bool) (q : A -> bool) l :
  (forall a, p (f a) = q a) ->
  find p (map f l) = option_map f (find q l).
Proof.
  intros H. induction l as [ | a l IH]; simpl; [reflexivity | ].
  rewrite H. destruct (q a); [reflexivity | exact IH].
Qed.

Lemma filter_map_comm {A B} (f : A -> B) (p : B -> bool) (q : A -> bool) l :
  (forall a, p (f a) = q a) ->
  filter p (map f l) = map f (filter q l).
Proof.
  intros H. induction l as [ | a l IH]; simpl; [reflexivity | ].
  rewrite H. destruct (q a); simpl; rewrite IH; reflexivity.
Qed.

Lemma elt_tmap g n : elt (tmap g n) = g (elt n).
Proof. destruct n; reflexivity. Qed.

(** Changing elements in place keeps the document order. *)
Lemma flatten_tmap g : forall n, flatten (tmap g n) = map (tmap g) (flatten n).
Proof.
  induction n as [e ks IH] using node_rect'. simpl. f_equal.
  induction IH as [ | k ks Hk _ IHks]; simpl; [reflexivity | ].
  rewrite map_app, Hk, IHks. reflexivity.
Qed.

Lemma descendants_tmap g n :
  descendants (tmap g n) = map (tmap g) (descendants n).
Proof.
  destruct n as [e ks]. unfold descendants; simpl.
  induction ks as [ | k ks IH]; simpl; [reflexivity | ].
  rewrite map_app, flatten_tmap, IH. reflexivity.
Qed.

Section Preserved.
Variables (s : selector) (g : element -> element).
Hypothesis keeps : forall e, matches s (g e) = matches s e.

Lemma doc_querySelector_tmap d :
  doc_querySelector s (tmap g d) = option_map (tmap g) (doc_querySelector s d).
Proof.
  unfold doc_querySelector. rewrite flatten_tmap.
  apply find_map. intros a. rewrite elt_tmap. apply keeps.
Qed.

Lemma querySelectorAll_tmap n :
  querySelectorAll s (tmap g n) = map (tmap g) (querySelectorAll s n).
Proof.
  unfold querySelectorAll. rewrite descendants_tmap.
  apply filter_map_comm. intros a. rewrite elt_tmap. apply keeps.
Qed.

Lemma count_tmap d : count s (tmap g d) = count s d.
Proof.
  unfold count, doc_querySelectorAll. rewrite flatten_tmap.
  rewrite (filter_map_comm (tmap g) _ (fun m => matches s (elt m))).
  - apply length_map.
  - intros a. rewrite elt_tmap. apply keeps.
Qed.
End Preserved.

Lemma classList_add_identity c : same_identity (classList_add c).
Proof. intros e. repeat split. Qed.

Lemma classList_remove_identity c : same_identity (classList_remove c).
Proof. intros e. repeat split. Qed.

Lemma setAttribute_identity k v : same_identity (setAttribute k v).
Proof. intros e. repeat split. Qed.

Lemma matches_update_id i t f e :
  same_identity f ->
  matches (ById i) (if Nat.eqb (nid e) t then f e else e) = matches (ById i) e.
Proof.
  intros H. destruct (Nat.eqb (nid e) t); [ | reflexivity].
  simpl. destruct (H e) as (_ & -> & _). reflexivity.
Qed.

Lemma matches_update_tags ts t f e :
  same_identity f ->
  matches (ByTags ts) (if Nat.eqb (nid e) t then f e else e)
  = matches (ByTags ts) e.
Proof.
  intros H. destruct (Nat.eqb (nid e) t); [ | reflexivity].
  simpl. destruct (H e) as (_ & _ & ->). reflexivity.
Qed.

(** The first element with a given id is still the first one after an
    update, and it is the updated element. *)
Lemma doc_querySelector_update i t f d :
  same_identity f ->
  doc_querySelector (ById i) (update t f d)
  = option_map (update t f) (doc_querySelector (ById i) d).
Proof.
  intros H. unfold update. apply doc_querySelector_tmap.
  intros e. apply matches_update_id, H.
Qed.

Lemma elt_update_self t f n :
  handle n = t -> elt (update t f n) = f (elt n).
Proof.
  intros H. unfold update. rewrite elt_tmap.
  unfold handle in H. rewrite H, Nat.eqb_refl. reflexivity.
Qed.

Lemma handle_update t f n :
  same_identity f -> handle (update t f n) = handle n.
Proof.
  intros H. unfold handle, update. rewrite elt_tmap.
  destruct (Nat.eqb (nid (elt n)) t); [apply H | reflexivity].
Qed.

Lemma has_class_add c e : has_class c (classList_add c e) = true.
Proof.
  unfold classList_add, has_class; simpl.
  destruct (existsb (String.eqb c) (classes e)) eqn:Hc; [exact Hc | ].
  rewrite existsb_app; simpl. rewrite String.eqb_refl.
  apply orb_true_iff. right. reflexivity.
Qed.

Lemma has_class_remove c e : has_class c (classList_remove c e) = false.
Proof.
  unfold classList_remove, has_class; simpl.
  induction (classes e) as [ | x l IH]; simpl; [reflexivity | ].
  destruct (String.eqb c x) eqn:Hx; simpl; [exact IH | ].
  rewrite Hx. exact IH.
Qed.

Lemma has_class_setAttribute c k v e :
  has_class c (setAttribute k v e) = has_class c e.
Proof. reflexivity. Qed.

Lemma assoc_get_set k v l : assoc_get k (assoc_set k v l) = Some v.
Proof.
  induction l as [ | [k' v'] l IH]; simpl.
  - rewrite String.eqb_refl. reflexivity.
  - destruct (String.eqb k k') eqn:Hk; simpl.
    + rewrite String.eqb_refl. reflexivity.
    + rewrite Hk. exact IH.
Qed.

Lemma getAttribute_setAttribute k v e :
  getAttribute k (setAttribute k v e) = Some v.
Proof. apply assoc_get_set. Qed.

(** ** Counting, appending and detaching *)

Lemma doc_querySelector_none_count s d :
  doc_querySelector s d = None <-> count s d = 0%nat.
Proof.
  unfold doc_querySelector, count, doc_querySelectorAll.
  rewrite find_none_filter.
  destruct (filter _ (flatten d)); simpl; split; congruence.
Qed.

Lemma flatten_body_appendChild k d :
  flat_map flatten (children (body_appendChild k d))
  = flat_map flatten (children d) ++ flatten k.
Proof.
  destruct d as [e ks]. simpl.
  rewrite flat_map_app. simpl. rewrite app_nil_r. reflexivity.
Qed.

Lemma elt_body_appendChild k d : elt (body_appendChild k d) = elt d.
Proof. destruct d; reflexivity. Qed.

Lemma flatten_root n : flatten n = n :: flat_map flatten (children n).
Proof. destruct n; reflexivity. Qed.

Lemma count_body_appendChild s k d :
  count s (body_appendChild k d) = (count s d + count s k)%nat.
Proof.
  unfold count, doc_querySelectorAll.
  rewrite (flatten_root (body_appendChild k d)), (flatten_root d).
  rewrite flatten_body_appendChild. simpl.
  rewrite elt_body_appendChild, filter_app.
  destruct (matches s (elt d)); simpl; rewrite length_app; reflexivity.
Qed.

Lemma children_body_appendChild k d :
  children (body_appendChild k d) = children d ++ [k].
Proof. destruct d; reflexivity. Qed.

(** Detaching never adds a match. *)
Lemma count_detach_le s t : forall n, (count s (detach t n) <= count s n)%nat.
Proof.
  unfold count, doc_querySelectorAll.
  induction n as [e ks IH] using node_rect'. simpl.
  assert (H : (List.length
                 (filter (fun m => matches s (elt m))
                    (flat_map flatten
                       ((fix go (l : list node) : list node :=
                           match l with
                           | [] => []
                           | k :: l' =>
                               if Nat.eqb (handle k) t then go l'
                               else detach t k :: go l'
                           end) ks)))
               <= List.length
                    (filter (fun m => matches s (elt m))
                       (flat_map flatten ks)))%nat).
  { induction IH as [ | k ks Hk _ IHks]; simpl; [lia | ].
    rewrite filter_app, length_app.
    destruct (Nat.eqb (handle k) t); simpl.
    - lia.
    - rewrite filter_app, length_app. lia. }
  destruct (matches s e); simpl; lia.
Qed.

(** A detached element is no longer found. *)
Lemma chain_detach t : forall n, handle n <> t -> chain t (detach t n) = [].
Proof.
  induction n as [e ks IH] using node_rect'. intros Hn.
  unfold handle in Hn; simpl in Hn. simpl.
  apply Nat.eqb_neq in Hn. rewrite Hn.
  assert (H : (fix go (l : list node) : list node :=
                 match l with
                 | [] => []
                 | k :: l' => match chain t k with [] => go l' | c => c end
                 end)
                ((fix go (l : list node) : list node :=
                    match l with
                    | [] => []
                    | k :: l' =>
                        if Nat.eqb (handle k) t then go l'
                        else detach t k :: go l'
                    end) ks) = []).
  { induction IH as [ | k ks Hk _ IHks]; simpl; [reflexivity | ].
    destruct (Nat.eqb (handle k) t) eqn:Hkt; [exact IHks | ].
    apply Nat.eqb_neq in Hkt. rewrite (Hk Hkt). exact IHks. }
  rewrite H. reflexivity.
Qed.

Lemma parentNode_not_root t d p : parentNode t d = Some p -> handle d <> t.
Proof.
  destruct d as [e ks]. unfold parentNode, handle. simpl.
  destruct (Nat.eqb (nid e) t) eqn:He; [discriminate | ].
  intros _. apply Nat.eqb_neq, He.
Qed.

Lemma parentNode_detach t d : handle d <> t -> parentNode t (detach t d) = None.
Proof.
  intros H. unfold parentNode. rewrite (chain_detach t d H). reflexivity.
Qed.

(** [lb.parentNode.removeChild(lb)] does not raise. *)
Lemma removeChild_parent t d p :
  parentNode t d = Some p -> removeChild (handle p) t d = Some (detach t d).
Proof.
  intros H. unfold removeChild. rewrite H, Nat.eqb_refl. reflexivity.
Qed.

(** Appending a subtree and detaching its root again. *)
Lemma detach_body_appendChild t k d :
  handle k = t -> detach t (body_appendChild k d) = detach t d.
Proof.
  intros Hk. destruct d as [e ks]. simpl. f_equal.
  induction ks as [ | x ks IH]; simpl.
  - rewrite Hk, Nat.eqb_refl. reflexivity.
  - rewrite IH. reflexivity.
Qed.

(** An element whose handle does not occur has no path. *)
Lemma chain_absent t : forall n,
  Forall (fun m => handle m <> t) (flatten n) -> chain t n = [].
Proof.
  induction n as [e ks IH] using node_rect'. intros H.
  simpl in H. inversion H as [ | x l Hx Hl]; subst.
  unfold handle in Hx; simpl in Hx. apply Nat.eqb_neq in Hx.
  simpl. rewrite Hx.
  assert (Hgo : (fix go (l : list node) : list node :=
                   match l with
                   | [] => []
                   | k :: l' => match chain t k with [] => go l' | c => c end
                   end) ks = []).
  { clear Hx H. induction IH as [ | k ks Hk _ IHks]; simpl; [reflexivity | ].
    simpl in Hl. apply Forall_app in Hl. destruct Hl as [Hl1 Hl2].
    rewrite (Hk Hl1). apply IHks, Hl2. }
  rewrite Hgo. reflexivity.
Qed.

(** The path to an element of a freshly appended subtree. *)
Lemma chain_body_appendChild t k d :
  Forall (fun m => handle m <> t) (flatten d) ->
  chain t (body_appendChild k d)
  = match chain t k with
    | [] => []
    | c => c ++ [body_appendChild k d]
    end.
Proof.
  destruct d as [e ks]. intros H.
  simpl in H. inversion H as [ | x l Hx Hl]; subst.
  unfold handle in Hx; simpl in Hx. apply Nat.eqb_neq in Hx.
  simpl. rewrite Hx.
  assert (Hgo : (fix go (l : list node) : list node :=
                   match l with
                   | [] => []
                   | k0 :: l' => match chain t k0 with [] => go l' | c => c end
                   end) (ks ++ [k]) = chain t k).
  { clear Hx H. induction ks as [ | x ks IH]; simpl.
    - destruct (chain t k); reflexivity.
    - simpl in Hl. apply Forall_app in Hl. destruct Hl as [Hl1 Hl2].
      rewrite (chain_absent t x Hl1). apply IH, Hl2. }
  rewrite Hgo. reflexivity.
Qed.

(** Detaching a handle that does not occur changes nothing. *)
Lemma detach_absent t : forall n,
  Forall (fun m => handle m <> t) (flatten n) -> detach t n = n.
Proof.
  induction n as [e ks IH] using node_rect'. intros H.
  simpl in H. inversion H as [ | x l _ Hl]; subst. clear H.
  simpl. f_equal.
  induction IH as [ | k ks Hk _ IHks]; simpl; [reflexivity | ].
  simpl in Hl. apply Forall_app in Hl. destruct Hl as [Hl1 Hl2].
  assert (Hkt : handle k <> t).
  { destruct k as [ek kk]. simpl in Hl1. inversion Hl1; assumption. }
  apply Nat.eqb_neq in Hkt. rewrite Hkt, (Hk Hl1), (IHks Hl2). reflexivity.
Qed.

(** What holds of every handle of a tree holds after a detachment. *)
Lemma Forall_flatten_detach (P : nat -> Prop) t : forall n,
  Forall (fun m => P (handle m)) (flatten n) ->
  Forall (fun m => P (handle m)) (flatten (detach t n)).
Proof.
  induction n as [e ks IH] using node_rect'. intros H.
  simpl in H. inversion H as [ | x l Hx Hl]; subst. clear H.
  simpl. constructor; [exact Hx | clear Hx].
  induction IH as [ | k ks Hk _ IHks]; simpl; [constructor | ].
  simpl in Hl. apply Forall_app in Hl. destruct Hl as [Hl1 Hl2].
  destruct (Nat.eqb (handle k) t); [apply IHks, Hl2 | ].
  simpl. apply Forall_app. split; [apply Hk, Hl1 | apply IHks, Hl2].
Qed.

Lemma Forall_flatten_body_appendChild (P : nat -> Prop) k d :
  Forall (fun m => P (handle m)) (flatten d) ->
  Forall (fun m => P (handle m)) (flatten k) ->
  Forall (fun m => P (handle m)) (flatten (body_appendChild k d)).
Proof.
  intros Hd Hk.
  rewrite (flatten_root (body_appendChild k d)), flatten_body_appendChild.
  rewrite (flatten_root d) in Hd. inversion Hd as [ | x l Hx Hl]; subst.
  constructor.
  - unfold handle in *. rewrite elt_body_appendChild. exact Hx.
  - apply Forall_app. split; assumption.
Qed.

Lemma le_fold_max x l : In x l -> (x <= fold_right Nat.max 0 l)%nat.
Proof.
  induction l as [ | a l IH]; simpl; [intros [] | ].
  intros [-> | H]; [lia | ]. specialize (IH H). lia.
Qed.

End DomFacts.

Module ImageLoadFacts.
Import ImageLoad.

Ltac unfold_handlers :=
  unfold step, run_timers, onLoad, onError, onTimer, resolve, cleanup,
    set_fired, drop_timer, tick, waiting, done, idle in *; simpl in *.

(** After the first resolution nothing changes but the clock. *)
Lemma step_done w e : done w -> done (step w e).
Proof.
  intros (Hf & Hl & He & Ht & Hr).
  destruct e as [ | | dt]; unfold_handlers.
  - rewrite Hl. repeat split; assumption.
  - rewrite He. repeat split; assumption.
  - rewrite Ht. repeat split; assumption.
Qed.

Lemma run_done es : forall w, done w -> done (run w es).
Proof.
  induction es as [ | e es IH]; intros w H; simpl; [exact H | ].
  apply IH, step_done, H.
Qed.

(** One event on a waiting helper: a time step short of the deadline keeps
    it waiting, anything else resolves it. *)
Lemma step_waiting dl w e :
  waiting dl w ->
  (waiting dl (step w e) /\ is_producer e = false) \/ done (step w e).
Proof.
  intros (Hf & Hl & He & Ht & Hr & Hc).
  destruct e as [ | | dt]; unfold_handlers.
  - rewrite Hl, Hf; simpl. right. repeat split; congruence.
  - rewrite He, Hf; simpl. right. repeat split; congruence.
  - rewrite Ht. destruct (dl <=? clock w + Z.max 0 dt) eqn:Hdue; simpl.
    + rewrite Hf; simpl. right. repeat split; congruence.
    + left. apply Z.leb_gt in Hdue. repeat split; try assumption. lia.
Qed.

Lemma run_waiting dl es : forall w,
  waiting dl w ->
  (waiting dl (run w es) /\ forallb (fun e => negb (is_producer e)) es = true)
  \/ done (run w es).
Proof.
  induction es as [ | e es IH]; intros w H; simpl.
  - left. split; [exact H | reflexivity].
  - destruct (step_waiting dl w e H) as [[Hw Hp] | Hd].
    + destruct (IH _ Hw) as [[Hw' Hall] | Hd'].
      * left. split; [exact Hw' | ]. rewrite Hp. exact Hall.
      * right. exact Hd'.
    + right. apply run_done, Hd.
Qed.

(** The fast paths leave nothing that an event could reach. *)
Lemma step_idle w e : idle w -> idle (step w e).
Proof.
  intros (Hl & He & Ht & Hr).
  destruct e as [ | | dt]; unfold_handlers.
  - rewrite Hl. repeat split; assumption.
  - rewrite He. repeat split; assumption.
  - rewrite Ht. repeat split; assumption.
Qed.

Lemma run_idle es : forall w, idle w -> idle (run w es).
Proof.
  induction es as [ | e es IH]; intros w H; simpl; [exact H | ].
  apply IH, step_idle, H.
Qed.

(** The executor ends in one of the two shapes. *)
Lemma waitForImageLoad_shape img timeout now :
  let w := waitForImageLoad img timeout now in
  (idle w /\ fired w = false) \/ waiting (due now (timeout_ms timeout)) w.
Proof.
  unfold waitForImageLoad.
  destruct img as [i | ]; [ | left; repeat split].
  destruct (complete i && truthy (naturalWidth i)); [left; repeat split | ].
  right. unfold waiting, due; simpl. repeat split. lia.
Qed.

(** The [fired] flag alone stops a handler that is called late. *)
Lemma fired_guard w :
  fired w = true -> onLoad w = w /\ onError w = w /\ onTimer w = w.
Proof.
  intros H. unfold onLoad, onError, onTimer. rewrite H. repeat split.
Qed.

(** C1. For every image (or none), every timeout and every sequence of
    [load] events, [error] events and time steps, [resolve] is called at most
    once; while the promise is pending no [load] or [error] has been
    delivered, the timer is still armed and the clock has not passed the
    deadline [now + timeout] (1800 ms when no timeout is given), so once the
    clock is past the deadline [resolve] has been called exactly once; and
    once the slow path has resolved, [fired] is set and each of the three
    handlers, were it called again, would return without resolving.  (A
    timer runs in the time step in which it falls due.) *)
Theorem waitForImageLoad_resolves_once img timeout now es :
  let dl := due now (timeout_ms timeout) in
  let w := run (waitForImageLoad img timeout now) es in
  (resolved w <= 1)%nat /\
  (resolved w = 0%nat ->
     forallb (fun e => negb (is_producer e)) es = true /\
     timer w = Some dl /\ clock w <= dl) /\
  (dl < clock w -> resolved w = 1%nat) /\
  (load_listener (waitForImageLoad img timeout now) = true ->
   resolved w = 1%nat ->
     fired w = true /\ onLoad w = w /\ onError w = w /\ onTimer w = w) /\
  timeout_ms None = 1800.
Proof.
  intros dl w.
  assert (H : ((idle w /\ load_listener (waitForImageLoad img timeout now) = false)
               \/ done w) \/
              (waiting dl w /\
               forallb (fun e => negb (is_producer e)) es = true)).
  { subst w. destruct (waitForImageLoad_shape img timeout now) as [[Hi _] | Hw].
    - left. left. split; [apply run_idle, Hi | apply Hi].
    - destruct (run_waiting dl es _ Hw) as [Hw' | Hd].
      + right. exact Hw'.
      + left. right. exact Hd. }
  assert (Hone : ((idle w /\ load_listener (waitForImageLoad img timeout now) = false)
                  \/ done w) -> resolved w = 1%nat).
  { intros [((_ & _ & _ & Hr) & _) | (_ & _ & _ & _ & Hr)]; exact Hr. }
  split; [ | split; [ | split; [ | split; [ | reflexivity]]]].
  - destruct H as [H | [(_ & _ & _ & _ & Hr & _) _]];
      [rewrite (Hone H) | rewrite Hr]; lia.
  - intros Hp. destruct H as [H | [(_ & _ & _ & Ht & _ & Hc) Hall]].
    + rewrite (Hone H) in Hp. discriminate Hp.
    + repeat split; assumption.
  - intros Hlate. destruct H as [H | [(_ & _ & _ & _ & _ & Hc) _]];
      [exact (Hone H) | lia].
  - intros Hslow Hr. destruct H as [[[_ Hfast] | Hd] | [(_ & _ & _ & _ & Hr0 & _) _]].
    + congruence.
    + destruct Hd as (Hf & _). split; [exact Hf | apply fired_guard, Hf].
    + congruence.
Qed.

(** C10. With no image, or with an image that is already complete and has a
    nonzero [naturalWidth], the executor calls [resolve] at once, attaches no
    listener and starts no timer; no later event changes that. *)
Theorem waitForImageLoad_fast_paths timeout now :
  let settled w :=
    resolved w = 1%nat /\ load_listener w = false /\
    error_listener w = false /\ timer w = None in
  (settled (waitForImageLoad None timeout now) /\
   forall es, settled (run (waitForImageLoad None timeout now) es)) /\
  (forall i, complete i = true -> naturalWidth i <> 0 ->
     settled (waitForImageLoad (Some i) timeout now) /\
     clock (waitForImageLoad (Some i) timeout now) = now /\
     forall es, settled (run (waitForImageLoad (Some i) timeout now) es)).
Proof.
  intros settled.
  assert (Hs : forall w, idle w -> settled w).
  { intros w (Hl & He & Ht & Hr). repeat split; assumption. }
  assert (Hnone : idle (waitForImageLoad None timeout now)) by (repeat split).
  split.
  - split; [apply Hs, Hnone | intros es; apply Hs, run_idle, Hnone].
  - intros i Hc Hn.
    assert (Hi : waitForImageLoad (Some i) timeout now =
                 waitForImageLoad None timeout now).
    { unfold waitForImageLoad, truthy. rewrite Hc.
      apply Z.eqb_neq in Hn. rewrite Hn. reflexivity. }
    rewrite Hi. split; [apply Hs, Hnone | ].
    split; [reflexivity | intros es; apply Hs, run_idle, Hnone].
Qed.

(** A poster that is already decoded, asked for with the script's 1800 ms. *)
Lemma waitForImageLoad_fast_paths_witness :
  let i := {| complete := true; naturalWidth := 640 |} in
  resolved (waitForImageLoad (Some i) (Some 1800) 0) = 1%nat /\
  timer (run (waitForImageLoad (Some i) (Some 1800) 0) [Elapse 2000; Load])
    = None.
Proof.
  intros i.
  destruct (waitForImageLoad_fast_paths (Some 1800) 0) as [_ H].
  destruct (H i eq_refl ltac:(discriminate)) as ((Hr & _) & _ & Hes).
  split; [exact Hr | ].
  destruct (Hes [Elapse 2000; Load]) as (_ & _ & _ & Ht). exact Ht.
Defined.

(** The three producers racing: the error wins, the late load and the
    timeout find nothing to do. *)
Lemma waitForImageLoad_resolves_once_witness :
  let i := {| complete := false; naturalWidth := 0 |} in
  (resolved (run (waitForImageLoad (Some i) None 0)
               [Elapse 700; Error; Load; Elapse 1200]) <= 1)%nat.
Proof.
  intros i.
  exact (proj1 (waitForImageLoad_resolves_once (Some i) None 0
                  [Elapse 700; Error; Load; Elapse 1200])).
Defined.

End ImageLoadFacts.

Module ModalFacts.
Import Dom DomFacts Modal.

Lemma getModalEls_modal d els :
  getModalEls d = Some els ->
  doc_querySelector (ById "detailsModal") d = Some (modal els).
Proof.
  unfold getModalEls.
  destruct (doc_querySelector (ById "detailsModal") d) as [m | ];
    [ | discriminate].
  intros H. injection H as <-. reflexivity.
Qed.

Lemma getModalEls_none d :
  getModalEls d = None <-> doc_querySelector (ById "detailsModal") d = None.
Proof.
  unfold getModalEls.
  destruct (doc_querySelector (ById "detailsModal") d); split; congruence.
Qed.

(** [openModal] marks the modal open whether or not [buildTimelines]
    raises. *)
Lemma openModal_doc st els :
  getModalEls (doc st) = Some els ->
  doc (openModal st) = opened (handle (modal els)) (doc st).
Proof.
  intros H. unfold openModal. rewrite H. simpl.
  destruct (openTL st) eqn:Ho; simpl; rewrite ?Ho.
  - unfold focus_first.
    destruct (querySelectorAll focusables (modal els)); reflexivity.
  - destruct (backdrop els); simpl; [ | reflexivity].
    unfold focus_first.
    destruct (querySelectorAll focusables (modal els)); reflexivity.
Qed.

Lemma closeModal_doc st : doc (closeModal st) = doc st.
Proof.
  unfold closeModal. destruct (getModalEls (doc st)) as [els | ];
    [ | reflexivity].
  destruct (closeTL st) eqn:Hc; simpl; rewrite ?Hc; [reflexivity | ].
  destruct (backdrop els); reflexivity.
Qed.

Lemma close_callback_doc st m : doc (close_callback st m) = closed m (doc st).
Proof. reflexivity. Qed.

Lemma modal_is_update h t f d :
  same_identity f -> modal_is h d -> modal_is h (update t f d).
Proof.
  intros Hf (m & Hq & Hh). exists (update t f m). split.
  - rewrite doc_querySelector_update, Hq by exact Hf. reflexivity.
  - rewrite handle_update by exact Hf. exact Hh.
Qed.

Lemma modal_is_closed h t d : modal_is h d -> modal_is h (closed t d).
Proof.
  intros H. unfold closed.
  apply modal_is_update; [apply setAttribute_identity | ].
  apply modal_is_update; [apply classList_remove_identity | exact H].
Qed.

Lemma modal_is_opened h t d : modal_is h d -> modal_is h (opened t d).
Proof.
  intros H. unfold opened.
  apply modal_is_update; [apply setAttribute_identity | ].
  apply modal_is_update; [apply classList_add_identity | exact H].
Qed.

Lemma modal_is_callbacks h l : forall st,
  modal_is h (doc st) -> modal_is h (doc (fold_left close_callback l st)).
Proof.
  induction l as [ | m l IH]; intros st H; simpl; [exact H | ].
  apply IH. rewrite close_callback_doc. apply modal_is_closed, H.
Qed.

(** What the document shows after the modal's own element was opened or
    closed. *)
Lemma shown_after_opened h d :
  modal_is h d ->
  exists m, doc_querySelector (ById "detailsModal") (opened h d) = Some m /\
            is_open m = true /\
            getAttribute "aria-hidden" (elt m) = Some "false".
Proof.
  intros (m & Hq & Hh). unfold opened.
  exists (update h (setAttribute "aria-hidden" "false")
            (update h (classList_add "is-open") m)).
  split.
  - rewrite doc_querySelector_update by apply setAttribute_identity.
    rewrite doc_querySelector_update by apply classList_add_identity.
    rewrite Hq. reflexivity.
  - unfold is_open.
    rewrite elt_update_self
      by (rewrite handle_update by apply classList_add_identity; exact Hh).
    rewrite elt_update_self by exact Hh.
    split; [apply has_class_add | apply getAttribute_setAttribute].
Qed.

Lemma shown_after_closed h d :
  modal_is h d ->
  exists m, doc_querySelector (ById "detailsModal") (closed h d) = Some m /\
            is_open m = false /\
            getAttribute "aria-hidden" (elt m) = Some "true".
Proof.
  intros (m & Hq & Hh). unfold closed.
  exists (update h (setAttribute "aria-hidden" "true")
            (update h (classList_remove "is-open") m)).
  split.
  - rewrite doc_querySelector_update by apply setAttribute_identity.
    rewrite doc_querySelector_update by apply classList_remove_identity.
    rewrite Hq. reflexivity.
  - unfold is_open.
    rewrite elt_update_self
      by (rewrite handle_update by apply classList_remove_identity; exact Hh).
    rewrite elt_update_self by exact Hh.
    split; [apply has_class_remove | apply getAttribute_setAttribute].
Qed.

(** [closeModal], when the modal is there and the closing timeline is in
    the cache or can be built, registers its callback and sets the timeline
    going. *)
Lemma closeModal_pending st els :
  getModalEls (doc st) = Some els ->
  closeTL st <> None \/ backdrop els <> None ->
  close_running (closeModal st) = true /\
  close_then (closeModal st) = close_then st ++ [handle (modal els)] /\
  uncaught (closeModal st) = uncaught st.
Proof.
  intros H Hr. unfold closeModal. rewrite H.
  destruct (closeTL st) eqn:Hc; simpl; rewrite ?Hc; [repeat split | ].
  destruct (backdrop els); simpl; [repeat split | ].
  destruct Hr as [Hr | Hr]; exfalso; apply Hr; reflexivity.
Qed.

(** On a modal without backdrop and with no closing timeline in the cache,
    [closeModal] raises and does nothing else. *)
Lemma closeModal_raises st els :
  getModalEls (doc st) = Some els ->
  closeTL st = None -> backdrop els = None ->
  closeModal st = throw "TypeError" st.
Proof.
  intros H Hc Hb. unfold closeModal. rewrite H, Hc. simpl. rewrite Hb.
  reflexivity.
Qed.

(** On a modal without backdrop and with no opening timeline in the cache,
    [openModal] raises once it has marked the modal open. *)
Lemma openModal_raises st els :
  getModalEls (doc st) = Some els ->
  openTL st = None -> backdrop els = None ->
  openModal st
  = throw "TypeError" (set_doc (opened (handle (modal els)) (doc st)) st).
Proof.
  intros H Ho Hb. unfold openModal. rewrite H. simpl. rewrite Ho. simpl.
  rewrite Hb. reflexivity.
Qed.

Lemma focus_first_fields m st :
  doc (focus_first m st) = doc st /\
  openTL (focus_first m st) = openTL st /\
  closeTL (focus_first m st) = closeTL st /\
  builds (focus_first m st) = builds st /\
  gsap (focus_first m st) = gsap st.
Proof.
  unfold focus_first. destruct (querySelectorAll focusables m); repeat split.
Qed.

Lemma focus_first_rest m st :
  uncaught (focus_first m st) = uncaught st /\
  close_running (focus_first m st) = close_running st /\
  close_then (focus_first m st) = close_then st /\
  console (focus_first m st) = console st.
Proof.
  unfold focus_first. destruct (querySelectorAll focusables m); repeat split.
Qed.

(** [openModal] leaves the closing timeline's run and its callbacks alone;
    it raises nothing when the opening timeline is in the cache or can be
    built. *)
Lemma openModal_rest st :
  close_running (openModal st) = close_running st /\
  close_then (openModal st) = close_then st /\
  ((forall els, getModalEls (doc st) = Some els ->
      openTL st <> None \/ backdrop els <> None) ->
   uncaught (openModal st) = uncaught st).
Proof.
  unfold openModal. destruct (getModalEls (doc st)) as [els | ];
    [ | repeat split].
  simpl. destruct (openTL st) eqn:Ho; simpl; rewrite ?Ho.
  - match goal with |- context [focus_first ?m ?s] =>
      destruct (focus_first_rest m s) as (-> & -> & -> & _) end.
    repeat split.
  - destruct (backdrop els) eqn:Hb; simpl.
    + match goal with |- context [focus_first ?m ?s] =>
        destruct (focus_first_rest m s) as (-> & -> & -> & _) end.
      repeat split.
    + repeat split. intros Hr.
      destruct (Hr els eq_refl) as [Hn | Hn]; congruence.
Qed.

Lemma callbacks_doc l : forall st st',
  doc st = doc st' ->
  doc (fold_left close_callback l st) = doc (fold_left close_callback l st').
Proof.
  induction l as [ | m l IH]; intros st st' H; simpl; [exact H | ].
  apply IH. rewrite !close_callback_doc, H. reflexivity.
Qed.

Lemma onCloseComplete_doc st :
  close_running st = true ->
  doc (onCloseComplete st)
  = doc (fold_left close_callback (close_then st) st).
Proof.
  intros H. unfold onCloseComplete. rewrite H.
  apply callbacks_doc. reflexivity.
Qed.

Lemma getModalEls_modal_is d els :
  getModalEls d = Some els -> modal_is (handle (modal els)) d.
Proof.
  intros H. exists (modal els). split; [apply getModalEls_modal, H | reflexivity].
Qed.

Lemma modal_is_getModalEls h d :
  modal_is h d -> exists els, getModalEls d = Some els /\ handle (modal els) = h.
Proof.
  intros (m & Hq & Hh). unfold getModalEls. rewrite Hq.
  eexists. split; [reflexivity | exact Hh].
Qed.

(** ** The elements a query finds *)

Lemma has_class_add_other c c' e :
  String.eqb c c' = false -> has_class c (classList_add c' e) = has_class c e.
Proof.
  intros H. unfold classList_add, has_class; simpl.
  destruct (existsb (String.eqb c') (classes e)); [reflexivity | ].
  rewrite existsb_app; simpl. rewrite H. rewrite !orb_false_r. reflexivity.
Qed.

Lemma has_class_remove_other c c' e :
  String.eqb c c' = false ->
  has_class c (classList_remove c' e) = has_class c e.
Proof.
  intros H. unfold classList_remove, has_class; simpl.
  induction (classes e) as [ | x l IH]; simpl; [reflexivity | ].
  destruct (String.eqb c' x) eqn:Hx; simpl.
  - apply String.eqb_eq in Hx. subst x. rewrite H. exact IH.
  - rewrite IH. reflexivity.
Qed.

Lemma querySelector_update_class c t f m :
  keeps_class c f ->
  querySelector (ByClass c) (update t f m)
  = option_map (update t f) (querySelector (ByClass c) m).
Proof.
  intros H. unfold querySelector, update. rewrite descendants_tmap.
  apply find_map. intros a. rewrite elt_tmap. simpl.
  destruct (Nat.eqb (nid (elt a)) t); [apply H | reflexivity].
Qed.

Lemma modal_handles_update t f d :
  same_identity f ->
  keeps_class "modal-backdrop" f -> keeps_class "modal-content" f ->
  modal_handles (update t f d) = modal_handles d.
Proof.
  intros Hi Hb Hc. unfold modal_handles, getModalEls.
  rewrite doc_querySelector_update by exact Hi.
  destruct (doc_querySelector (ById "detailsModal") d) as [m | ];
    [ | reflexivity].
  simpl. rewrite handle_update by exact Hi.
  rewrite !querySelector_update_class by assumption.
  destruct (querySelector (ByClass "modal-backdrop") m) as [x | ],
           (querySelector (ByClass "modal-content") m) as [y | ]; simpl;
    rewrite ?handle_update by exact Hi; reflexivity.
Qed.

Lemma modal_handles_opened h d : modal_handles (opened h d) = modal_handles d.
Proof.
  unfold opened.
  rewrite modal_handles_update;
    [ | apply setAttribute_identity | intros e; reflexivity ..].
  apply modal_handles_update; [apply classList_add_identity | | ];
    intros e; apply has_class_add_other; reflexivity.
Qed.

Lemma modal_handles_closed h d : modal_handles (closed h d) = modal_handles d.
Proof.
  unfold closed.
  rewrite modal_handles_update;
    [ | apply setAttribute_identity | intros e; reflexivity ..].
  apply modal_handles_update; [apply classList_remove_identity | | ];
    intros e; apply has_class_remove_other; reflexivity.
Qed.

Lemma modal_handles_callbacks l : forall st,
  modal_handles (doc (fold_left close_callback l st)) = modal_handles (doc st).
Proof.
  induction l as [ | m l IH]; intros st; simpl; [reflexivity | ].
  rewrite IH, close_callback_doc. apply modal_handles_closed.
Qed.

Lemma write_style_identity css : same_identity (write_style css).
Proof. intros e. destruct css; repeat split. Qed.

Lemma write_style_classes css e : classes (write_style css e) = classes e.
Proof. destruct css; reflexivity. Qed.

Lemma modal_handles_styled h css d :
  modal_handles (update h (write_style css) d) = modal_handles d.
Proof.
  apply modal_handles_update; [apply write_style_identity | | ];
    intros e; unfold has_class; rewrite write_style_classes; reflexivity.
Qed.

Lemma onRender_doc st h css :
  doc (onRender st h css) = doc st \/
  doc (onRender st h css) = update h (write_style css) (doc st).
Proof.
  unfold onRender. destruct (existsb (Nat.eqb h) (engine_targets st));
    [right | left]; reflexivity.
Qed.

Lemma onRender_modal_handles st h css :
  modal_handles (doc (onRender st h css)) = modal_handles (doc st).
Proof.
  destruct (onRender_doc st h css) as [-> | ->];
    [reflexivity | apply modal_handles_styled].
Qed.

(** Whether the modal has its backdrop is read off the handles. *)
Lemma backdrop_of_handles d d' els els' :
  modal_handles d' = modal_handles d ->
  getModalEls d = Some els -> getModalEls d' = Some els' ->
  (backdrop els' = None <-> backdrop els = None).
Proof.
  unfold modal_handles. intros H He He'. rewrite He, He' in H.
  injection H as _ Hb _.
  destruct (backdrop els), (backdrop els'); try discriminate Hb;
    split; congruence.
Qed.

Lemma openModal_absent st :
  getModalEls (doc st) = None -> openModal st = console_warn "Modal not found" st.
Proof. intros H. unfold openModal. rewrite H. reflexivity. Qed.

Lemma openModal_modal_handles st :
  modal_handles (doc (openModal st)) = modal_handles (doc st).
Proof.
  destruct (getModalEls (doc st)) as [els | ] eqn:Hels.
  - rewrite (openModal_doc st els Hels). apply modal_handles_opened.
  - rewrite (openModal_absent st Hels). reflexivity.
Qed.

(** [openModal] with the opening timeline in the cache builds nothing. *)
Lemma openModal_when_cached st o :
  openTL st = Some o ->
  openTL (openModal st) = openTL st /\
  closeTL (openModal st) = closeTL st /\
  builds (openModal st) = builds st.
Proof.
  intros Ho. unfold openModal.
  destruct (getModalEls (doc st)) as [els | ]; [ | repeat split].
  simpl. rewrite Ho. simpl. rewrite Ho.
  match goal with |- context [focus_first ?m ?s] =>
    destruct (focus_first_fields m s) as (_ & -> & -> & -> & _) end.
  simpl. repeat split. exact Ho.
Qed.

(** After an [openModal] on a modal with its backdrop both timelines are in
    the cache. *)
Lemma openModal_fills st els :
  getModalEls (doc st) = Some els -> backdrop els <> None ->
  openTL st = None ->
  openTL (openModal st) <> None /\ closeTL (openModal st) <> None.
Proof.
  intros Hels Hb Ho. unfold openModal. rewrite Hels. simpl. rewrite Ho.
  simpl. destruct (backdrop els) eqn:Hbe; [ | exfalso; apply Hb; reflexivity].
  simpl.
  match goal with |- context [focus_first ?m ?s] =>
    destruct (focus_first_fields m s) as (_ & -> & -> & _) end.
  simpl. split; discriminate.
Qed.




(** C7 (as amended). With no [#detailsModal] in the document, [openModal]
    logs the warning ["Modal not found"] and does nothing else, and
    [closeModal] does nothing at all: it logs nothing.  Neither raises an
    exception or touches the document, the timelines or the focus. *)
Theorem modal_absent_requests st :
  getModalEls (doc st) = None ->
  openModal st = console_warn "Modal not found" st /\
  closeModal st = st /\
  uncaught (openModal st) = uncaught st /\
  doc (openModal st) = doc st /\
  openTL (openModal st) = openTL st /\
  closeTL (openModal st) = closeTL st.
Proof.
  intros H. unfold openModal, closeModal. rewrite H. repeat split.
Qed.

Lemma modal_absent_requests_witness :
  let st := initModal Samples.page_without_modal in
  console (openModal st) = ["Modal not found"] /\ closeModal st = st.
Proof.
  intros st.
  destruct (modal_absent_requests st eq_refl) as (Ho & Hc & _).
  rewrite Ho. split; [reflexivity | exact Hc].
Defined.

(** C7 as stated: it is not true that both requests are logged.
    On the page without the modal, a close request leaves the console
    empty. *)
Lemma closeModal_absent_not_logged :
  ~ (logged_and_ignored openModal /\ logged_and_ignored closeModal).
Proof.
  intros [_ H].
  destruct (H (initModal Samples.page_without_modal) eq_refl) as (msg & Hmsg).
  apply (f_equal console) in Hmsg. discriminate Hmsg.
Qed.





(** Without the modal a [focusin] changes nothing. *)
Lemma focusin_without_modal st t :
  getModalEls (doc st) = None -> onFocusIn st t = st.
Proof. intros H. unfold onFocusIn. rewrite H. reflexivity. Qed.


Lemma closest_none_action d t els :
  getModalEls d = Some els ->
  closest (ById "viewDetailsBtn") t d = None ->
  click_action d t
  = if is_some (closest (ByClass "modal-close-btn") t d) then DoClose
    else if same t (backdrop els) then DoClose else DoNothing.
Proof.
  intros H Hv. unfold click_action. rewrite Hv, H. reflexivity.
Qed.

(** C5 (as amended). With the modal in the document: a click whose target
    is the backdrop element itself closes the modal, provided the backdrop
    does not lie inside the open trigger [#viewDetailsBtn]; a click whose
    target is not the backdrop and has no [.modal-close-btn] among itself
    and its ancestors does not close it (it is either ignored or, inside the
    open trigger, opens the modal). *)
Theorem backdrop_click_exact st els :
  getModalEls (doc st) = Some els ->
  (forall b, backdrop els = Some b ->
     closest (ById "viewDetailsBtn") (handle b) (doc st) = None ->
     click_action (doc st) (handle b) = DoClose /\
     onDocumentClick st (handle b) = closeModal (preventDefault st)) /\
  (forall t, same t (backdrop els) = false ->
     closest (ByClass "modal-close-btn") t (doc st) = None ->
     click_action (doc st) t <> DoClose /\
     (onDocumentClick st t = st \/
      onDocumentClick st t = openModal (preventDefault st))).
Proof.
  intros H. split.
  - intros b Hb Hv.
    assert (Ha : click_action (doc st) (handle b) = DoClose).
    { rewrite (closest_none_action _ _ _ H Hv), Hb. simpl.
      rewrite Nat.eqb_refl.
      destruct (is_some _); reflexivity. }
    split; [exact Ha | ]. unfold onDocumentClick. rewrite Ha. reflexivity.
  - intros t Hs Hc.
    assert (Ha : click_action (doc st) t = DoOpen \/
                 click_action (doc st) t = DoNothing).
    { unfold click_action.
      destruct (is_some (closest (ById "viewDetailsBtn") t (doc st)));
        [left; reflexivity | ].
      rewrite H, Hc, Hs. right. reflexivity. }
    unfold onDocumentClick.
    destruct Ha as [-> | ->]; (split; [discriminate | ]);
      [right | left]; reflexivity.
Qed.

(** On the landing page: the backdrop (5) closes, the link in the content
    area (9) does not. *)
Lemma backdrop_click_exact_witness :
  let st := openModal (initModal Samples.page) in
  click_action (doc st) 5 = DoClose /\ click_action (doc st) 9 <> DoClose.
Proof.
  intros st.
  destruct (backdrop_click_exact st _ eq_refl) as (Hb & Hc).
  split.
  - exact (proj1 (Hb _ eq_refl eq_refl)).
  - exact (proj1 (Hc 9%nat eq_refl eq_refl)).
Defined.

(** C5 as stated fails in both halves.  On the landing page a
    click on the icon (8) inside the close button is a click below the
    backdrop on an element that is neither the backdrop nor a close button,
    and it closes the modal.  On a page whose open trigger wraps the modal,
    a click on the backdrop opens instead of closing. *)
Lemma backdrop_rule_literal_fails :
  ~ content_click_keeps /\ ~ backdrop_click_closes.
Proof.
  split.
  - intros H.
    apply (H Samples.page _ _ 8%nat _ eq_refl eq_refl eq_refl
             ltac:(discriminate) eq_refl eq_refl).
    reflexivity.
  - intros H.
    specialize (H Samples.page_modal_in_trigger _ _ eq_refl eq_refl).
    discriminate H.
Qed.

(** ** The timeline cache *)

(** The three cached values. *)
Lemma callbacks_cache l : forall st,
  openTL (fold_left close_callback l st) = openTL st /\
  closeTL (fold_left close_callback l st) = closeTL st /\
  builds (fold_left close_callback l st) = builds st.
Proof.
  induction l as [ | m l IH]; intros st; simpl; [repeat split | ].
  destruct (IH (close_callback st m)) as (-> & -> & ->). repeat split.
Qed.

Lemma onRender_cache st h css :
  openTL (onRender st h css) = openTL st /\
  closeTL (onRender st h css) = closeTL st /\
  builds (onRender st h css) = builds st.
Proof.
  unfold onRender. destruct (existsb (Nat.eqb h) (engine_targets st));
    repeat split.
Qed.








Lemma preventDefault_unbuilt st : unbuilt st -> unbuilt (preventDefault st).
Proof. intros H. exact H. Qed.





(** The elements a query finds are the same after every listener and every
    frame, as long as the page does not replace them. *)
Lemma step_modal_handles d st e :
  leaves_modal d e ->
  modal_handles (doc st) = modal_handles d ->
  modal_handles (doc (step st e)) = modal_handles d.
Proof.
  intros He H. destruct e as [t | k | t | | h css | d']; simpl in *.
  - unfold onDocumentClick. destruct (click_action (doc st) t).
    + rewrite openModal_modal_handles. exact H.
    + rewrite closeModal_doc. exact H.
    + exact H.
  - unfold onKeyDown. destruct (String.eqb k "Escape"); [ | exact H].
    destruct (getModalEls (doc st)) as [els | ]; [ | exact H].
    destruct (is_open (modal els)); [ | exact H].
    rewrite closeModal_doc. exact H.
  - unfold onFocusIn. destruct (getModalEls (doc st)) as [els | ]; [ | exact H].
    destruct (negb (is_open (modal els))); [exact H | ].
    destruct (negb (contains (modal els) t)); [ | exact H].
    destruct (focus_first_fields (modal els) st) as (-> & _). exact H.
  - unfold onCloseComplete. destruct (close_running st); [ | exact H].
    rewrite modal_handles_callbacks. exact H.
  - rewrite onRender_modal_handles. exact H.
  - exact He.
Qed.






(** Nothing rebuilds the timelines: after the page has swapped the modal,
    the cached timelines are still on the elements of the old one, while a
    query finds the new backdrop (15) and content (16). *)
Example timelines_stale_after_replacement :
  let st := run (initModal Samples.page)
              [Click 3; Mutate Samples.page_with_new_modal; Click 3] in
  built_on (Some 5%nat) (Some 6%nat) st /\
  modal_handles (doc st) = Some (14%nat, Some 15%nat, Some 16%nat).
Proof. repeat split. Qed.


End ModalFacts.

Module LightboxFacts.
Import Dom DomFacts Lightbox.

Lemma openLightbox_present st :
  doc_querySelector the_overlay (doc st) <> None -> openLightbox st = st.
Proof.
  intros H. unfold openLightbox.
  destruct (doc_querySelector the_overlay (doc st)); [reflexivity | congruence].
Qed.

Lemma openLightbox_absent st :
  doc_querySelector the_overlay (doc st) = None ->
  exists src alt,
    doc (openLightbox st)
    = body_appendChild (overlay (fresh st) src alt) (doc st) /\
    click_listeners (openLightbox st)
    = click_listeners st ++ [(backdrop (new_closure st), new_closure st);
                             (img (new_closure st), new_closure st)] /\
    keydown_once (openLightbox st) = keydown_once st ++ [new_closure st] /\
    running (openLightbox st)
    = running st ++ [InTL (backdrop (new_closure st)) (img (new_closure st))] /\
    fresh (openLightbox st) = (fresh st + 4)%nat.
Proof.
  intros H. unfold openLightbox. rewrite H.
  eexists. eexists. repeat split.
Qed.

(** Of the four elements of the overlay only its root carries the class
    [tric-lightbox]. *)
Lemma count_overlay h src alt : count the_overlay (overlay h src alt) = 1%nat.
Proof. reflexivity. Qed.

Lemma handle_overlay h src alt : handle (overlay h src alt) = h.
Proof. reflexivity. Qed.

Lemma closeLightbox_doc c st : doc (closeLightbox c st) = doc st.
Proof. reflexivity. Qed.

Lemma fold_closeLightbox l : forall st,
  doc (fold_left (fun s c => closeLightbox c s) l st) = doc st /\
  running (fold_left (fun s c => closeLightbox c s) l st)
  = running st ++ map OutTL l /\
  click_listeners (fold_left (fun s c => closeLightbox c s) l st)
  = click_listeners st /\
  keydown_once (fold_left (fun s c => closeLightbox c s) l st)
  = keydown_once st /\
  posterWrap (fold_left (fun s c => closeLightbox c s) l st) = posterWrap st.
Proof.
  induction l as [ | c l IH]; intros st; simpl.
  - rewrite app_nil_r. repeat split.
  - destruct (IH (closeLightbox c st)) as (-> & -> & -> & -> & ->).
    simpl. rewrite <- app_assoc. repeat split.
Qed.

Lemma openLightbox_overlays st :
  (overlays st <= 1)%nat -> (overlays (openLightbox st) <= 1)%nat.
Proof.
  intros H.
  destruct (doc_querySelector the_overlay (doc st)) as [m | ] eqn:Hq.
  - rewrite openLightbox_present by congruence. exact H.
  - destruct (openLightbox_absent st Hq) as (src & alt & Hd & _).
    unfold overlays. rewrite Hd, count_body_appendChild, count_overlay.
    apply doc_querySelector_none_count in Hq. rewrite Hq. lia.
Qed.

Lemma outTL_onComplete_overlays c st :
  (overlays (outTL_onComplete c st) <= overlays st)%nat.
Proof.
  unfold outTL_onComplete.
  destruct (parentNode (lb c) (doc st)) as [p | ] eqn:Hp; [ | lia].
  rewrite (removeChild_parent _ _ _ Hp).
  unfold overlays; simpl. apply count_detach_le.
Qed.

Lemma click_at_overlays st h :
  (overlays st <= 1)%nat -> (overlays (click_at st h) <= 1)%nat.
Proof.
  intros H. unfold click_at, overlays.
  match goal with |- context [fold_left _ ?l ?s] =>
    destruct (fold_closeLightbox l s) as (-> & _) end.
  destruct (Nat.eqb h (posterWrap st)); [ | exact H].
  apply (openLightbox_overlays (preventDefault st)). exact H.
Qed.

Lemma fold_invariant {A B} (P : A -> Prop) (f : A -> B -> A) l :
  (forall a b, P a -> P (f a b)) -> forall a, P a -> P (fold_left f l a).
Proof.
  intros H. induction l as [ | b l IH]; intros a Ha; simpl; [exact Ha | ].
  apply IH, H, Ha.
Qed.

Lemma step_overlays st e :
  (overlays st <= 1)%nat -> (overlays (step st e) <= 1)%nat.
Proof.
  intros H. destruct e as [t | k | i]; simpl.
  - apply (fold_invariant (fun s => (overlays s <= 1)%nat)); [ | exact H].
    intros a b. apply click_at_overlays.
  - apply (fold_invariant (fun s => (overlays s <= 1)%nat)); [ | exact H].
    intros a c Ha. unfold escClose.
    destruct (String.eqb k "Escape"); exact Ha.
  - destruct (nth_error (running st) i) as [[b im | c] | ]; try exact H.
    eapply Nat.le_trans; [apply outTL_onComplete_overlays | exact H].
Qed.

Lemma run_overlays es : forall st,
  (overlays st <= 1)%nat -> (overlays (run st es) <= 1)%nat.
Proof.
  induction es as [ | e es IH]; intros st H; simpl; [exact H | ].
  apply IH, step_overlays, H.
Qed.

(** C2. In every state: when the document has no [.tric-lightbox] element,
    [openLightbox] appends one subtree to [<body>], whose root is the only
    new element of that class, so the document then has exactly one; when
    the document has such an element, [openLightbox] changes nothing.  So
    over every sequence of clicks, key presses and timeline completions the
    document never has more than one overlay, if it started with at most
    one. *)
Theorem openLightbox_at_most_one st :
  (doc_querySelector the_overlay (doc st) = None ->
     exists src alt,
       doc (openLightbox st)
       = body_appendChild (overlay (fresh st) src alt) (doc st) /\
       children (doc (openLightbox st))
       = children (doc st) ++ [overlay (fresh st) src alt] /\
       has_class "tric-lightbox" (elt (overlay (fresh st) src alt)) = true /\
       overlays st = 0%nat /\ overlays (openLightbox st) = 1%nat) /\
  (doc_querySelector the_overlay (doc st) <> None ->
     openLightbox st = st /\ overlays (openLightbox st) = overlays st) /\
  (forall es, (overlays st <= 1)%nat -> (overlays (run st es) <= 1)%nat).
Proof.
  split; [ | split].
  - intros Hq. destruct (openLightbox_absent st Hq) as (src & alt & Hd & _).
    exists src, alt. split; [exact Hd | ].
    split; [rewrite Hd; apply children_body_appendChild | ].
    split; [reflexivity | ].
    apply doc_querySelector_none_count in Hq.
    split; [exact Hq | ].
    unfold overlays. rewrite Hd, count_body_appendChild, count_overlay.
    unfold overlays in Hq. fold the_overlay. rewrite Hq. reflexivity.
  - intros Hq. rewrite (openLightbox_present st Hq). split; reflexivity.
  - intros es. apply run_overlays.
Qed.

Lemma lightbox_start_init :
  initPosterClickToEnlarge Samples.page = Some Samples.lightbox_start.
Proof. reflexivity. Qed.

(** The landing page: the first click on the poster opens the overlay, the
    second changes nothing. *)
Lemma openLightbox_at_most_one_witness :
  let st := Samples.lightbox_start in
  overlays (openLightbox st) = 1%nat /\
  openLightbox (openLightbox st) = openLightbox st /\
  (overlays (run st [Click 2; Click 2; KeyDown "Escape"; Click 2]) <= 1)%nat.
Proof.
  intros st.
  destruct (openLightbox_at_most_one st) as (Hnew & _ & Hrun).
  destruct (Hnew eq_refl) as (src & alt & _ & _ & _ & _ & Hone).
  destruct (openLightbox_at_most_one (openLightbox st)) as (_ & Hagain & _).
  split; [exact Hone | ].
  split; [apply Hagain; discriminate | ].
  apply Hrun. apply Nat.le_0_l.
Defined.

(** ** Closing *)

(** The removal in [onComplete] is idempotent. *)
Lemma outTL_onComplete_attached c st p :
  parentNode (lb c) (doc st) = Some p ->
  outTL_onComplete c st = set_doc (detach (lb c) (doc st)) st.
Proof.
  intros Hp. unfold outTL_onComplete.
  rewrite Hp, (removeChild_parent _ _ _ Hp). reflexivity.
Qed.

Lemma outTL_onComplete_detached c st :
  parentNode (lb c) (doc st) = None -> outTL_onComplete c st = st.
Proof. intros Hp. unfold outTL_onComplete. rewrite Hp. reflexivity. Qed.

(** X5. The removal in the [onComplete] of the exit timeline is idempotent:
    for every closure and every state, running it a second time (as when
    several close triggers each started an exit timeline) changes nothing
    and does not raise, whether or not the overlay is still attached. *)
Lemma outTL_onComplete_idempotent c st :
  outTL_onComplete c (outTL_onComplete c st) = outTL_onComplete c st.
Proof.
  destruct (parentNode (lb c) (doc st)) as [p | ] eqn:Hp.
  - rewrite (outTL_onComplete_attached c st p Hp).
    apply outTL_onComplete_detached. simpl.
    apply parentNode_detach, (parentNode_not_root _ _ _ Hp).
  - rewrite (outTL_onComplete_detached c st Hp).
    apply outTL_onComplete_detached, Hp.
Qed.

(** *** The three triggers on a freshly opened overlay *)

Lemma fresh_ok_absent st k :
  fresh_ok st -> (fresh st <= k)%nat ->
  Forall (fun m => handle m <> k) (flatten (doc st)).
Proof.
  intros H Hk. revert H. unfold fresh_ok. apply Forall_impl.
  intros m Hm. lia.
Qed.

Lemma chain_overlay_backdrop h src alt :
  map handle (chain (h + 1) (overlay h src alt)) = [(h + 1)%nat; h].
Proof.
  unfold overlay. simpl.
  replace (Nat.eqb h (h + 1)) with false by (symmetry; apply Nat.eqb_neq; lia).
  rewrite Nat.eqb_refl. reflexivity.
Qed.

Lemma chain_overlay_img h src alt :
  map handle (chain (h + 3) (overlay h src alt))
  = [(h + 3)%nat; (h + 2)%nat; h].
Proof.
  unfold overlay. simpl.
  replace (Nat.eqb h (h + 3)) with false by (symmetry; apply Nat.eqb_neq; lia).
  replace (Nat.eqb (h + 1) (h + 3)) with false
    by (symmetry; apply Nat.eqb_neq; lia).
  replace (Nat.eqb (h + 2) (h + 3)) with false
    by (symmetry; apply Nat.eqb_neq; lia).
  rewrite Nat.eqb_refl. reflexivity.
Qed.

(** The path of a click on an element of the overlay ends at [<body>]. *)
Lemma chain_in_overlay st t src alt p :
  fresh_ok st -> (fresh st <= t)%nat ->
  map handle (chain t (overlay (fresh st) src alt)) = p -> p <> [] ->
  map handle
    (chain t (body_appendChild (overlay (fresh st) src alt) (doc st)))
  = p ++ [handle (doc st)].
Proof.
  intros Hf Ht Hp Hne.
  rewrite chain_body_appendChild by (apply fresh_ok_absent; assumption).
  destruct (chain t (overlay (fresh st) src alt)) as [ | x c] eqn:Hc.
  - simpl in Hp. congruence.
  - rewrite map_app, Hp. simpl.
    unfold handle. rewrite elt_body_appendChild. reflexivity.
Qed.

(** While an overlay is shown, the listeners of an element on the path of a
    click can only start exit timelines. *)
Lemma click_at_shown st x :
  doc_querySelector the_overlay (doc st) <> None ->
  doc (click_at st x) = doc st /\
  click_listeners (click_at st x) = click_listeners st /\
  running (click_at st x) = running st ++ map OutTL (listeners_on x st).
Proof.
  intros H. unfold click_at.
  match goal with |- context [fold_left _ ?l ?s] =>
    destruct (fold_closeLightbox l s) as (-> & -> & -> & _) end.
  destruct (Nat.eqb x (posterWrap st)); [ | repeat split].
  unfold onPosterWrapClick.
  rewrite (openLightbox_present (preventDefault st)) by exact H.
  repeat split.
Qed.

Lemma click_at_closing c st x :
  doc_querySelector the_overlay (doc st) <> None /\ closing c st ->
  doc_querySelector the_overlay (doc (click_at st x)) <> None /\
  closing c (click_at st x).
Proof.
  intros [H Hc]. destruct (click_at_shown st x H) as (Hd & _ & Hr).
  rewrite Hd. split; [exact H | ].
  unfold closing. rewrite Hr. apply in_or_app. left. exact Hc.
Qed.

Lemma clicks_doc l : forall st,
  doc_querySelector the_overlay (doc st) <> None ->
  doc (fold_left click_at l st) = doc st.
Proof.
  induction l as [ | x l IH]; intros st H; simpl; [reflexivity | ].
  destruct (click_at_shown st x H) as (Hd & _).
  rewrite IH by (rewrite Hd; exact H). exact Hd.
Qed.

(** A click whose path starts at an element that carries a listener for
    closure [c] starts the exit timeline of [c]. *)
Lemma click_path_closing c st x l :
  doc_querySelector the_overlay (doc st) <> None ->
  In (x, c) (click_listeners st) ->
  closing c (fold_left click_at (x :: l) st) /\
  doc (fold_left click_at (x :: l) st) = doc st.
Proof.
  intros H Hin. split; [ | apply clicks_doc, H].
  simpl.
  apply (fold_invariant
           (fun s => doc_querySelector the_overlay (doc s) <> None /\
                     closing c s)).
  - intros a b. apply click_at_closing.
  - destruct (click_at_shown st x H) as (Hd & _ & Hr).
    rewrite Hd. split; [exact H | ].
    unfold closing. rewrite Hr. apply in_or_app. right.
    apply in_map. unfold listeners_on.
    change c with (snd (x, c)). apply in_map.
    apply filter_In. split; [exact Hin | simpl; apply Nat.eqb_refl].
Qed.

Lemma escape_closing c st :
  In c (keydown_once st) ->
  closing c (step st (KeyDown "Escape")) /\
  doc (step st (KeyDown "Escape")) = doc st.
Proof.
  intros Hin. simpl.
  assert (H : forall l s,
            fold_left (fun s0 c0 => escClose "Escape" c0 s0) l s
            = fold_left (fun s0 c0 => closeLightbox c0 s0) l s).
  { induction l as [ | a l IH]; intros s; simpl; [reflexivity | apply IH]. }
  rewrite H.
  destruct (fold_closeLightbox (keydown_once st) (set_keydown_once [] st))
    as (Hd & Hr & _).
  split; [ | exact Hd].
  unfold closing. rewrite Hr. apply in_or_app. right. apply in_map, Hin.
Qed.

(** Each of the three triggers, on the state [openLightbox] has just left,
    starts the exit timeline of the new overlay and leaves the document as
    it is; when that timeline completes, the overlay is gone and the
    document is the one from before the lightbox was opened. *)
Theorem close_triggers_converge st :
  fresh_ok st ->
  doc_querySelector the_overlay (doc st) = None ->
  let c := new_closure st in
  let shown := openLightbox st in
  (forall e, In e [Click (backdrop c); Click (img c); KeyDown "Escape"] ->
     closing c (step shown e) /\ doc (step shown e) = doc shown) /\
  (forall st', doc st' = doc shown ->
     doc (outTL_onComplete c st') = doc st /\
     overlays (outTL_onComplete c st') = 0%nat).
Proof.
  intros Hf Hq c shown.
  destruct (openLightbox_absent st Hq) as (src & alt & Hd & Hcl & Hk & _).
  fold shown in Hd, Hcl, Hk. fold c in Hcl, Hk.
  assert (Hshown : doc_querySelector the_overlay (doc shown) <> None).
  { intros Hn. apply doc_querySelector_none_count in Hn.
    rewrite Hd, count_body_appendChild, count_overlay in Hn. lia. }
  split.
  - intros e [<- | [<- | [<- | []]]].
    + simpl. rewrite Hd.
      rewrite (chain_in_overlay st _ src alt [(fresh st + 1)%nat; fresh st] Hf);
        [ | lia | apply chain_overlay_backdrop | discriminate].
      rewrite <- Hd. simpl app.
      apply click_path_closing; [exact Hshown | ].
      rewrite Hcl. apply in_or_app. right. left. reflexivity.
    + simpl. rewrite Hd.
      rewrite (chain_in_overlay st _ src alt
                 [(fresh st + 3)%nat; (fresh st + 2)%nat; fresh st] Hf);
        [ | lia | apply chain_overlay_img | discriminate].
      rewrite <- Hd. simpl app.
      apply click_path_closing; [exact Hshown | ].
      rewrite Hcl. apply in_or_app. right. right. left. reflexivity.
    + apply escape_closing. rewrite Hk. apply in_or_app. right. left.
      reflexivity.
  - intros st' Hst'.
    assert (Hpath : map handle (chain (fresh st) (doc st'))
                    = [fresh st] ++ [handle (doc st)]).
    { rewrite Hst', Hd.
      apply (chain_in_overlay st (fresh st) src alt [fresh st] Hf);
        [lia | | discriminate].
      unfold overlay. simpl. rewrite Nat.eqb_refl. reflexivity. }
    assert (Hp : exists p, parentNode (lb c) (doc st') = Some p).
    { unfold parentNode. simpl lb.
      destruct (chain (fresh st) (doc st')) as [ | x [ | y l]];
        try discriminate Hpath.
      exists y. reflexivity. }
    destruct Hp as (p & Hp).
    rewrite (outTL_onComplete_attached c st' p Hp). simpl doc.
    assert (Hdoc : detach (fresh st) (doc st') = doc st).
    { rewrite Hst', Hd, detach_body_appendChild by apply handle_overlay.
      apply detach_absent, fresh_ok_absent; [exact Hf | lia]. }
    split; [exact Hdoc | ].
    unfold overlays. simpl doc. simpl lb. rewrite Hdoc.
    apply doc_querySelector_none_count, Hq.
Qed.

(** The handles stay fresh. *)
Lemma fresh_ok_init d st : initPosterClickToEnlarge d = Some st -> fresh_ok st.
Proof.
  unfold initPosterClickToEnlarge.
  destruct (doc_querySelector (ByClass "image-container") d); [ | discriminate].
  destruct (doc_querySelector (ById "posterImage") d); [ | discriminate].
  intros H. injection H as <-. unfold fresh_ok; simpl.
  apply Forall_forall. intros m Hm.
  assert (Hle := le_fold_max (handle m) (map handle (flatten d))
                   (in_map handle _ _ Hm)).
  unfold max_handle. lia.
Qed.

Lemma openLightbox_fresh_ok st : fresh_ok st -> fresh_ok (openLightbox st).
Proof.
  intros H.
  destruct (doc_querySelector the_overlay (doc st)) as [m | ] eqn:Hq.
  - rewrite openLightbox_present by congruence. exact H.
  - destruct (openLightbox_absent st Hq) as (src & alt & Hd & _ & _ & _ & Hfr).
    unfold fresh_ok. rewrite Hd, Hfr.
    apply (Forall_flatten_body_appendChild
             (fun h => (h < fresh st + 4)%nat)).
    + revert H. unfold fresh_ok. apply Forall_impl. intros a Ha. lia.
    + unfold overlay. simpl.
      repeat (apply Forall_cons; [unfold handle; simpl; lia | ]).
      apply Forall_nil.
Qed.

Lemma outTL_onComplete_fresh_ok c st :
  fresh_ok st -> fresh_ok (outTL_onComplete c st).
Proof.
  intros H. unfold outTL_onComplete.
  destruct (parentNode (lb c) (doc st)) as [p | ] eqn:Hp; [ | exact H].
  rewrite (removeChild_parent _ _ _ Hp). unfold fresh_ok; simpl.
  apply (Forall_flatten_detach (fun h => (h < fresh st)%nat)), H.
Qed.

Lemma fold_closeLightbox_fresh_ok l : forall st,
  fresh_ok st -> fresh_ok (fold_left (fun s c => closeLightbox c s) l st).
Proof.
  induction l as [ | c l IH]; intros st H; simpl; [exact H | ].
  apply IH. exact H.
Qed.

Lemma step_fresh_ok st e : fresh_ok st -> fresh_ok (step st e).
Proof.
  intros H. destruct e as [t | k | i]; simpl.
  - apply (fold_invariant fresh_ok); [ | exact H].
    intros a x Ha. unfold click_at.
    apply fold_closeLightbox_fresh_ok.
    destruct (Nat.eqb x (posterWrap a)); [ | exact Ha].
    apply (openLightbox_fresh_ok (preventDefault a)). exact Ha.
  - apply (fold_invariant fresh_ok); [ | exact H].
    intros a c Ha. unfold escClose.
    destruct (String.eqb k "Escape"); exact Ha.
  - destruct (nth_error (running st) i) as [[b im | c] | ]; try exact H.
    apply outTL_onComplete_fresh_ok. exact H.
Qed.

Lemma run_fresh_ok es : forall st, fresh_ok st -> fresh_ok (run st es).
Proof.
  induction es as [ | e es IH]; intros st H; simpl; [exact H | ].
  apply IH, step_fresh_ok, H.
Qed.

(** X6. In every state the feature can reach on a page, with no overlay in
    the document: on the state [openLightbox] leaves, each of a click on the
    backdrop, a click on the image and an Escape key press starts the exit
    timeline of the new overlay and leaves the document as it is; and when
    that timeline completes the document is exactly the one from before the
    lightbox was opened, with no overlay in it. *)
Corollary close_triggers_converge_reachable d st0 es :
  initPosterClickToEnlarge d = Some st0 ->
  let st := run st0 es in
  doc_querySelector the_overlay (doc st) = None ->
  let c := new_closure st in
  let shown := openLightbox st in
  (forall e, In e [Click (backdrop c); Click (img c); KeyDown "Escape"] ->
     closing c (step shown e) /\ doc (step shown e) = doc shown) /\
  (forall st', doc st' = doc shown ->
     doc (outTL_onComplete c st') = doc st /\
     overlays (outTL_onComplete c st') = 0%nat).
Proof.
  intros H0 st Hq.
  apply close_triggers_converge; [ | exact Hq].
  apply run_fresh_ok, (fresh_ok_init d), H0.
Qed.

(** X7. In every state, a key other than Escape removes every [keydown]
    listener of the feature and does nothing else; the Escape that follows
    finds no listener and changes nothing. *)
Lemma escape_lost_after_other_key st k :
  String.eqb k "Escape" = false ->
  step st (KeyDown k) = set_keydown_once [] st /\
  step (step st (KeyDown k)) (KeyDown "Escape") = set_keydown_once [] st.
Proof.
  intros Hk.
  assert (H : step st (KeyDown k) = set_keydown_once [] st).
  { simpl. generalize (set_keydown_once [] st).
    induction (keydown_once st) as [ | c l IH]; intros s; simpl;
      [reflexivity | ].
    unfold escClose at 2. rewrite Hk. apply IH. }
  split; [exact H | ]. rewrite H. reflexivity.
Qed.

(** C3. The landing page with the overlay open.  An Escape that is the
    first key pressed starts the exit timeline, and its completion leaves no
    overlay.  After any other key, here Shift, Escape starts nothing: no
    timeline is added, and the overlay stays in the document whatever
    completes. *)
Theorem escape_after_other_key_keeps_overlay :
  let shown := run Samples.lightbox_start [Click 2] in
  overlays shown = 1%nat /\
  overlays (run shown [KeyDown "Escape"; Complete 1]) = 0%nat /\
  running (run shown [KeyDown "Shift"; KeyDown "Escape"]) = running shown /\
  overlays (run shown [KeyDown "Shift"; KeyDown "Escape"; Complete 0])
  = 1%nat.
Proof. repeat split. Qed.

End LightboxFacts.

Module ButtonsFacts.
Import Dom Buttons Notions.

Lemma buttons_run_app a b st : run st (a ++ b) = run (run st a) b.
Proof. apply fold_left_app. Qed.

Lemma gsap_to_bounded h v dur st :
  dur <= 280 -> bounded st -> bounded (gsap_to h v dur st).
Proof.
  intros Hd H. unfold bounded, gsap_to; simpl.
  apply Forall_app. split; [exact H | ].
  constructor; [simpl; lia | constructor].
Qed.

Lemma tick_bounded dt mid st : bounded st -> bounded (tick dt mid st).
Proof.
  intros H. unfold bounded, tick; simpl.
  apply (incl_Forall (incl_filter _ _)).
  revert H. unfold bounded. apply Forall_impl. intros tw Htw. lia.
Qed.

Lemma step_bounded st e : bounded st -> bounded (step st e).
Proof.
  intros H. destruct e as [h | h | h | h | dt mid]; simpl;
    try (destruct (listening h st); [ | exact H];
         apply gsap_to_bounded; [lia | exact H]).
  apply tick_bounded, H.
Qed.

Lemma run_bounded es : forall st, bounded st -> bounded (run st es).
Proof.
  induction es as [ | e es IH]; intros st H; simpl; [exact H | ].
  apply IH, step_bounded, H.
Qed.

Lemma step_buttons st e : buttons (step st e) = buttons st.
Proof.
  destruct e as [h | h | h | h | dt mid]; simpl;
    try (destruct (listening h st); reflexivity).
  reflexivity.
Qed.

Lemma run_buttons es : forall st, buttons (run st es) = buttons st.
Proof.
  induction es as [ | e es IH]; intros st; simpl; [reflexivity | ].
  rewrite IH. apply step_buttons.
Qed.

Lemma listening_init d css n :
  In n (doc_querySelectorAll (ByClass "btn") d) ->
  listening (handle n) (initButtonInteractions d css) = true.
Proof.
  intros H. unfold listening, initButtonInteractions; simpl.
  apply existsb_exists. exists (handle n).
  split; [apply in_map, H | apply Nat.eqb_refl].
Qed.

Lemma listening_run d css n es :
  In n (doc_querySelectorAll (ByClass "btn") d) ->
  listening (handle n) (run (initButtonInteractions d css) es) = true.
Proof.
  intros H. unfold listening. rewrite run_buttons.
  apply (listening_init d css n H).
Qed.

(** ** Tweens that leave an aspect alone *)

Section Quiet.
Context {A : Type} (view : visual -> A) (h : nat).

Lemma render_quiet now mid l tw :
  quiet view h tw -> view (render now mid l tw h) = view (l h).
Proof.
  intros H. unfold render.
  destruct (ends tw <=? now); unfold finish, progress;
    (destruct (Nat.eqb h (target tw)) eqn:Ht; [ | reflexivity]);
    apply Nat.eqb_eq in Ht; symmetry in Ht;
    destruct (H Ht (l h)) as [H1 H2]; [exact H1 | apply H2].
Qed.

Lemma fold_render_quiet now mid ts : forall l,
  Forall (quiet view h) ts ->
  view (fold_left (render now mid) ts l h) = view (l h).
Proof.
  induction ts as [ | tw ts IH]; intros l H; simpl; [reflexivity | ].
  inversion H as [ | a b Hq Hts]; subst.
  rewrite (IH _ Hts). apply render_quiet, Hq.
Qed.

Lemma tick_quiet dt mid st :
  Forall (quiet view h) (tweens st) ->
  view (look (tick dt mid st) h) = view (look st h) /\
  Forall (quiet view h) (tweens (tick dt mid st)).
Proof.
  intros H. unfold tick; simpl. split.
  - apply fold_render_quiet, H.
  - apply (incl_Forall (incl_filter _ _)), H.
Qed.

Lemma new_tween_quiet h' v dur c :
  (h' = h -> keeps view v) ->
  quiet view h {| target := h'; goal := v; ends := c + dur |}.
Proof. intros Hv Ht. simpl in *. apply Hv, Ht. Qed.

Lemma listener_quiet h' v dur st :
  (existsb (Nat.eqb h') (buttons st) = true -> h' = h -> keeps view v) ->
  Forall (quiet view h) (tweens st) ->
  view (look (if listening h' st then gsap_to h' v dur st else st) h)
  = view (look st h) /\
  Forall (quiet view h)
    (tweens (if listening h' st then gsap_to h' v dur st else st)).
Proof.
  intros Hc H. unfold listening.
  destruct (existsb (Nat.eqb h') (buttons st)).
  - split; [reflexivity | ]. unfold gsap_to; simpl.
    apply Forall_app. split; [exact H | ].
    constructor; [ | constructor].
    apply new_tween_quiet, Hc. reflexivity.
  - split; [reflexivity | exact H].
Qed.

Lemma step_quiet st e :
  calm view h (buttons st) e ->
  Forall (quiet view h) (tweens st) ->
  view (look (step st e) h) = view (look st h) /\
  Forall (quiet view h) (tweens (step st e)).
Proof.
  intros Hc H.
  destruct e as [h' | h' | h' | h' | dt mid]; simpl;
    unfold onMouseEnter, onMouseLeave, onFocus, onBlur.
  - apply listener_quiet; assumption.
  - apply listener_quiet; assumption.
  - apply listener_quiet; assumption.
  - apply listener_quiet; assumption.
  - apply tick_quiet, H.
Qed.

Lemma run_quiet es : forall st,
  Forall (calm view h (buttons st)) es ->
  Forall (quiet view h) (tweens st) ->
  view (look (run st es) h) = view (look st h).
Proof.
  induction es as [ | e es IH]; intros st Hes H; simpl; [reflexivity | ].
  inversion Hes as [ | a b He Hes']; subst.
  destruct (step_quiet st e He H) as (Hv & Ht).
  rewrite IH; [exact Hv | rewrite step_buttons; exact Hes' | exact Ht].
Qed.

(** ** The tween that decides an aspect *)

Variables (x : tween) (v : A).
Hypothesis x_target : target x = h.
Hypothesis x_goal : forall s, view (reach (goal x) s) = v.

Lemma listener_driver h' v' dur st :
  (existsb (Nat.eqb h') (buttons st) = true -> h' = h -> keeps view v') ->
  last_driver view h x st \/ settled view h v st ->
  last_driver view h x (if listening h' st then gsap_to h' v' dur st else st)
  \/ settled view h v (if listening h' st then gsap_to h' v' dur st else st).
Proof.
  intros Hc H. unfold listening.
  destruct (existsb (Nat.eqb h') (buttons st)); [ | exact H].
  assert (Hq : quiet view h {| target := h'; goal := v';
                               ends := clock st + dur |})
    by (apply new_tween_quiet, Hc; reflexivity).
  destruct H as [(Hck & pre & post & Ht & Hpre & Hpost) | (Ht & Hl)].
  - left. split; [exact Hck | ].
    exists pre, (post ++ [{| target := h'; goal := v';
                             ends := clock st + dur |}]).
    split; [ | split].
    + unfold gsap_to; simpl. rewrite Ht, <- app_assoc. reflexivity.
    + exact Hpre.
    + apply Forall_app. split; [exact Hpost | ].
      constructor; [exact Hq | constructor].
  - right. split; [ | exact Hl].
    unfold gsap_to; simpl. apply Forall_app. split; [exact Ht | ].
    constructor; [exact Hq | constructor].
Qed.

Lemma tick_driver dt mid st :
  last_driver view h x st \/ settled view h v st ->
  last_driver view h x (tick dt mid st) \/ settled view h v (tick dt mid st).
Proof.
  intros [(Hck & pre & post & Ht & Hpre & Hpost) | (Ht & Hl)].
  - set (now := clock st + Z.max 0 dt).
    destruct (ends x <=? now) eqn:Hx.
    + right. split.
      * unfold tick; simpl. fold now. rewrite Ht, filter_app.
        cbn [filter]. rewrite Hx. cbn [negb].
        apply Z.leb_le in Hx.
        apply Forall_app. split.
        -- apply Forall_forall. intros tw Htw.
           apply filter_In in Htw. destruct Htw as [Hin Hal].
           apply negb_true_iff, Z.leb_gt in Hal.
           rewrite Forall_forall in Hpre.
           destruct (Hpre tw Hin) as [Hq | Hle]; [exact Hq | lia].
        -- apply (incl_Forall (incl_filter _ _)). exact Hpost.
      * unfold tick; simpl. fold now. rewrite Ht, fold_left_app.
        cbn [fold_left]. rewrite (fold_render_quiet _ _ _ _ Hpost).
        unfold render. rewrite Hx.
        unfold finish. rewrite x_target, Nat.eqb_refl. apply x_goal.
    + left. apply Z.leb_gt in Hx. split; [unfold tick; simpl; exact Hx | ].
      exists (filter (fun tw => negb (ends tw <=? now)) pre),
             (filter (fun tw => negb (ends tw <=? now)) post).
      split; [ | split].
      * unfold tick; simpl. fold now. rewrite Ht, filter_app. simpl.
        apply Z.leb_gt in Hx. rewrite Hx. reflexivity.
      * apply (incl_Forall (incl_filter _ _)), Hpre.
      * apply (incl_Forall (incl_filter _ _)), Hpost.
  - right. destruct (tick_quiet dt mid st Ht) as (Hv & Ht').
    split; [exact Ht' | rewrite Hv; exact Hl].
Qed.

Lemma step_driver st e :
  calm view h (buttons st) e ->
  last_driver view h x st \/ settled view h v st ->
  last_driver view h x (step st e) \/ settled view h v (step st e).
Proof.
  intros Hc H.
  destruct e as [h' | h' | h' | h' | dt mid]; simpl;
    unfold onMouseEnter, onMouseLeave, onFocus, onBlur.
  - apply listener_driver; assumption.
  - apply listener_driver; assumption.
  - apply listener_driver; assumption.
  - apply listener_driver; assumption.
  - apply tick_driver, H.
Qed.

Lemma run_driver es : forall st,
  Forall (calm view h (buttons st)) es ->
  last_driver view h x st \/ settled view h v st ->
  last_driver view h x (run st es) \/ settled view h v (run st es).
Proof.
  induction es as [ | e es IH]; intros st Hes H; simpl; [exact H | ].
  apply Forall_cons_iff in Hes. destruct Hes as [He Hes'].
  apply IH; [rewrite step_buttons; exact Hes' | ].
  apply step_driver; assumption.
Qed.

(** Once the clock has reached the end of the deciding tween, the aspect
    has the value that tween ends on. *)
Lemma driver_settles st es :
  last_driver view h x st ->
  Forall (calm view h (buttons st)) es ->
  ends x <= clock (run st es) ->
  view (look (run st es) h) = v.
Proof.
  intros Hd Hes Hck.
  destruct (run_driver es st Hes (or_introl Hd)) as [(Hlt & _) | (_ & Hv)];
    [lia | exact Hv].
Qed.

End Quiet.

Lemma keeps_shadow_lift : keeps boxShadow lift.
Proof. intros s. split; [reflexivity | intros m; reflexivity]. Qed.

Lemma keeps_shadow_rest : keeps boxShadow rest.
Proof. intros s. split; [reflexivity | intros m; reflexivity]. Qed.

Lemma keeps_transform_glow : keeps transform glow.
Proof. intros s. split; [reflexivity | intros m; reflexivity]. Qed.

Lemma keeps_transform_no_glow : keeps transform no_glow.
Proof. intros s. split; [reflexivity | intros m; reflexivity]. Qed.

(** Events that start nothing on the transform, on the shadow, or on the
    element at all. *)
Lemma calm_without_pointer h bs es :
  forallb (fun e => negb (is_pointer e && aimed_at h e)) es = true ->
  Forall (calm transform h bs) es.
Proof.
  intros Hes. apply Forall_forall. intros e He.
  rewrite forallb_forall in Hes. specialize (Hes e He).
  destruct e as [h' | h' | h' | h' | dt mid]; simpl in *; try exact I;
    intros _ Heq; try apply keeps_transform_glow;
    try apply keeps_transform_no_glow;
    subst h'; unfold aimed_at in Hes; simpl in Hes;
    rewrite Nat.eqb_refl in Hes; discriminate Hes.
Qed.

Lemma calm_without_focus h bs es :
  forallb (fun e => negb (is_focus e && aimed_at h e)) es = true ->
  Forall (calm boxShadow h bs) es.
Proof.
  intros Hes. apply Forall_forall. intros e He.
  rewrite forallb_forall in Hes. specialize (Hes e He).
  destruct e as [h' | h' | h' | h' | dt mid]; simpl in *; try exact I;
    intros _ Heq; try apply keeps_shadow_lift; try apply keeps_shadow_rest;
    subst h'; unfold aimed_at in Hes; simpl in Hes;
    rewrite Nat.eqb_refl in Hes; discriminate Hes.
Qed.

Lemma calm_not_aimed h bs es :
  forallb (fun e => negb (aimed_at h e)) es = true ->
  Forall (calm (fun s => s) h bs) es.
Proof.
  intros Hes. apply Forall_forall. intros e He.
  rewrite forallb_forall in Hes. specialize (Hes e He).
  destruct e as [h' | h' | h' | h' | dt mid]; simpl in *; try exact I;
    intros _ ->; unfold aimed_at in Hes; simpl in Hes;
    rewrite Nat.eqb_refl in Hes; discriminate Hes.
Qed.

(** A pointer-leave makes the tween that decides the transform. *)
Lemma leave_is_last_driver h st :
  bounded st ->
  last_driver transform h
    {| target := h; goal := rest; ends := clock st + 280 |}
    (onMouseLeave h st).
Proof.
  intros Hb. split; [unfold onMouseLeave, gsap_to; simpl; lia | ].
  exists (tweens st), []. split; [reflexivity | ].
  split; [ | constructor].
  revert Hb. unfold bounded. apply Forall_impl.
  intros tw Htw. right. simpl. exact Htw.
Qed.

(** A pointer-leave on a button with listeners, and then a frame no earlier
    than the end of its tween: the button is at rest, whatever else has
    happened apart from pointer events on that button. *)
Lemma leave_settles h st es :
  listening h st = true -> bounded st ->
  forallb (fun e => negb (is_pointer e && aimed_at h e)) es = true ->
  clock st + 280 <= clock (run st (MouseLeave h :: es)) ->
  transform (look (run st (MouseLeave h :: es)) h) = (0%Q, 1%Q).
Proof.
  intros Hl Hb Hes Hck. simpl in *. rewrite Hl in *.
  apply (driver_settles transform h
           {| target := h; goal := rest; ends := clock st + 280 |}
           (0%Q, 1%Q) eq_refl (fun s => eq_refl)).
  - apply leave_is_last_driver, Hb.
  - apply calm_without_pointer, Hes.
  - exact Hck.
Qed.

(** C8 (as amended). For every element [n] that carried the class [btn]
    when the listeners were attached, and after any history of pointer
    events, focus events and frames: a pointer-enter, whatever follows it,
    and then a pointer-leave bring translate-y to 0 and scale to 1, the end
    values of the leave tween, by the first frame that the engine renders
    280 ms or more (on its clock) after the pointer-leave, provided no
    further pointer event reaches the button in the meantime; so a button
    that was at rest before the pointer-enter has its translate-y and
    scale back. *)
Theorem hover_round_trip d css n es gap es' :
  In n (doc_querySelectorAll (ByClass "btn") d) ->
  let before := run (initButtonInteractions d css) es in
  let hovered := run before (MouseEnter (handle n) :: gap) in
  let after := run hovered (MouseLeave (handle n) :: es') in
  forallb (fun e => negb (is_pointer e && aimed_at (handle n) e)) es' = true ->
  clock hovered + 280 <= clock after ->
  (y (look after (handle n)) = 0%Q /\ scale (look after (handle n)) = 1%Q) /\
  (at_rest (look before (handle n)) ->
     y (look after (handle n)) = y (look before (handle n)) /\
     scale (look after (handle n)) = scale (look before (handle n))).
Proof.
  intros Hn before hovered after Hes Hck.
  assert (Hb : bounded hovered).
  { unfold hovered, before. apply run_bounded, run_bounded. constructor. }
  assert (Hl : listening (handle n) hovered = true).
  { unfold hovered, before. rewrite <- buttons_run_app.
    apply listening_run, Hn. }
  pose proof (leave_settles (handle n) hovered es' Hl Hb Hes Hck) as H.
  fold after in H. unfold transform in H. injection H as Hy Hs.
  split; [split; assumption | ].
  intros (Hy0 & Hs0). rewrite Hy, Hs, Hy0, Hs0. split; reflexivity.
Qed.

(** The details button (3) of the landing page: focused, then hovered for
    100 ms, then left; the frames come 50 ms and 100 ms apart, the last one
    300 ms after the pointer-leave. *)
Lemma hover_round_trip_witness :
  let before :=
    run (initButtonInteractions Samples.page Samples.plain_css)
      [Focus 3; Frame 50 Samples.halfway] in
  let after :=
    run before [MouseEnter 3; Frame 100 Samples.halfway; MouseLeave 3;
                Frame 300 Samples.halfway] in
  y (look after 3) = y (look before 3) /\
  scale (look after 3) = scale (look before 3).
Proof.
  intros before after.
  assert (Hin : In Samples.details_button
                  (doc_querySelectorAll (ByClass "btn") Samples.page))
    by (left; reflexivity).
  destruct (hover_round_trip Samples.page Samples.plain_css
              Samples.details_button [Focus 3; Frame 50 Samples.halfway]
              [Frame 100 Samples.halfway] [Frame 300 Samples.halfway]
              Hin eq_refl ltac:(simpl; lia))
    as (_ & Hrest).
  apply Hrest. split; reflexivity.
Defined.

(** C8 as stated fails: a button that the page styles with a scale of 1.1
    ends at scale 1, the end value of the leave tween, not at the scale it
    had before the pointer-enter. *)
Lemma hover_round_trip_literal_fails : ~ hover_restores_original.
Proof.
  intros H.
  assert (Hin : In Samples.details_button
                  (doc_querySelectorAll (ByClass "btn") Samples.page))
    by (left; reflexivity).
  specialize (H Samples.page Samples.enlarged_css Samples.details_button
                280 Samples.halfway Hin ltac:(lia)).
  discriminate H.
Qed.

End ButtonsFacts.

(* ================================================================== *)
(** * Part III: further properties of the code                          *)
(* ================================================================== *)

Module ImageLoadCoverage.
Import ImageLoad ImageLoadFacts.

(** The two shapes a run of the helper can be in. *)
Lemma run_shape img timeout now es :
  let w := run (waitForImageLoad img timeout now) es in
  (resolved w = 1%nat /\ load_listener w = false /\
   error_listener w = false /\ timer w = None) \/
  waiting (due now (timeout_ms timeout)) w.
Proof.
  intros w. subst w.
  destruct (waitForImageLoad_shape img timeout now) as [[Hi _] | Hw].
  - left. destruct (run_idle es _ Hi) as (Hl & He & Ht & Hr).
    repeat split; assumption.
  - destruct (run_waiting _ es _ Hw) as [[Hw' _] | (_ & Hl & He & Ht & Hr)].
    + right. exact Hw'.
    + left. repeat split; assumption.
Qed.

(** X1. Whatever the image and the events: either the promise is resolved
    and nothing of the helper is left behind (both listeners detached, the
    timer cleared), or it is pending and everything is still in place
    (both listeners attached, the timer armed for [now + timeout]). *)
Theorem waitForImageLoad_tears_down img timeout now es :
  let w := run (waitForImageLoad img timeout now) es in
  (resolved w = 1%nat /\ load_listener w = false /\
   error_listener w = false /\ timer w = None) \/
  (resolved w = 0%nat /\ load_listener w = true /\
   error_listener w = true /\
   timer w = Some (due now (timeout_ms timeout))).
Proof.
  intros w. destruct (run_shape img timeout now es) as [H | H].
  - left. exact H.
  - right. destruct H as (_ & Hl & He & Ht & Hr & _).
    repeat split; assumption.
Qed.

End ImageLoadCoverage.

Module PreloaderFacts.
Import Dom Preloader.

Lemma idle_or_done_resolved w :
  ImageLoad.idle w \/ ImageLoad.done w -> ImageLoad.resolved w = 1%nat.
Proof. intros [(_ & _ & _ & H) | (_ & _ & _ & _ & H)]; exact H. Qed.

Lemma initPreloader_inv d img now :
  settled_or_waiting (ImageLoad.due now 1800) (initPreloader d img now).
Proof.
  unfold initPreloader.
  set (poster := option_map _ _).
  destruct (ImageLoadFacts.waitForImageLoad_shape poster (Some 1800) now)
    as [[Hi _] | Hw].
  - assert (Hr := idle_or_done_resolved _ (or_introl Hi)).
    unfold react, ImageLoad.pending; simpl. rewrite Hr. simpl.
    split; [reflexivity | ]. split; [discriminate | ].
    left. repeat split; try assumption. left. exact Hi.
  - assert (Hr : ImageLoad.resolved
                   (ImageLoad.waitForImageLoad poster (Some 1800) now) = 0%nat)
      by apply Hw.
    unfold react, ImageLoad.pending; simpl. rewrite Hr. simpl.
    split; [reflexivity | ]. split; [discriminate | ].
    right. repeat split; try apply Hw.
Qed.

Lemma preloader_step_inv dl st e :
  settled_or_waiting dl st -> settled_or_waiting dl (step st e).
Proof.
  intros (Htl & Hh & H). destruct e as [ie | ]; simpl.
  - destruct H as [(Ht & Hp & Hr & Hw) | (Ht & Hp & Hw)].
    + assert (Hw' : ImageLoad.idle (ImageLoad.step (wait st) ie) \/
                    ImageLoad.done (ImageLoad.step (wait st) ie)).
      { destruct Hw as [Hi | Hd];
          [left; apply ImageLoadFacts.step_idle, Hi
          | right; apply ImageLoadFacts.step_done, Hd]. }
      unfold react; simpl. rewrite Ht. simpl.
      split; [exact Htl | ]. split; [exact Hh | ].
      left. repeat split; try assumption.
      apply idle_or_done_resolved, Hw'.
    + destruct (ImageLoadFacts.step_waiting dl (wait st) ie Hw)
        as [[Hw' _] | Hd].
      * assert (Hr : ImageLoad.resolved (ImageLoad.step (wait st) ie) = 0%nat)
          by apply Hw'.
        unfold react, ImageLoad.pending; simpl. rewrite Ht, Hr. simpl.
        split; [exact Htl | ]. split; [exact Hh | ].
        right. repeat split; try assumption; apply Hw'.
      * assert (Hr := idle_or_done_resolved _ (or_intror Hd)).
        unfold react, ImageLoad.pending; simpl. rewrite Ht, Hr. simpl.
        split; [exact Htl | ]. split; [exact Hh | ].
        left. rewrite Hp. repeat split; try assumption. right. exact Hd.
  - unfold fade_onComplete. destruct (preloader st) eqn:Hpre.
    + split; [exact Htl | ]. split; [simpl; discriminate | ].
      exact H.
    + split; [exact Htl | ]. split; [rewrite Hpre; exact Hh | exact H].
Qed.

Lemma preloader_run_inv dl es : forall st,
  settled_or_waiting dl st -> settled_or_waiting dl (run st es).
Proof.
  induction es as [ | e es IH]; intros st H; simpl; [exact H | ].
  apply IH, preloader_step_inv, H.
Qed.

Lemma react_preloader st : preloader (react st) = preloader st.
Proof. unfold react. destruct (_ && _); reflexivity. Qed.

Lemma run_preloader es : forall st, preloader (run st es) = preloader st.
Proof.
  induction es as [ | e es IH]; intros st; simpl; [reflexivity | ].
  rewrite IH. destruct e as [ie | ]; simpl.
  - rewrite react_preloader. reflexivity.
  - unfold fade_onComplete. destruct (preloader st) eqn:E; simpl; congruence.
Qed.

(** X2. On every page, for every load state of the poster and every
    sequence of image events, time steps and completions of the fade: the
    main timeline has been played exactly once, whatever the image does;
    the poster tween has been played exactly as often as the promise of
    [waitForImageLoad] has been resolved, never more than once, never while
    the promise is pending, and certainly once 1800 ms have passed; on a
    page without [#posterImage] it is played at once; and the preloader is
    only ever hidden if there is one. *)
Theorem poster_entrance_once d img now es :
  let st := run (initPreloader d img now) es in
  tl_plays st = 1%nat /\
  posterTween_plays st = ImageLoad.resolved (wait st) /\
  (posterTween_plays st <= 1)%nat /\
  (now + 1800 < ImageLoad.clock (wait st) -> posterTween_plays st = 1%nat) /\
  (doc_querySelector (ById "posterImage") d = None ->
     posterTween_plays (initPreloader d img now) = 1%nat) /\
  (preloader_hidden st = true ->
     doc_querySelector (ByClass "preloader") d <> None).
Proof.
  intros st.
  destruct (preloader_run_inv _ es _ (initPreloader_inv d img now)) as (Htl & Hh & H).
  fold st in Htl, Hh, H.
  split; [exact Htl | ].
  split; [destruct H as [(_ & -> & -> & _) | (_ & -> & Hw)];
          [reflexivity | symmetry; apply Hw] | ].
  split; [destruct H as [(_ & -> & _) | (_ & -> & _)]; lia | ].
  split; [ | split].
  - intros Hlate. destruct H as [(_ & Hp & _) | (_ & _ & Hw)]; [exact Hp | ].
    destruct Hw as (_ & _ & _ & _ & _ & Hc).
    unfold ImageLoad.due in Hc.
    change (ImageLoad.toInt32 1800) with 1800 in Hc. lia.
  - intros Hq. unfold initPreloader. rewrite Hq. reflexivity.
  - intros Hhid Hq. apply (Hh Hhid).
    unfold st. rewrite run_preloader. unfold initPreloader.
    rewrite react_preloader. simpl. rewrite Hq. reflexivity.
Qed.

(** A poster that loads after 700 ms on the landing page. *)
Lemma poster_entrance_once_witness :
  let img := fun _ : nat =>
    {| ImageLoad.complete := false; ImageLoad.naturalWidth := 0 |} in
  posterTween_plays
    (run (initPreloader Samples.page img 0)
       [Image (ImageLoad.Elapse 700); Image ImageLoad.Load;
        Image (ImageLoad.Elapse 1200); FadeComplete]) = 1%nat.
Proof.
  intros img.
  destruct (poster_entrance_once Samples.page img 0
              [Image (ImageLoad.Elapse 700); Image ImageLoad.Load;
               Image (ImageLoad.Elapse 1200); FadeComplete])
    as (_ & _ & _ & Hlate & _).
  apply Hlate. simpl. lia.
Defined.

End PreloaderFacts.

Module StartupFacts.
Import Startup.

Lemma step_count st e :
  dcl_listeners (step st e) = dcl_listeners st /\
  (inits (step st e) + List.length (timers (step st e)))%nat
  = (inits st + List.length (timers st)
     + (if is_dcl e then dcl_listeners st else 0))%nat.
Proof.
  destruct e as [ | dt]; simpl.
  - split; [reflexivity | ]. rewrite length_app, repeat_length. lia.
  - split; [reflexivity | ].
    pose proof (filter_length (fun t => t <=? clock st + Z.max 0 dt)
                  (timers st)) as Hlen.
    simpl in Hlen. lia.
Qed.

(** Every run of [initAll], run or pending, goes back to one announcement
    heard by one listener, or to the timer set at the start. *)
Lemma run_count es : forall st,
  dcl_listeners (run st es) = dcl_listeners st /\
  (inits (run st es) + List.length (timers (run st es)))%nat
  = (inits st + List.length (timers st)
     + dcl_listeners st * announcements es)%nat.
Proof.
  induction es as [ | e es IH]; intros st; simpl.
  - split; [reflexivity | ]. unfold announcements; simpl. lia.
  - destruct (IH (step st e)) as (Hd & Hc).
    destruct (step_count st e) as (Hd1 & Hc1).
    rewrite Hd, Hd1. split; [reflexivity | ].
    rewrite Hc, Hc1, Hd1. unfold announcements; simpl.
    destruct (is_dcl e); simpl; lia.
Qed.

Lemma step_not_early base st e :
  not_early base st -> not_early base (step st e).
Proof.
  intros (Ht & Hc & Hi). destruct e as [ | dt]; simpl.
  - split; [ | split; assumption]. simpl.
    apply Forall_app. split; [exact Ht | ].
    apply Forall_forall. intros t Hin. apply repeat_spec in Hin. lia.
  - split; [ | split]; simpl.
    + apply (incl_Forall (incl_filter _ _)), Ht.
    + lia.
    + intros Hpos.
      destruct (filter (fun t => t <=? clock st + Z.max 0 dt) (timers st))
        as [ | t l] eqn:Hf.
      * simpl in Hpos. rewrite Nat.add_0_r in Hpos. specialize (Hi Hpos). lia.
      * assert (Hin : In t (filter (fun t => t <=? clock st + Z.max 0 dt)
                              (timers st))) by (rewrite Hf; left; reflexivity).
        apply filter_In in Hin. destruct Hin as [Hin Hdue].
        apply Z.leb_le in Hdue.
        rewrite Forall_forall in Ht. specialize (Ht t Hin). lia.
Qed.

Lemma run_not_early base es : forall st,
  not_early base st -> not_early base (run st es).
Proof.
  induction es as [ | e es IH]; intros st H; simpl; [exact H | ].
  apply IH, step_not_early, H.
Qed.

Lemma step_one_shot base st e : one_shot base st -> one_shot base (step st e).
Proof.
  intros (Hd & H). destruct e as [ | dt]; simpl.
  - split; [exact Hd | ]. rewrite Hd. simpl. rewrite app_nil_r. exact H.
  - split; [exact Hd | ].
    destruct H as [(Hi & Ht & Hc) | (Hi & Ht & Hc)]; rewrite Hi, Ht; simpl.
    + destruct (base + 40 <=? clock st + Z.max 0 dt) eqn:Hdue; simpl.
      * right. apply Z.leb_le in Hdue. repeat split. exact Hdue.
      * left. apply Z.leb_gt in Hdue. repeat split. exact Hdue.
    + right. repeat split. lia.
Qed.

Lemma run_one_shot base es : forall st,
  one_shot base st -> one_shot base (run st es).
Proof.
  induction es as [ | e es IH]; intros st H; simpl; [exact H | ].
  apply IH, step_one_shot, H.
Qed.

(** X3. [initAll] never runs earlier than 40 ms after the script started.
    When the document was already interactive or complete, [initAll] has
    run exactly once as soon as 40 ms have passed and not before, whatever
    else happens.  When the document was still loading, [initAll] runs, or
    is pending, once for each [DOMContentLoaded] the document announces: so
    at most once when the browser announces it at most once, and never
    without an announcement. *)
Theorem initAll_runs_once rs now es :
  let st := run (start rs now) es in
  ((0 < inits st)%nat -> now + 40 <= clock st) /\
  (rs <> Loading ->
     inits st = if now + 40 <=? clock st then 1%nat else 0%nat) /\
  (rs = Loading ->
     (inits st + List.length (timers st))%nat = announcements es /\
     ((announcements es <= 1)%nat -> (inits st <= 1)%nat)).
Proof.
  intros st. split; [ | split].
  - apply (run_not_early now es (start rs now)).
    destruct rs; (split; [ | split; [simpl; lia | simpl; lia]]); simpl;
      try apply Forall_nil; (apply Forall_cons; [lia | apply Forall_nil]).
  - intros Hrs.
    assert (H : one_shot now (start rs now)).
    { destruct rs; [congruence | | ]; (split; [reflexivity | ]);
        left; simpl; repeat split; lia. }
    destruct (run_one_shot now es _ H) as (_ & [(Hi & _ & Hc) | (Hi & _ & Hc)]);
      fold st in Hi, Hc; rewrite Hi.
    + apply Z.leb_gt in Hc. rewrite Hc. reflexivity.
    + apply Z.leb_le in Hc. rewrite Hc. reflexivity.
  - intros ->. destruct (run_count es (start Loading now)) as (_ & Hc).
    fold st in Hc. simpl in Hc.
    split; [lia | lia].
Qed.

(** A script that runs while the document is loading. *)
Lemma initAll_runs_once_witness :
  (inits (run (start Loading 0)
            [Elapse 10; DOMContentLoaded; Elapse 25; Elapse 25]) <= 1)%nat /\
  inits (run (start Interactive 0) [Elapse 39; DOMContentLoaded; Elapse 1])
  = 1%nat.
Proof.
  split.
  - destruct (initAll_runs_once Loading 0
                [Elapse 10; DOMContentLoaded; Elapse 25; Elapse 25])
      as (_ & _ & H).
    apply (proj2 (H eq_refl)). unfold announcements. simpl. lia.
  - destruct (initAll_runs_once Interactive 0
                [Elapse 39; DOMContentLoaded; Elapse 1]) as (_ & H & _).
    rewrite H by discriminate. reflexivity.
Defined.

End StartupFacts.

Module LightboxCoverage.
Import Dom DomFacts Lightbox LightboxFacts Notions.

Lemma slot_above d h : slot d h -> (max_handle d < h)%nat.
Proof. intros (k & ->). lia. Qed.

Lemma slot_apart d a b :
  slot d a -> slot d b -> a <> b -> (a + 4 <= b \/ b + 4 <= a)%nat.
Proof. intros (k & ->) (k' & ->) H. lia. Qed.

Lemma slot_next d h : slot d h -> slot d (h + 4).
Proof. intros (k & ->). exists (S k). lia. Qed.

Lemma absent_in_page d h :
  (max_handle d < h)%nat -> Forall (fun m => handle m <> h) (flatten d).
Proof.
  intros H. apply Forall_forall. intros m Hm.
  assert (Hle := le_fold_max (handle m) (map handle (flatten d))
                   (in_map handle _ _ Hm)).
  unfold max_handle in H. lia.
Qed.

Lemma chain_overlay_absent h t src alt :
  (t + 4 <= h \/ h + 4 <= t)%nat -> chain t (overlay h src alt) = [].
Proof.
  intros H. apply chain_absent. unfold overlay. simpl.
  repeat (apply Forall_cons; [unfold handle; simpl; lia | ]).
  apply Forall_nil.
Qed.

Lemma overlay_shown h src alt d :
  doc_querySelector the_overlay (body_appendChild (overlay h src alt) d)
  <> None.
Proof.
  intros H. apply doc_querySelector_none_count in H.
  rewrite count_body_appendChild, count_overlay in H. lia.
Qed.

Lemma in_remove_nth {A} (x : A) l : forall i, In x (remove_nth i l) -> In x l.
Proof.
  induction l as [ | a l IH]; intros i H; [destruct i; exact H | ].
  destruct i as [ | i]; simpl in H.
  - right. exact H.
  - destruct H as [H | H]; [left; exact H | right; apply (IH i), H].
Qed.

Lemma closeLightbox_inv d c st :
  lightbox_inv d st -> placed d st c -> lightbox_inv d (closeLightbox c st).
Proof.
  intros (Hf & Hk & Hd) Hc. split; [exact Hf | ]. split; [ | exact Hd].
  intros c' [H | [H | H]].
  - apply Hk. left. exact H.
  - apply Hk. right. left. exact H.
  - simpl in H. apply in_app_or in H. destruct H as [H | [H | []]].
    + apply Hk. right. right. exact H.
    + injection H as <-. exact Hc.
Qed.

Lemma fold_closeLightbox_inv d l : forall st,
  lightbox_inv d st -> Forall (placed d st) l ->
  lightbox_inv d (fold_left (fun s c => closeLightbox c s) l st).
Proof.
  induction l as [ | c l IH]; intros st H Hl; simpl; [exact H | ].
  inversion Hl as [ | x y Hc Hl']; subst.
  apply IH; [apply closeLightbox_inv; assumption | exact Hl'].
Qed.

Lemma openLightbox_inv d st :
  lightbox_inv d st ->
  lightbox_inv d (openLightbox st) /\ (fresh st <= fresh (openLightbox st))%nat.
Proof.
  intros (Hf & Hk & Hd).
  destruct (doc_querySelector the_overlay (doc st)) as [m | ] eqn:Hq.
  - rewrite openLightbox_present by congruence.
    split; [split; [ | split]; assumption | lia].
  - destruct Hd as [Hd | (h & src & alt & _ & _ & Hd)];
      [ | rewrite Hd in Hq; destruct (overlay_shown _ _ _ _ Hq)].
    destruct (openLightbox_absent st Hq)
      as (src & alt & Hdoc & Hcl & Hkd & Hr & Hfr).
    split; [ | lia]. split; [rewrite Hfr; apply slot_next, Hf | ].
    split.
    + assert (Hnew : slot d (lb (new_closure st)) /\
                     (lb (new_closure st) < fresh (openLightbox st))%nat).
      { simpl. split; [exact Hf | lia]. }
      assert (Hold : forall c, known c st ->
                slot d (lb c) /\ (lb c < fresh (openLightbox st))%nat).
      { intros c Hc. destruct (Hk c Hc). split; [assumption | lia]. }
      intros c [H | [H | H]].
      * rewrite Hcl, map_app in H. apply in_app_or in H.
        destruct H as [H | [H | [H | []]]]; simpl in H.
        -- apply Hold. left. exact H.
        -- subst c. exact Hnew.
        -- subst c. exact Hnew.
      * rewrite Hkd in H. apply in_app_or in H.
        destruct H as [H | [H | []]].
        -- apply Hold. right. left. exact H.
        -- subst c. exact Hnew.
      * rewrite Hr in H. apply in_app_or in H.
        destruct H as [H | [H | []]]; [ | discriminate H].
        apply Hold. right. right. exact H.
    + right. exists (fresh st), src, alt.
      split; [exact Hf | ]. split; [lia | ]. rewrite Hdoc, Hd. reflexivity.
Qed.

Lemma outTL_onComplete_inv d c st :
  lightbox_inv d st -> slot d (lb c) -> lightbox_inv d (outTL_onComplete c st).
Proof.
  intros (Hf & Hk & Hd) Hc.
  assert (Hpage : Forall (fun m => handle m <> lb c) (flatten d))
    by (apply absent_in_page, slot_above, Hc).
  destruct Hd as [Hd | (h & src & alt & Hh & Hlt & Hd)].
  - rewrite outTL_onComplete_detached.
    + split; [exact Hf | ]. split; [exact Hk | left; exact Hd].
    + unfold parentNode. rewrite Hd, (chain_absent _ _ Hpage). reflexivity.
  - destruct (Nat.eq_dec (lb c) h) as [Heq | Hne].
    + assert (Hp : exists p, parentNode (lb c) (doc st) = Some p).
      { unfold parentNode. rewrite Hd, chain_body_appendChild by exact Hpage.
        rewrite Heq. unfold overlay at 1. simpl. rewrite Nat.eqb_refl.
        eexists. reflexivity. }
      destruct Hp as (p & Hp).
      rewrite (outTL_onComplete_attached c st p Hp).
      split; [exact Hf | ]. split; [exact Hk | ]. left. simpl.
      rewrite Hd, detach_body_appendChild by (rewrite Heq; reflexivity).
      apply detach_absent, Hpage.
    + rewrite outTL_onComplete_detached.
      * split; [exact Hf | ]. split; [exact Hk | ].
        right. exists h, src, alt. repeat split; assumption.
      * unfold parentNode.
        rewrite Hd, chain_body_appendChild by exact Hpage.
        rewrite chain_overlay_absent; [reflexivity | ].
        apply (slot_apart d); assumption.
Qed.

Lemma click_at_inv d st h :
  lightbox_inv d st -> lightbox_inv d (click_at st h).
Proof.
  intros H. unfold click_at.
  assert (Hl : forall st1, (fresh st <= fresh st1)%nat ->
             Forall (placed d st1) (listeners_on h st)).
  { intros st1 Hle. apply Forall_forall. intros c Hc.
    destruct H as (_ & Hk & _).
    destruct (Hk c) as (Hs & Hlt).
    - left. unfold listeners_on in Hc. apply in_map_iff in Hc.
      destruct Hc as (x & <- & Hx). apply filter_In in Hx.
      apply in_map, Hx.
    - split; [exact Hs | lia]. }
  destruct (Nat.eqb h (posterWrap st)).
  - unfold onPosterWrapClick.
    assert (Hp : lightbox_inv d (preventDefault st)) by exact H.
    destruct (openLightbox_inv d _ Hp) as (Hinv & Hle).
    apply fold_closeLightbox_inv; [exact Hinv | apply Hl, Hle].
  - apply fold_closeLightbox_inv; [exact H | apply Hl; lia].
Qed.

Lemma lightbox_step_inv d st e : lightbox_inv d st -> lightbox_inv d (step st e).
Proof.
  intros H. destruct e as [t | k | i]; simpl.
  - apply (fold_invariant (lightbox_inv d)); [ | exact H].
    intros a b. apply click_at_inv.
  - assert (H0 : lightbox_inv d (set_keydown_once [] st)).
    { destruct H as (Hf & Hk & Hd). split; [exact Hf | ]. split; [ | exact Hd].
      intros c [Hc | [[] | Hc]]; apply Hk; [left | right; right]; exact Hc. }
    assert (Hl : Forall (placed d (set_keydown_once [] st)) (keydown_once st)).
    { apply Forall_forall. intros c Hc. destruct H as (_ & Hk & _).
      apply (Hk c). right. left. exact Hc. }
    revert H0 Hl. generalize (set_keydown_once [] st) (keydown_once st).
    intros s l. revert s. induction l as [ | c l IH]; intros s Hs Hl; simpl;
      [exact Hs | ].
    inversion Hl as [ | x y Hc Hl']; subst.
    unfold escClose at 2. destruct (String.eqb k "Escape").
    + apply IH; [apply closeLightbox_inv; assumption | exact Hl'].
    + apply IH; assumption.
  - destruct (nth_error (running st) i) as [tl | ] eqn:Hn; [ | exact H].
    assert (H0 : lightbox_inv d (set_running (remove_nth i (running st)) st)).
    { destruct H as (Hf & Hk & Hd). split; [exact Hf | ]. split; [ | exact Hd].
      intros c [Hc | [Hc | Hc]]; apply Hk;
        [left; exact Hc | right; left; exact Hc | right; right].
      simpl in Hc. apply (in_remove_nth _ _ i), Hc. }
    destruct tl as [b im | c]; [exact H0 | ].
    apply outTL_onComplete_inv; [exact H0 | ].
    destruct H as (_ & Hk & _). apply (Hk c). right. right.
    apply (nth_error_In _ _ Hn).
Qed.

Lemma lightbox_run_inv d es : forall st, lightbox_inv d st -> lightbox_inv d (run st es).
Proof.
  induction es as [ | e es IH]; intros st H; simpl; [exact H | ].
  apply IH, lightbox_step_inv, H.
Qed.

Lemma lightbox_init_inv d st : initPosterClickToEnlarge d = Some st -> lightbox_inv d st.
Proof.
  unfold initPosterClickToEnlarge.
  destruct (doc_querySelector (ByClass "image-container") d); [ | discriminate].
  destruct (doc_querySelector (ById "posterImage") d); [ | discriminate].
  intros H. injection H as <-. split; [exists 0%nat; simpl; lia | ].
  split; [ | left; reflexivity].
  intros c [[] | [[] | []]].
Qed.

(** X4. On every page on which the feature is set up, and after every
    sequence of clicks, key presses and timeline completions, the document
    is the page exactly as it was, or the page with one overlay appended as
    the last child of [<body>]: the feature never changes, moves or removes
    an element of the page, and never leaves a second overlay or a part of
    one behind. *)
Theorem lightbox_leaves_page_alone d st0 es :
  initPosterClickToEnlarge d = Some st0 ->
  page_or_overlay d (run st0 es).
Proof.
  intros H0.
  destruct (lightbox_run_inv d es st0 (lightbox_init_inv d st0 H0))
    as (_ & _ & [Hd | (h & src & alt & Hs & _ & Hd)]).
  - left. exact Hd.
  - right. exists h, src, alt. split; [apply slot_above, Hs | exact Hd].
Qed.

(** The landing page after the overlay was opened, closed by a click on its
    backdrop (11), opened again while the exit timeline ran, and the exit
    timeline has completed. *)
Lemma lightbox_leaves_page_alone_witness :
  page_or_overlay Samples.page
    (run Samples.lightbox_start [Click 2; Click 11; Click 2; Complete 1]).
Proof.
  apply (lightbox_leaves_page_alone Samples.page Samples.lightbox_start).
  reflexivity.
Defined.

(** The landing page after an overlay was opened and closed by a click on
    its image (13): the next overlay is closed by each trigger. *)
Lemma close_triggers_converge_reachable_witness :
  let st := run Samples.lightbox_start [Click 2; Click 13; Complete 1] in
  doc (outTL_onComplete (new_closure st) (openLightbox st)) = doc st /\
  closing (new_closure st)
    (step (openLightbox st) (KeyDown "Escape")).
Proof.
  intros st.
  destruct (close_triggers_converge_reachable Samples.page
              Samples.lightbox_start [Click 2; Click 13; Complete 1]
              eq_refl eq_refl) as (Htrig & Hdone).
  split.
  - exact (proj1 (Hdone (openLightbox st) eq_refl)).
  - apply (Htrig (KeyDown "Escape")). right. right. left. reflexivity.
Defined.

Lemma escape_lost_after_other_key_witness :
  let shown := run Samples.lightbox_start [Click 2] in
  step (step shown (KeyDown "Shift")) (KeyDown "Escape")
  = set_keydown_once [] shown.
Proof.
  intros shown.
  exact (proj2 (escape_lost_after_other_key shown "Shift" eq_refl)).
Defined.

End LightboxCoverage.

Module ModalCoverage.
Import Dom DomFacts Modal ModalFacts Notions.

(** ** When a listener raises *)

Lemma callbacks_uncaught l : forall st,
  uncaught (fold_left close_callback l st) = uncaught st.
Proof.
  induction l as [ | m l IH]; intros st; simpl; [reflexivity | ].
  rewrite IH. reflexivity.
Qed.

Lemma callbacks_gsap l : forall st,
  gsap (fold_left close_callback l st) = gsap st.
Proof.
  induction l as [ | m l IH]; intros st; simpl; [reflexivity | ].
  rewrite IH. reflexivity.
Qed.

Lemma callbacks_close_then l : forall st,
  close_then (fold_left close_callback l st) = close_then st.
Proof.
  induction l as [ | m l IH]; intros st; simpl; [reflexivity | ].
  rewrite IH. reflexivity.
Qed.

Lemma closeModal_absent st : getModalEls (doc st) = None -> closeModal st = st.
Proof. intros H. unfold closeModal. rewrite H. reflexivity. Qed.

Lemma onRender_rest st h css :
  uncaught (onRender st h css) = uncaught st /\
  close_running (onRender st h css) = close_running st /\
  close_then (onRender st h css) = close_then st /\
  gsap (onRender st h css) = gsap st.
Proof.
  unfold onRender. destruct (existsb (Nat.eqb h) (engine_targets st));
    repeat split.
Qed.

Lemma closeModal_when_cached st c :
  closeTL st = Some c ->
  openTL (closeModal st) = openTL st /\
  closeTL (closeModal st) = closeTL st /\
  uncaught (closeModal st) = uncaught st.
Proof.
  intros Hc. unfold closeModal.
  destruct (getModalEls (doc st)) as [els | ]; [ | repeat split].
  rewrite Hc. simpl. rewrite Hc. simpl. repeat split. exact Hc.
Qed.

(** With both timelines in the cache no listener raises, and both stay. *)
Lemma step_cached st e :
  openTL st <> None -> closeTL st <> None ->
  uncaught (step st e) = uncaught st /\
  openTL (step st e) <> None /\ closeTL (step st e) <> None.
Proof.
  intros Ho Hc.
  destruct (openTL st) as [o | ] eqn:Hoe; [ | exfalso; apply Ho; reflexivity].
  destruct (closeTL st) as [c | ] eqn:Hce; [ | exfalso; apply Hc; reflexivity].
  assert (Hopen : forall s, openTL s = Some o -> closeTL s = Some c ->
            uncaught (openModal s) = uncaught s /\
            openTL (openModal s) <> None /\ closeTL (openModal s) <> None).
  { intros s Hso Hsc.
    destruct (openModal_when_cached s o Hso) as (-> & -> & _).
    rewrite Hso, Hsc. split; [ | split; discriminate].
    apply (proj2 (proj2 (openModal_rest s))). intros els _. left.
    rewrite Hso. discriminate. }
  assert (Hclose : forall s, openTL s = Some o -> closeTL s = Some c ->
            uncaught (closeModal s) = uncaught s /\
            openTL (closeModal s) <> None /\ closeTL (closeModal s) <> None).
  { intros s Hso Hsc.
    destruct (closeModal_when_cached s c Hsc) as (-> & -> & ->).
    rewrite Hso, Hsc. split; [reflexivity | split; discriminate]. }
  destruct e as [t | k | t | | h css | d']; simpl.
  - unfold onDocumentClick. destruct (click_action (doc st) t).
    + apply (Hopen (preventDefault st)); assumption.
    + apply (Hclose (preventDefault st)); assumption.
    + rewrite Hoe, Hce. split; [reflexivity | split; discriminate].
  - unfold onKeyDown.
    destruct (String.eqb k "Escape");
      [ | rewrite Hoe, Hce; split; [reflexivity | split; discriminate]].
    destruct (getModalEls (doc st)) as [els | ];
      [ | rewrite Hoe, Hce; split; [reflexivity | split; discriminate]].
    destruct (is_open (modal els));
      [apply Hclose; assumption
      | rewrite Hoe, Hce; split; [reflexivity | split; discriminate]].
  - assert (H : uncaught (onFocusIn st t) = uncaught st /\
                openTL (onFocusIn st t) = openTL st /\
                closeTL (onFocusIn st t) = closeTL st).
    { unfold onFocusIn.
      destruct (getModalEls (doc st)) as [els | ]; [ | repeat split].
      destruct (negb (is_open (modal els))); [repeat split | ].
      destruct (negb (contains (modal els) t)); [ | repeat split].
      destruct (focus_first_fields (modal els) st) as (_ & -> & -> & _).
      destruct (focus_first_rest (modal els) st) as (-> & _).
      repeat split. }
    destruct H as (-> & -> & ->). rewrite Hoe, Hce.
    split; [reflexivity | split; discriminate].
  - unfold onCloseComplete. destruct (close_running st);
      [ | rewrite Hoe, Hce; split; [reflexivity | split; discriminate]].
    match goal with |- context [fold_left close_callback ?l ?s] =>
      destruct (callbacks_cache l s) as (-> & -> & _);
      rewrite (callbacks_uncaught l s) end.
    simpl. rewrite Hoe, Hce. split; [reflexivity | split; discriminate].
  - destruct (onRender_cache st h css) as (-> & -> & _).
    destruct (onRender_rest st h css) as (-> & _).
    rewrite Hoe, Hce. split; [reflexivity | split; discriminate].
  - rewrite Hoe, Hce. split; [reflexivity | split; discriminate].
Qed.

Lemma run_cached es : forall st,
  openTL st <> None -> closeTL st <> None ->
  uncaught (run st es) = uncaught st.
Proof.
  induction es as [ | e es IH]; intros st Ho Hc; simpl; [reflexivity | ].
  destruct (step_cached st e Ho Hc) as (Hu & Ho' & Hc').
  rewrite (IH _ Ho' Hc'). exact Hu.
Qed.

Lemma has_backdrop_handles d d' :
  modal_handles d' = modal_handles d -> has_backdrop d -> has_backdrop d'.
Proof.
  intros H Hd els' Hels'.
  destruct (getModalEls d) as [els | ] eqn:Hels.
  - intros Hn. apply (Hd els Hels).
    apply (backdrop_of_handles d d' els els' H Hels Hels'), Hn.
  - unfold modal_handles in H. rewrite Hels, Hels' in H. discriminate H.
Qed.

Lemma openModal_guarded st :
  has_backdrop (doc st) -> uncaught (openModal st) = uncaught st.
Proof.
  intros H. apply (proj2 (proj2 (openModal_rest st))).
  intros els Hels. right. apply (H els Hels).
Qed.

Lemma closeModal_guarded st :
  has_backdrop (doc st) -> uncaught (closeModal st) = uncaught st.
Proof.
  intros H. destruct (getModalEls (doc st)) as [els | ] eqn:Hels.
  - apply (closeModal_pending st els Hels). right. apply (H els Hels).
  - rewrite (closeModal_absent st Hels). reflexivity.
Qed.

(** On a page whose modal has its backdrop no listener raises. *)
Lemma step_guarded st e :
  has_backdrop (doc st) -> backdrop_stays e ->
  uncaught (step st e) = uncaught st /\ has_backdrop (doc (step st e)).
Proof.
  intros H He. split.
  - destruct e as [t | k | t | | h css | d']; simpl.
    + unfold onDocumentClick. destruct (click_action (doc st) t).
      * apply (openModal_guarded (preventDefault st)). exact H.
      * apply (closeModal_guarded (preventDefault st)). exact H.
      * reflexivity.
    + unfold onKeyDown. destruct (String.eqb k "Escape"); [ | reflexivity].
      destruct (getModalEls (doc st)) as [els | ]; [ | reflexivity].
      destruct (is_open (modal els));
        [apply closeModal_guarded, H | reflexivity].
    + unfold onFocusIn. destruct (getModalEls (doc st)) as [els | ];
        [ | reflexivity].
      destruct (negb (is_open (modal els))); [reflexivity | ].
      destruct (negb (contains (modal els) t)); [ | reflexivity].
      apply focus_first_rest.
    + unfold onCloseComplete. destruct (close_running st); [ | reflexivity].
      rewrite callbacks_uncaught. reflexivity.
    + apply onRender_rest.
    + reflexivity.
  - destruct e as [t | k | t | | h css | d'];
      try (apply (has_backdrop_handles (doc st)); [ | exact H];
           apply step_modal_handles; [exact I | reflexivity]).
    exact He.
Qed.

Lemma run_guarded es : forall st,
  has_backdrop (doc st) -> Forall backdrop_stays es ->
  uncaught (run st es) = uncaught st.
Proof.
  induction es as [ | e es IH]; intros st H Hes; simpl; [reflexivity | ].
  apply Forall_cons_iff in Hes. destruct Hes as [He Hes].
  destruct (step_guarded st e H He) as (Hu & H').
  rewrite (IH _ H' Hes). exact Hu.
Qed.

(** X8. The one place where a listener of the modal raises is
    [buildTimelines] on a modal without backdrop.  Once both timelines are
    in the cache no listener raises, whatever the page does; and as long as
    the modal has its backdrop whenever it is in the document, no listener
    raises either.  With the modal there but not its backdrop, and nothing
    in the cache, every click on the open trigger raises a [TypeError]
    after it has marked the modal open, and every click on a close button
    and every Escape on the open modal raises it without starting the
    closing timeline. *)
Theorem modal_raises_only_without_backdrop st :
  (forall es, openTL st <> None -> closeTL st <> None ->
     uncaught (run st es) = uncaught st) /\
  (forall es, has_backdrop (doc st) -> Forall backdrop_stays es ->
     uncaught (run st es) = uncaught st) /\
  (forall els, getModalEls (doc st) = Some els -> backdrop els = None ->
     (openTL st = None -> forall t, click_action (doc st) t = DoOpen ->
        uncaught (step st (Click t)) = uncaught st ++ ["TypeError"] /\
        openTL (step st (Click t)) = None /\
        shown_open (step st (Click t)) = true) /\
     (closeTL st = None -> forall t, click_action (doc st) t = DoClose ->
        step st (Click t) = throw "TypeError" (preventDefault st)) /\
     (closeTL st = None -> is_open (modal els) = true ->
        step st (KeyDown "Escape") = throw "TypeError" st)).
Proof.
  split; [intros es; apply run_cached | ].
  split; [intros es; apply run_guarded | ].
  intros els Hels Hb. split; [ | split].
  - intros Ho t Ha. simpl. unfold onDocumentClick. rewrite Ha.
    rewrite (openModal_raises (preventDefault st) els Hels Ho Hb). simpl.
    split; [reflexivity | ]. split; [exact Ho | ].
    destruct (shown_after_opened (handle (modal els)) (doc st)
                (getModalEls_modal_is _ _ Hels)) as (m & Hq & Hopen & _).
    unfold shown_open. simpl. rewrite Hq. exact Hopen.
  - intros Hc t Ha. simpl. unfold onDocumentClick. rewrite Ha.
    apply (closeModal_raises (preventDefault st) els Hels Hc Hb).
  - intros Hc Hopen. simpl. unfold onKeyDown. simpl. rewrite Hels, Hopen.
    apply (closeModal_raises st els Hels Hc Hb).
Qed.

(** On the landing page nothing is raised by a click on the trigger, a
    frame, an Escape and the completion; on the page whose modal lacks its
    backdrop the click on the trigger raises and shows the modal open. *)
Lemma modal_raises_only_without_backdrop_witness :
  uncaught (run (initModal Samples.page)
              [Click 3; Render 5 (Some "opacity: 1"); KeyDown "Escape";
               CloseComplete]) = [] /\
  uncaught (step (initModal Samples.page_without_backdrop) (Click 3))
  = ["TypeError"].
Proof.
  split.
  - apply (proj1 (proj2 (modal_raises_only_without_backdrop
                           (initModal Samples.page)))).
    + intros els Hels. injection Hels as <-. discriminate.
    + repeat constructor.
  - destruct (proj2 (proj2 (modal_raises_only_without_backdrop
                              (initModal Samples.page_without_backdrop)))
                _ eq_refl eq_refl) as (Hopen & _).
    apply (Hopen eq_refl 3%nat eq_refl).
Defined.

(** ** A close that is overtaken by an open *)

(** X9. With the modal in the document and a closing timeline that is in
    the cache or can be built: when [closeModal] is followed by [openModal]
    before the closing timeline has completed, the completion still runs
    its callback, so the modal that was asked to open last ends without
    [is-open] and with [aria-hidden] set to ["true"]; in that state the
    Escape key and the focus trap, which both test [is-open], do
    nothing. *)
Theorem close_overtaken_by_open st els :
  getModalEls (doc st) = Some els ->
  closeTL st <> None \/ backdrop els <> None ->
  let st1 := openModal (closeModal st) in
  let st2 := onCloseComplete st1 in
  (shown_open st1 = true /\ close_running st1 = true) /\
  (shown_open st2 = false /\ aria_hidden st2 = Some "true") /\
  onKeyDown st2 "Escape" = st2 /\
  (forall t, onFocusIn st2 t = st2).
Proof.
  intros Hels Hready st1 st2.
  set (h := handle (modal els)).
  assert (Hm : modal_is h (doc st)) by (apply getModalEls_modal_is, Hels).
  destruct (closeModal_pending st els Hels Hready) as (Hrun & Hthen & _).
  assert (Hels' : getModalEls (doc (closeModal st)) = Some els)
    by (rewrite closeModal_doc; exact Hels).
  assert (Hd1 : doc st1 = opened h (doc st)).
  { unfold st1. rewrite (openModal_doc _ els Hels'), closeModal_doc.
    reflexivity. }
  destruct (openModal_rest (closeModal st)) as (Hr1 & Ht1 & _).
  fold st1 in Hr1, Ht1. rewrite Hrun in Hr1. rewrite Hthen in Ht1.
  destruct (shown_after_opened h (doc st) Hm) as (m1 & Hq1 & Ho1 & _).
  rewrite <- Hd1 in Hq1.
  split; [split; [unfold shown_open; rewrite Hq1; exact Ho1 | exact Hr1] | ].
  assert (Hm1 : modal_is h (doc st1))
    by (rewrite Hd1; apply modal_is_opened, Hm).
  assert (Hd2 : doc st2
                = closed h (doc (fold_left close_callback (close_then st) st1))).
  { unfold st2. rewrite (onCloseComplete_doc st1 Hr1), Ht1, fold_left_app.
    reflexivity. }
  destruct (shown_after_closed h _
              (modal_is_callbacks h (close_then st) st1 Hm1))
    as (m2 & Hq2 & Ho2 & Ha2).
  rewrite <- Hd2 in Hq2.
  assert (Hels2 : exists els2, getModalEls (doc st2) = Some els2 /\
                               is_open (modal els2) = false).
  { unfold getModalEls. rewrite Hq2. eexists. split; [reflexivity | exact Ho2]. }
  destruct Hels2 as (els2 & Hels2 & Hclosed).
  split; [unfold shown_open, aria_hidden; rewrite Hq2; split; assumption | ].
  split.
  - unfold onKeyDown. simpl. rewrite Hels2, Hclosed. reflexivity.
  - intros t. unfold onFocusIn. rewrite Hels2, Hclosed. reflexivity.
Qed.

Lemma close_overtaken_by_open_witness :
  let st := openModal (initModal Samples.page) in
  shown_open (onCloseComplete (openModal (closeModal st))) = false.
Proof.
  intros st.
  destruct (close_overtaken_by_open st _ eq_refl)
    as (_ & (H & _) & _); [ | exact H].
  left. vm_compute. discriminate.
Defined.

(** ** The Escape key *)

Lemma closeModal_completes st els :
  getModalEls (doc st) = Some els ->
  closeTL st <> None \/ backdrop els <> None ->
  shown_open (onCloseComplete (closeModal st)) = false /\
  aria_hidden (onCloseComplete (closeModal st)) = Some "true".
Proof.
  intros Hels Hready. set (h := handle (modal els)).
  assert (Hm : modal_is h (doc st)) by (apply getModalEls_modal_is, Hels).
  destruct (closeModal_pending st els Hels Hready) as (Hrun & Hthen & _).
  assert (Hd : doc (onCloseComplete (closeModal st))
               = closed h (doc (fold_left close_callback (close_then st)
                                  (closeModal st)))).
  { rewrite (onCloseComplete_doc _ Hrun), Hthen, fold_left_app. reflexivity. }
  assert (Hm' : modal_is h (doc (closeModal st)))
    by (rewrite closeModal_doc; exact Hm).
  destruct (shown_after_closed h _
              (modal_is_callbacks h (close_then st) (closeModal st) Hm'))
    as (m & Hq & Ho & Ha).
  rewrite <- Hd in Hq.
  unfold shown_open, aria_hidden. rewrite Hq. split; assumption.
Qed.

(** X13. The [keydown] listener of the modal acts on Escape alone, and only
    on a modal that carries [is-open]: every other key, and Escape without
    a modal or on a modal that is not open, changes nothing at all (no
    closing timeline is played); Escape on an open modal is [closeModal].
    When the closing timeline is in the cache or the modal has its
    backdrop, the modal is without [is-open] and hidden after the
    completion; otherwise the listener raises and changes nothing else, so
    the modal stays open. *)
Theorem escape_closes_only_an_open_modal st :
  (forall k, String.eqb k "Escape" = false -> onKeyDown st k = st) /\
  (getModalEls (doc st) = None -> onKeyDown st "Escape" = st) /\
  (forall els, getModalEls (doc st) = Some els ->
     (is_open (modal els) = false -> onKeyDown st "Escape" = st) /\
     (is_open (modal els) = true ->
        onKeyDown st "Escape" = closeModal st /\
        (closeTL st <> None \/ backdrop els <> None ->
           shown_open (onCloseComplete (onKeyDown st "Escape")) = false /\
           aria_hidden (onCloseComplete (onKeyDown st "Escape"))
           = Some "true") /\
        (closeTL st = None -> backdrop els = None ->
           onKeyDown st "Escape" = throw "TypeError" st /\
           shown_open (onKeyDown st "Escape") = true))).
Proof.
  split; [ | split].
  - intros k Hk. unfold onKeyDown. rewrite Hk. reflexivity.
  - intros H. unfold onKeyDown. simpl. rewrite H. reflexivity.
  - intros els Hels. split.
    + intros Ho. unfold onKeyDown. simpl. rewrite Hels, Ho. reflexivity.
    + intros Ho.
      assert (E : onKeyDown st "Escape" = closeModal st).
      { unfold onKeyDown. simpl. rewrite Hels, Ho. reflexivity. }
      rewrite E. split; [reflexivity | ]. split.
      * intros Hready. apply (closeModal_completes st els Hels Hready).
      * intros Hc Hb. rewrite (closeModal_raises st els Hels Hc Hb).
        split; [reflexivity | ].
        unfold shown_open. simpl.
        rewrite (getModalEls_modal _ _ Hels). exact Ho.
Qed.

Lemma escape_closes_only_an_open_modal_witness :
  let st := openModal (initModal Samples.page) in
  shown_open (onCloseComplete (onKeyDown st "Escape")) = false /\
  onKeyDown (initModal Samples.page) "Escape" = initModal Samples.page.
Proof.
  intros st.
  destruct (escape_closes_only_an_open_modal st) as (_ & _ & Hopen).
  destruct (escape_closes_only_an_open_modal (initModal Samples.page))
    as (_ & _ & Hclosed).
  split.
  - destruct (proj2 (Hopen _ eq_refl) eq_refl) as (_ & Hdone & _).
    apply Hdone. left. vm_compute. discriminate.
  - apply (proj1 (Hclosed _ eq_refl) eq_refl).
Defined.

(** ** Changing elements in place *)

Lemma tmap_tmap f g : forall n,
  tmap g (tmap f n) = tmap (fun e => g (f e)) n.
Proof.
  induction n as [e ks IH] using node_rect'. simpl. f_equal.
  induction IH as [ | k ks Hk _ IHks]; simpl; [reflexivity | ].
  rewrite Hk, IHks. reflexivity.
Qed.

Lemma tmap_ext_in f g : forall n,
  (forall m, In m (flatten n) -> f (elt m) = g (elt m)) ->
  tmap f n = tmap g n.
Proof.
  induction n as [e ks IH] using node_rect'. intros H. simpl.
  assert (He : f e = g e) by (apply (H (Node e ks)); simpl; left; reflexivity).
  rewrite He. f_equal.
  assert (Hks : forall m, In m (flat_map flatten ks) -> f (elt m) = g (elt m)).
  { intros m Hm. apply H. simpl. right. exact Hm. }
  clear H. induction IH as [ | k ks Hk _ IHks]; simpl; [reflexivity | ].
  rewrite Hk, IHks; [reflexivity | | ];
    intros m Hm; apply Hks; simpl; apply in_or_app; [right | left]; exact Hm.
Qed.

Lemma tmap_id : forall n, tmap (fun e => e) n = n.
Proof.
  induction n as [e ks IH] using node_rect'. simpl. f_equal.
  induction IH as [ | k ks Hk _ IHks]; simpl; [reflexivity | ].
  rewrite Hk, IHks. reflexivity.
Qed.

Lemma update_update h f g d :
  same_identity f ->
  update h g (update h f d) = update h (fun e => g (f e)) d.
Proof.
  intros Hf. unfold update. rewrite tmap_tmap.
  apply tmap_ext_in. intros m _.
  destruct (Nat.eqb (nid (elt m)) h) eqn:Hn.
  - destruct (Hf (elt m)) as (-> & _). rewrite Hn. reflexivity.
  - rewrite Hn. reflexivity.
Qed.

Lemma mark_open_identity : same_identity mark_open.
Proof. intros e. repeat split. Qed.

Lemma mark_closed_identity : same_identity mark_closed.
Proof. intros e. repeat split. Qed.

Lemma opened_update h d : opened h d = update h mark_open d.
Proof.
  unfold opened. rewrite update_update by apply classList_add_identity.
  reflexivity.
Qed.

Lemma closed_update h d : closed h d = update h mark_closed d.
Proof.
  unfold closed. rewrite update_update by apply classList_remove_identity.
  reflexivity.
Qed.

Lemma assoc_set_set k v v' l :
  assoc_set k v (assoc_set k v' l) = assoc_set k v l.
Proof.
  induction l as [ | [k0 v0] l IH]; simpl.
  - rewrite String.eqb_refl. reflexivity.
  - destruct (String.eqb k k0) eqn:Hk; simpl.
    + rewrite String.eqb_refl. reflexivity.
    + rewrite Hk, IH. reflexivity.
Qed.

Lemma assoc_set_same k v l : assoc_get k l = Some v -> assoc_set k v l = l.
Proof.
  induction l as [ | [k0 v0] l IH]; simpl; [discriminate | ].
  destruct (String.eqb k k0) eqn:Hk.
  - intros H. injection H as ->. apply String.eqb_eq in Hk. subst k0.
    reflexivity.
  - intros H. rewrite (IH H). reflexivity.
Qed.

Lemma filter_absent c l :
  existsb (String.eqb c) l = false ->
  filter (fun x => negb (String.eqb c x)) l = l.
Proof.
  induction l as [ | x l IH]; simpl; [reflexivity | ].
  destruct (String.eqb c x); simpl; [discriminate | ].
  intros H. rewrite (IH H). reflexivity.
Qed.

Lemma add_remove_round_trip c k v v' e :
  has_class c e = false -> getAttribute k e = Some v ->
  setAttribute k v (classList_remove c (setAttribute k v' (classList_add c e)))
  = e.
Proof.
  intros Hc Ha. destruct e as [n t i cs ats].
  unfold setAttribute, classList_remove, classList_add, has_class,
    getAttribute in *. cbn [nid tag id_attr classes attrs] in *.
  rewrite Hc. f_equal.
  - rewrite filter_app. cbn [filter]. rewrite String.eqb_refl.
    cbn [negb]. rewrite app_nil_r. apply filter_absent, Hc.
  - rewrite assoc_set_set. apply assoc_set_same, Ha.
Qed.

Lemma add_twice c k v e :
  setAttribute k v (classList_add c (setAttribute k v (classList_add c e)))
  = setAttribute k v (classList_add c e).
Proof.
  assert (H := has_class_add c (setAttribute k v e)).
  destruct e as [n t i cs ats].
  unfold setAttribute, classList_add, has_class in *.
  cbn [nid tag id_attr classes attrs] in *.
  rewrite H, assoc_set_set. reflexivity.
Qed.

(** An element that is closed and hidden is itself again after an open and
    a completed close. *)
Lemma open_and_close_id e :
  has_class "is-open" e = false ->
  getAttribute "aria-hidden" e = Some "true" ->
  open_and_close e = e.
Proof. apply add_remove_round_trip. Qed.

Lemma mark_open_twice e : mark_open (mark_open e) = mark_open e.
Proof. apply add_twice. Qed.

(** ** The modal element through an open and a close *)

Lemma elt_update_other t f n : handle n <> t -> elt (update t f n) = elt n.
Proof.
  intros H. destruct n as [e ks]. unfold update, handle in *. simpl in *.
  apply Nat.eqb_neq in H. rewrite H. reflexivity.
Qed.

(** The element a query for [#i] finds, after an update of element [t]. *)
Lemma found_after_update i t f d m :
  same_identity f ->
  doc_querySelector (ById i) d = Some m ->
  exists m', doc_querySelector (ById i) (update t f d) = Some m' /\
             handle m' = handle m /\
             elt m' = if Nat.eqb (handle m) t then f (elt m) else elt m.
Proof.
  intros Hf Hq. exists (update t f m). split; [ | split].
  - rewrite doc_querySelector_update, Hq by exact Hf. reflexivity.
  - apply handle_update, Hf.
  - destruct (Nat.eqb (handle m) t) eqn:Ht.
    + apply elt_update_self. apply Nat.eqb_eq, Ht.
    + apply elt_update_other. apply Nat.eqb_neq, Ht.
Qed.

Lemma set_doc_same st : set_doc (doc st) st = st.
Proof. destruct st. reflexivity. Qed.

(** Frames change the document only: the state is otherwise the same, a
    query finds the same modal, backdrop and content, and an element that
    was never handed to the engine is as it was. *)
Lemma renders_set_doc rs : forall st,
  forallb is_render rs = true ->
  exists d',
    run st rs = set_doc d' st /\
    modal_handles d' = modal_handles (doc st) /\
    forall i m,
      doc_querySelector (ById i) (doc st) = Some m ->
      ~ In (handle m) (engine_targets st) ->
      exists m', doc_querySelector (ById i) d' = Some m' /\
                 handle m' = handle m /\ elt m' = elt m.
Proof.
  induction rs as [ | e rs IH]; intros st Hrs.
  - exists (doc st). split; [symmetry; apply set_doc_same | ].
    split; [reflexivity | ]. intros i m Hq _. exists m. repeat split.
    exact Hq.
  - simpl in Hrs. apply andb_true_iff in Hrs. destruct Hrs as [He Hrs].
    destruct e as [t | k | t | | h css | d0]; try discriminate He.
    change (run st (Render h css :: rs)) with (run (onRender st h css) rs).
    assert (H1 : exists d1,
              onRender st h css = set_doc d1 st /\
              modal_handles d1 = modal_handles (doc st) /\
              forall i m,
                doc_querySelector (ById i) (doc st) = Some m ->
                ~ In (handle m) (engine_targets st) ->
                exists m', doc_querySelector (ById i) d1 = Some m' /\
                           handle m' = handle m /\ elt m' = elt m).
    { unfold onRender.
      destruct (existsb (Nat.eqb h) (engine_targets st)) eqn:Hin.
      - exists (update h (write_style css) (doc st)).
        split; [reflexivity | ]. split; [apply modal_handles_styled | ].
        intros i m Hq Hn.
        destruct (found_after_update i h (write_style css) (doc st) m
                    (write_style_identity css) Hq) as (m' & Hq' & Hh & He').
        exists m'. split; [exact Hq' | ]. split; [exact Hh | ].
        rewrite He'. destruct (Nat.eqb (handle m) h) eqn:Hmh; [ | reflexivity].
        exfalso. apply Hn. apply Nat.eqb_eq in Hmh. rewrite Hmh.
        apply existsb_exists in Hin. destruct Hin as (x & Hx & Hxe).
        apply Nat.eqb_eq in Hxe. subst x. exact Hx.
      - exists (doc st). split; [symmetry; apply set_doc_same | ].
        split; [reflexivity | ]. intros i m Hq _. exists m.
        repeat split. exact Hq. }
    destruct H1 as (d1 & E1 & Hh1 & Hf1). rewrite E1.
    destruct (IH (set_doc d1 st) Hrs) as (d2 & E2 & Hh2 & Hf2).
    exists d2. split; [rewrite E2; reflexivity | ].
    split; [rewrite Hh2; exact Hh1 | ].
    intros i m Hq Hn.
    destruct (Hf1 i m Hq Hn) as (m1 & Hq1 & Hm1 & He1).
    destruct (Hf2 i m1 Hq1) as (m2 & Hq2 & Hm2 & He2).
    { rewrite Hm1. exact Hn. }
    exists m2. split; [exact Hq2 | ].
    split; [rewrite Hm2; exact Hm1 | rewrite He2; exact He1].
Qed.

Lemma engine_targets_app st l :
  flat_map targets_of (gsap st ++ l)
  = engine_targets st ++ flat_map targets_of l.
Proof. apply flat_map_app. Qed.

(** The log of calls only grows. *)
Lemma openModal_log st : exists l, gsap (openModal st) = gsap st ++ l.
Proof.
  unfold openModal. destruct (getModalEls (doc st)) as [els | ];
    [ | exists []; simpl; rewrite app_nil_r; reflexivity].
  simpl. destruct (openTL st) eqn:Ho; simpl; rewrite ?Ho.
  - match goal with |- context [focus_first ?m ?s] =>
      destruct (focus_first_fields m s) as (_ & _ & _ & _ & ->) end.
    simpl. rewrite <- !app_assoc. eexists. reflexivity.
  - destruct (backdrop els); simpl.
    + match goal with |- context [focus_first ?m ?s] =>
        destruct (focus_first_fields m s) as (_ & _ & _ & _ & ->) end.
      simpl. rewrite <- !app_assoc. eexists. reflexivity.
    + exists []. rewrite app_nil_r. reflexivity.
Qed.

Lemma closeModal_log st : exists l, gsap (closeModal st) = gsap st ++ l.
Proof.
  unfold closeModal. destruct (getModalEls (doc st)) as [els | ];
    [ | exists []; rewrite app_nil_r; reflexivity].
  destruct (closeTL st) eqn:Hc; simpl; rewrite ?Hc.
  - eexists. reflexivity.
  - destruct (backdrop els); simpl.
    + rewrite <- !app_assoc. eexists. reflexivity.
    + exists []. rewrite app_nil_r. reflexivity.
Qed.

Lemma onCloseComplete_gsap st : gsap (onCloseComplete st) = gsap st.
Proof.
  unfold onCloseComplete. destruct (close_running st); [ | reflexivity].
  rewrite callbacks_gsap. reflexivity.
Qed.

Lemma targets_grow st st' l :
  gsap st' = gsap st ++ l -> incl (engine_targets st) (engine_targets st').
Proof.
  intros H. unfold engine_targets at 2. rewrite H, engine_targets_app.
  apply incl_appl, incl_refl.
Qed.

(** X10. Opening and closing is a round trip on the modal element.  With
    the modal in the document, closed (no [is-open], [aria-hidden] at
    ["true"]), no close under way, and the timelines in the cache or the
    backdrop there: after [openModal], [closeModal] and the completion of
    the closing timeline, with any frames of the engine in between and
    after, a query finds the modal element exactly as it was, class list
    and attributes, provided the modal itself was never handed to the
    engine. *)
Theorem open_close_restores_modal st els rs1 rs2 rs3 :
  getModalEls (doc st) = Some els ->
  ready els st ->
  is_open (modal els) = false ->
  getAttribute "aria-hidden" (elt (modal els)) = Some "true" ->
  close_then st = [] ->
  forallb is_render rs1 = true -> forallb is_render rs2 = true ->
  forallb is_render rs3 = true ->
  let st' :=
    run (onCloseComplete (run (closeModal (run (openModal st) rs1)) rs2))
      rs3 in
  ~ In (handle (modal els)) (engine_targets st') ->
  exists m,
    doc_querySelector (ById "detailsModal") (doc st') = Some m /\
    handle m = handle (modal els) /\ elt m = elt (modal els).
Proof.
  intros Hels Hready Hclosed Hhidden Hidle Hr1 Hr2 Hr3 st' Hfree.
  set (h := handle (modal els)) in *.
  set (i := "detailsModal") in *.
  assert (Hq0 : doc_querySelector (ById i) (doc st) = Some (modal els))
    by (apply getModalEls_modal, Hels).
  (* the states along the way *)
  set (s1 := openModal st) in *.
  destruct (renders_set_doc rs1 s1 Hr1) as (d1 & E1 & Hh1 & Hf1).
  set (s1' := run s1 rs1) in *.
  set (s2 := closeModal s1') in *.
  destruct (renders_set_doc rs2 s2 Hr2) as (d2 & E2 & Hh2 & Hf2).
  set (s2' := run s2 rs2) in *.
  set (s3 := onCloseComplete s2') in *.
  destruct (renders_set_doc rs3 s3 Hr3) as (d3 & E3 & Hh3 & Hf3).
  fold st' in E3.
  (* the log only grows *)
  assert (G3 : engine_targets st' = engine_targets s3)
    by (rewrite E3; reflexivity).
  assert (G2' : engine_targets s3 = engine_targets s2')
    by (unfold engine_targets, s3; rewrite onCloseComplete_gsap; reflexivity).
  assert (G2 : engine_targets s2' = engine_targets s2)
    by (rewrite E2; reflexivity).
  assert (G1' : incl (engine_targets s1') (engine_targets s2)).
  { destruct (closeModal_log s1') as (l & Hl). apply (targets_grow _ _ l Hl). }
  assert (G1 : engine_targets s1' = engine_targets s1)
    by (rewrite E1; reflexivity).
  assert (Hfree3 : ~ In h (engine_targets s3)) by (rewrite <- G3; exact Hfree).
  assert (Hfree2 : ~ In h (engine_targets s2))
    by (rewrite <- G2, <- G2'; exact Hfree3).
  assert (Hfree1 : ~ In h (engine_targets s1)).
  { intros Hin. apply Hfree2, G1'. rewrite G1. exact Hin. }
  (* after the open *)
  assert (Hd1 : doc s1 = update h mark_open (doc st)).
  { unfold s1. rewrite (openModal_doc st els Hels). apply opened_update. }
  destruct (found_after_update i h mark_open (doc st) (modal els)
              mark_open_identity Hq0) as (m1 & Hq1 & Hm1 & He1).
  rewrite <- Hd1 in Hq1. fold h in Hm1, He1. rewrite Nat.eqb_refl in He1.
  destruct (Hf1 i m1 Hq1) as (m1' & Hq1' & Hm1' & He1').
  { rewrite Hm1. exact Hfree1. }
  assert (Hds1' : doc s1' = d1) by (rewrite E1; reflexivity).
  rewrite <- Hds1' in Hq1', Hh1.
  (* the close *)
  assert (Hels1 : exists els1, getModalEls (doc s1') = Some els1 /\
                               modal els1 = m1').
  { unfold getModalEls. fold i. rewrite Hq1'. eexists. split; reflexivity. }
  destruct Hels1 as (els1 & Hels1 & Hmod1).
  assert (Hhs1 : modal_handles (doc s1') = modal_handles (doc st)).
  { rewrite Hh1. apply openModal_modal_handles. }
  assert (Hready1 : closeTL s1' <> None \/ backdrop els1 <> None).
  { destruct Hready as [Hb | [Ho Hc]].
    - right. intros Hn. apply Hb.
      apply (backdrop_of_handles (doc st) (doc s1') els els1 Hhs1 Hels Hels1).
      exact Hn.
    - left. destruct (openTL st) as [o | ] eqn:Hoe;
        [ | exfalso; apply Ho; reflexivity].
      rewrite E1. simpl. unfold s1.
      rewrite (proj1 (proj2 (openModal_when_cached st o Hoe))). exact Hc. }
  destruct (closeModal_pending s1' els1 Hels1 Hready1) as (Hrun & Hthen & _).
  fold s2 in Hrun, Hthen.
  assert (Hthen1 : close_then s1' = []).
  { rewrite E1. simpl. unfold s1.
    rewrite (proj1 (proj2 (openModal_rest st))). exact Hidle. }
  rewrite Hthen1, Hmod1, Hm1', Hm1 in Hthen. simpl in Hthen.
  assert (Hds2 : doc s2 = doc s1') by apply closeModal_doc.
  rewrite <- Hds2 in Hq1'.
  destruct (Hf2 i m1' Hq1') as (m2 & Hq2 & Hm2 & He2).
  { rewrite Hm1', Hm1. exact Hfree2. }
  assert (Hds2' : doc s2' = d2) by (rewrite E2; reflexivity).
  rewrite <- Hds2' in Hq2.
  (* the completion *)
  assert (Hrun2 : close_running s2' = true) by (rewrite E2; exact Hrun).
  assert (Hthen2 : close_then s2' = [h]) by (rewrite E2; exact Hthen).
  assert (Hd3 : doc s3 = update h mark_closed (doc s2')).
  { unfold s3. rewrite (onCloseComplete_doc s2' Hrun2), Hthen2.
    cbn [fold_left]. rewrite close_callback_doc. apply closed_update. }
  destruct (found_after_update i h mark_closed (doc s2') m2
              mark_closed_identity Hq2) as (m3 & Hq3 & Hm3 & He3).
  rewrite <- Hd3 in Hq3.
  assert (Hm2h : handle m2 = h) by (rewrite Hm2, Hm1', Hm1; reflexivity).
  rewrite Hm2h, Nat.eqb_refl in He3.
  destruct (Hf3 i m3 Hq3) as (m & Hq & Hm & He).
  { rewrite Hm3, Hm2h. exact Hfree3. }
  exists m. split; [rewrite E3; exact Hq | ].
  split; [rewrite Hm, Hm3; exact Hm2h | ].
  rewrite He, He3, He2, He1', He1.
  apply (open_and_close_id (elt (modal els))); assumption.
Qed.

(** The landing page: opened, closed and completed, with frames on the
    backdrop (5) and the content (6) in between. *)
Lemma open_close_restores_modal_witness :
  let st := initModal Samples.page in
  let st' :=
    run (onCloseComplete
           (run (closeModal (run (openModal st)
                               [Render 5 (Some "opacity: 1")]))
              [Render 6 (Some "opacity: 0")]))
      [Render 5 None] in
  exists m,
    doc_querySelector (ById "detailsModal") (doc st') = Some m /\
    elt m = elt Samples.details_modal.
Proof.
  intros st st'.
  assert (Hready : ready
            {| modal := Samples.details_modal;
               backdrop :=
                 querySelector (ByClass "modal-backdrop") Samples.details_modal;
               content :=
                 querySelector (ByClass "modal-content") Samples.details_modal;
               closeBtns :=
                 querySelectorAll (ByClass "modal-close-btn")
                   Samples.details_modal |} st)
    by (left; vm_compute; discriminate).
  assert (Hfree : ~ In 4%nat (engine_targets st')).
  { vm_compute. intros H.
    repeat (destruct H as [H | H]; [discriminate H | ]). exact H. }
  destruct (open_close_restores_modal st _
              [Render 5 (Some "opacity: 1")] [Render 6 (Some "opacity: 0")]
              [Render 5 None] eq_refl Hready eq_refl eq_refl eq_refl
              eq_refl eq_refl eq_refl Hfree)
    as (m & Hq & _ & He).
  exists m. split; [exact Hq | exact He].
Defined.

(** ** Opening twice *)

(** X11. With the modal in the document, a second [openModal] finds the
    modal element as the first one left it (the class list does not grow,
    [aria-hidden] stays ["false"]) and the cache as it was: nothing is
    built again.  When the modal has its backdrop, or the opening timeline
    was in the cache, neither call raises; on a modal without backdrop and
    an empty cache both do. *)
Theorem openModal_twice st els :
  getModalEls (doc st) = Some els ->
  let st1 := openModal st in
  let st2 := openModal st1 in
  option_map elt (doc_querySelector (ById "detailsModal") (doc st2))
  = option_map elt (doc_querySelector (ById "detailsModal") (doc st1)) /\
  openTL st2 = openTL st1 /\ closeTL st2 = closeTL st1 /\
  builds st2 = builds st1 /\
  (openTL st <> None \/ backdrop els <> None -> uncaught st2 = uncaught st) /\
  (openTL st = None -> backdrop els = None ->
     uncaught st2 = uncaught st ++ ["TypeError"; "TypeError"]).
Proof.
  intros Hels st1 st2.
  set (h := handle (modal els)).
  assert (Hm : modal_is h (doc st)) by (apply getModalEls_modal_is, Hels).
  assert (Hd1 : doc st1 = opened h (doc st))
    by (apply openModal_doc, Hels).
  assert (Hm1 : modal_is h (doc st1))
    by (rewrite Hd1; apply modal_is_opened, Hm).
  destruct (modal_is_getModalEls _ _ Hm1) as (els1 & Hels1 & Hh1).
  assert (Hbd : backdrop els1 = None <-> backdrop els = None).
  { apply (backdrop_of_handles (doc st) (doc st1)); try assumption.
    rewrite Hd1. apply modal_handles_opened. }
  assert (Hcache : openTL st2 = openTL st1 /\ closeTL st2 = closeTL st1 /\
                   builds st2 = builds st1).
  { destruct (openTL st1) as [o | ] eqn:Ho1.
    - destruct (openModal_when_cached st1 o Ho1) as (H1 & H2 & H3).
      fold st2 in H1, H2, H3. rewrite H1, Ho1. repeat split; assumption.
    - assert (Ho : openTL st = None).
      { destruct (openTL st) as [o | ] eqn:Ho; [ | reflexivity].
        unfold st1 in Ho1.
        rewrite (proj1 (openModal_when_cached st o Ho)) in Ho1.
        congruence. }
      assert (Hb : backdrop els = None).
      { destruct (backdrop els) eqn:Hb; [ | reflexivity].
        destruct (openModal_fills st els Hels) as (Hn & _);
          [rewrite Hb; discriminate | exact Ho | ].
        exfalso. apply Hn. exact Ho1. }
      unfold st2.
      rewrite (openModal_raises st1 els1 Hels1 Ho1 (proj2 Hbd Hb)).
      simpl. rewrite Ho1. repeat split. }
  split; [ | split; [apply Hcache | split; [apply Hcache | split;
                                            [apply Hcache | split]]]].
  - assert (Hd2 : doc st2 = doc st1).
    { unfold st2. rewrite (openModal_doc _ els1 Hels1), Hh1, Hd1.
      rewrite !opened_update.
      rewrite update_update by apply mark_open_identity.
      unfold update. apply tmap_ext_in. intros m _.
      destruct (Nat.eqb (nid (elt m)) h);
        [apply mark_open_twice | reflexivity]. }
    rewrite Hd2. reflexivity.
  - intros Hready.
    assert (Hu1 : uncaught st1 = uncaught st).
    { apply (proj2 (proj2 (openModal_rest st))). intros els' Hels'.
      rewrite Hels in Hels'. injection Hels' as <-. exact Hready. }
    unfold st2. rewrite (proj2 (proj2 (openModal_rest st1))); [exact Hu1 | ].
    intros els' Hels'. rewrite Hels1 in Hels'. injection Hels' as <-.
    destruct (backdrop els) eqn:Hb.
    + right. intros Hn. apply Hbd in Hn. discriminate Hn.
    + left. destruct Hready as [Ho | Hn]; [ | exfalso; apply Hn; reflexivity].
      destruct (openTL st) as [o | ] eqn:Hoe;
        [ | exfalso; apply Ho; reflexivity].
      unfold st1. rewrite (proj1 (openModal_when_cached st o Hoe)), Hoe.
      discriminate.
  - intros Ho Hb.
    assert (E1 : st1 = throw "TypeError" (set_doc (opened h (doc st)) st))
      by (apply openModal_raises; assumption).
    unfold st2.
    rewrite (openModal_raises st1 els1 Hels1);
      [ | rewrite E1; exact Ho | apply Hbd, Hb].
    rewrite E1. simpl. rewrite <- app_assoc. reflexivity.
Qed.

Lemma openModal_twice_witness :
  let st := initModal Samples.page in
  builds (openModal (openModal st)) = 1%nat /\
  uncaught (openModal (openModal st)) = [].
Proof.
  intros st.
  destruct (openModal_twice st _ eq_refl) as (_ & _ & _ & Hb & Hu & _).
  split; [rewrite Hb; reflexivity | ].
  apply Hu. right. vm_compute. discriminate.
Defined.

(** ** Only the modal changes *)

Lemma assoc_get_set_other k k' v l :
  k <> k' -> assoc_get k (assoc_set k' v l) = assoc_get k l.
Proof.
  intros Hk. apply String.eqb_neq in Hk.
  induction l as [ | [k0 v0] l IH]; simpl; [rewrite Hk; reflexivity | ].
  destruct (String.eqb k' k0) eqn:Hk0; simpl.
  - apply String.eqb_eq in Hk0. subst k0. rewrite Hk. reflexivity.
  - rewrite IH. reflexivity.
Qed.

Lemma assoc_get_remove_other k k' l :
  k <> k' -> assoc_get k (assoc_remove k' l) = assoc_get k l.
Proof.
  intros Hk. apply String.eqb_neq in Hk. unfold assoc_remove.
  induction l as [ | [k0 v0] l IH]; simpl; [reflexivity | ].
  destruct (String.eqb k' k0) eqn:Hk0; simpl.
  - apply String.eqb_eq in Hk0. subst k0. rewrite Hk. exact IH.
  - rewrite IH. reflexivity.
Qed.

Lemma restyled_refl e : restyled e e.
Proof. repeat split. Qed.

Lemma restyled_trans a b c : restyled a b -> restyled b c -> restyled a c.
Proof.
  intros (H1 & H2 & H3 & H4 & H5) (K1 & K2 & K3 & K4 & K5).
  repeat split; try congruence.
  intros k Hk. rewrite (K5 k Hk). apply H5, Hk.
Qed.

Lemma restyled_write_style css e : restyled e (write_style css e).
Proof.
  destruct css as [s | ]; repeat split; intros k Hk;
    unfold getAttribute; simpl;
    [apply assoc_get_set_other | apply assoc_get_remove_other]; exact Hk.
Qed.

Lemma in_place_refl ts d : in_place ts d d.
Proof.
  exists (fun e => e). split; [symmetry; apply tmap_id | ].
  split; [intros e; repeat split | ].
  intros e _. split; [apply restyled_refl | reflexivity].
Qed.

Lemma in_place_update ts d doc m f :
  same_identity f -> modal_of d m -> in_place ts d doc ->
  in_place ts d (update m f doc).
Proof.
  intros Hf (els & Hels & ->) (g & -> & Hg & Hframe).
  exists (fun e => if Nat.eqb (nid (g e)) (handle (modal els))
                   then f (g e) else g e).
  split; [unfold update; apply tmap_tmap | ]. split.
  - intros e. destruct (Nat.eqb (nid (g e)) (handle (modal els))).
    + destruct (Hf (g e)) as (-> & -> & ->). apply Hg.
    + apply Hg.
  - intros e He.
    assert (Hne : nid (g e) <> handle (modal els)).
    { destruct (Hg e) as (-> & _). apply He, Hels. }
    apply Nat.eqb_neq in Hne. rewrite Hne. apply Hframe, He.
Qed.

Lemma in_place_render ts d doc h css :
  In h ts -> in_place ts d doc ->
  in_place ts d (update h (write_style css) doc).
Proof.
  intros Hin (g & -> & Hg & Hframe).
  exists (fun e => if Nat.eqb (nid (g e)) h
                   then write_style css (g e) else g e).
  split; [unfold update; apply tmap_tmap | ]. split.
  - intros e. destruct (Nat.eqb (nid (g e)) h).
    + destruct (write_style_identity css (g e)) as (-> & -> & ->). apply Hg.
    + apply Hg.
  - intros e He. destruct (Hframe e He) as (Hr & Hsame).
    destruct (Nat.eqb (nid (g e)) h) eqn:Hn.
    + split.
      * apply (restyled_trans _ (g e)); [exact Hr | ].
        apply restyled_write_style.
      * intros Hout. exfalso. apply Hout.
        apply Nat.eqb_eq in Hn. destruct (Hg e) as (Hid & _).
        rewrite <- Hid, Hn. exact Hin.
    + split; assumption.
Qed.

Lemma in_place_opened ts d doc m :
  modal_of d m -> in_place ts d doc -> in_place ts d (opened m doc).
Proof.
  intros Hm H. rewrite opened_update.
  apply in_place_update; [apply mark_open_identity | exact Hm | exact H].
Qed.

Lemma in_place_closed ts d doc m :
  modal_of d m -> in_place ts d doc -> in_place ts d (closed m doc).
Proof.
  intros Hm H. rewrite closed_update.
  apply in_place_update; [apply mark_closed_identity | exact Hm | exact H].
Qed.

Lemma modal_of_current d doc els :
  modal_handles doc = modal_handles d -> getModalEls doc = Some els ->
  modal_of d (handle (modal els)).
Proof.
  unfold modal_handles, modal_of. intros H Hels. rewrite Hels in H.
  destruct (getModalEls d) as [els' | ]; [ | discriminate H].
  injection H as H _ _. exists els'. split; [reflexivity | exact H].
Qed.

Lemma animated_current d doc els :
  modal_handles doc = modal_handles d -> getModalEls doc = Some els ->
  animated d
  = present [option_map handle (backdrop els);
             option_map handle (content els)].
Proof.
  intros H Hels. unfold animated. rewrite <- H.
  unfold modal_handles. rewrite Hels. reflexivity.
Qed.

Lemma callbacks_in_place ts d l : forall st,
  (forall m, In m l -> modal_of d m) -> in_place ts d (doc st) ->
  in_place ts d (doc (fold_left close_callback l st)).
Proof.
  induction l as [ | m l IH]; intros st Hl H; simpl; [exact H | ].
  apply IH; [intros x Hx; apply Hl; right; exact Hx | ].
  rewrite close_callback_doc. apply in_place_closed; [ | exact H].
  apply Hl. left. reflexivity.
Qed.

Lemma present_first b c : incl (present [b]) (present [b; c]).
Proof.
  destruct b, c; simpl; intros x Hx; simpl in *; tauto.
Qed.

Lemma present_second b c : incl (present [c]) (present [b; c]).
Proof.
  destruct b, c; simpl; intros x Hx; simpl in *; tauto.
Qed.

Lemma targets_append st l ts :
  incl (engine_targets st) ts ->
  Forall (fun c => incl (targets_of c) ts) l ->
  incl (flat_map targets_of (gsap st ++ l)) ts.
Proof.
  intros H Hl. rewrite flat_map_app. apply incl_app; [exact H | ].
  induction Hl as [ | c l Hc _ IH]; simpl; [intros x [] | ].
  apply incl_app; assumption.
Qed.

(** The elements [openModal] and [closeModal] hand to the engine are the
    backdrop and the content of the page, and so are those of the timelines
    they build. *)
Lemma openModal_engine d st :
  modal_handles (doc st) = modal_handles d ->
  incl (engine_targets st) (animated d) ->
  cached_on (animated d) st ->
  incl (engine_targets (openModal st)) (animated d) /\
  cached_on (animated d) (openModal st).
Proof.
  intros Hh Hin Hc. unfold openModal.
  destruct (getModalEls (doc st)) as [els | ] eqn:Hels;
    [ | split; assumption].
  rewrite (animated_current d (doc st) els Hh Hels) in *.
  set (b := option_map handle (backdrop els)) in *.
  set (c := option_map handle (content els)) in *.
  assert (Hb1 : incl (present [b]) (present [b; c])) by apply present_first.
  assert (Hc1 : incl (present [c]) (present [b; c])) by apply present_second.
  set (A := present [b; c]) in *.
  simpl. destruct (openTL st) as [o | ] eqn:Ho; simpl; rewrite ?Ho.
  - match goal with |- context [focus_first ?m ?s] =>
      destruct (focus_first_fields m s) as (_ & H1 & H2 & _ & H4) end.
    split.
    + unfold engine_targets. rewrite H4. simpl. rewrite <- !app_assoc.
      apply targets_append; [exact Hin | ].
      apply Forall_cons; [exact Hb1 | ].
      apply Forall_cons; [exact Hc1 | ].
      apply Forall_cons; [ | apply Forall_nil].
      apply (Hc o). left. exact Ho.
    + intros tl Htl. rewrite H1, H2 in Htl. simpl in Htl.
      apply Hc. exact Htl.
  - destruct (backdrop els) as [bn | ] eqn:Hb; simpl.
    + match goal with |- context [focus_first ?m ?s] =>
        destruct (focus_first_fields m s) as (_ & H1 & H2 & _ & H4) end.
      split.
      * unfold engine_targets. rewrite H4. simpl. rewrite <- !app_assoc.
        apply targets_append; [exact Hin | ].
        apply Forall_cons; [apply incl_refl | ].
        apply Forall_cons; [exact Hb1 | ].
        apply Forall_cons; [exact Hc1 | ].
        apply Forall_cons; [apply incl_refl | apply Forall_nil].
      * intros tl Htl. rewrite H1, H2 in Htl. simpl in Htl.
        destruct Htl as [Htl | Htl]; injection Htl as <-; simpl;
          apply incl_refl.
    + split; [exact Hin | ]. intros tl Htl. simpl in Htl.
      apply Hc. exact Htl.
Qed.

Lemma closeModal_engine d st :
  modal_handles (doc st) = modal_handles d ->
  incl (engine_targets st) (animated d) ->
  cached_on (animated d) st ->
  incl (engine_targets (closeModal st)) (animated d) /\
  cached_on (animated d) (closeModal st).
Proof.
  intros Hh Hin Hc. unfold closeModal.
  destruct (getModalEls (doc st)) as [els | ] eqn:Hels;
    [ | split; assumption].
  rewrite (animated_current d (doc st) els Hh Hels) in *.
  set (b := option_map handle (backdrop els)) in *.
  set (c := option_map handle (content els)) in *.
  set (A := present [b; c]) in *.
  destruct (closeTL st) as [o | ] eqn:Ho; simpl; rewrite ?Ho.
  - split.
    + unfold engine_targets. simpl.
      apply targets_append; [exact Hin | ].
      apply Forall_cons; [ | apply Forall_nil].
      apply (Hc o). right. exact Ho.
    + intros tl Htl. simpl in Htl. apply Hc. exact Htl.
  - destruct (backdrop els) as [bn | ] eqn:Hb; simpl.
    + split.
      * unfold engine_targets. simpl. rewrite <- !app_assoc.
        apply targets_append; [exact Hin | ].
        apply Forall_cons; [apply incl_refl | ].
        apply Forall_cons; [apply incl_refl | apply Forall_nil].
      * intros tl Htl. simpl in Htl.
        destruct Htl as [Htl | Htl]; injection Htl as <-; simpl;
          apply incl_refl.
    + split; [exact Hin | ]. intros tl Htl. simpl in Htl.
      apply Hc. exact Htl.
Qed.

Lemma openModal_only d st :
  only_modal_changed d st -> only_modal_changed d (openModal st).
Proof.
  intros (Hh & Ht & He & Hc & Hp).
  destruct (openModal_engine d st Hh He Hc) as (He' & Hc').
  split; [ | split; [ | split; [exact He' | split; [exact Hc' | ]]]].
  - rewrite openModal_modal_handles. exact Hh.
  - rewrite (proj1 (proj2 (openModal_rest st))). exact Ht.
  - destruct (getModalEls (doc st)) as [els | ] eqn:Hels.
    + rewrite (openModal_doc st els Hels).
      apply in_place_opened; [ | exact Hp].
      apply (modal_of_current d (doc st)); assumption.
    + rewrite (openModal_absent st Hels). exact Hp.
Qed.

Lemma closeModal_then st :
  close_then (closeModal st) = close_then st \/
  exists els, getModalEls (doc st) = Some els /\
    close_then (closeModal st) = close_then st ++ [handle (modal els)].
Proof.
  unfold closeModal. destruct (getModalEls (doc st)) as [els | ];
    [ | left; reflexivity].
  destruct (closeTL st) eqn:Hc; simpl; rewrite ?Hc.
  - right. exists els. split; reflexivity.
  - destruct (backdrop els); simpl.
    + right. exists els. split; reflexivity.
    + left. reflexivity.
Qed.

Lemma closeModal_only d st :
  only_modal_changed d st -> only_modal_changed d (closeModal st).
Proof.
  intros (Hh & Ht & He & Hc & Hp).
  destruct (closeModal_engine d st Hh He Hc) as (He' & Hc').
  split; [ | split; [ | split; [exact He' | split; [exact Hc' | ]]]].
  - rewrite closeModal_doc. exact Hh.
  - destruct (closeModal_then st) as [-> | (els & Hels & ->)]; [exact Ht | ].
    intros m Hm. apply in_app_or in Hm. destruct Hm as [Hm | [<- | []]].
    + apply Ht, Hm.
    + apply (modal_of_current d (doc st)); assumption.
  - rewrite closeModal_doc. exact Hp.
Qed.

Lemma step_only d st e :
  is_interaction e = true ->
  only_modal_changed d st -> only_modal_changed d (step st e).
Proof.
  intros He H.
  destruct e as [t | k | t | | h css | d']; simpl;
    [ | | | | | discriminate He].
  - unfold onDocumentClick. destruct (click_action (doc st) t).
    + apply (openModal_only d (preventDefault st)). exact H.
    + apply (closeModal_only d (preventDefault st)). exact H.
    + exact H.
  - unfold onKeyDown. destruct (String.eqb k "Escape"); [ | exact H].
    destruct (getModalEls (doc st)) as [els | ]; [ | exact H].
    destruct (is_open (modal els)); [apply closeModal_only, H | exact H].
  - unfold onFocusIn. destruct (getModalEls (doc st)) as [els | ]; [ | exact H].
    destruct (negb (is_open (modal els))); [exact H | ].
    destruct (negb (contains (modal els) t)); [ | exact H].
    destruct H as (Hh & Ht & Hg & Hc & Hp).
    destruct (focus_first_fields (modal els) st) as (Hd & H1 & H2 & _ & H4).
    destruct (focus_first_rest (modal els) st) as (_ & _ & H3 & _).
    split; [rewrite Hd; exact Hh | ].
    split; [rewrite H3; exact Ht | ].
    split; [unfold engine_targets; rewrite H4; exact Hg | ].
    split; [intros tl Htl; rewrite H1, H2 in Htl; apply Hc, Htl | ].
    rewrite Hd. exact Hp.
  - unfold onCloseComplete. destruct (close_running st); [ | exact H].
    destruct H as (Hh & Ht & Hg & Hc & Hp).
    split; [rewrite modal_handles_callbacks; exact Hh | ].
    split; [rewrite callbacks_close_then; intros m [] | ].
    split; [unfold engine_targets; rewrite callbacks_gsap; exact Hg | ].
    split.
    + intros tl Htl.
      match type of Htl with context [fold_left close_callback ?l ?s] =>
        destruct (callbacks_cache l s) as (H1 & H2 & _) end.
      rewrite H1, H2 in Htl. apply Hc, Htl.
    + apply callbacks_in_place; [exact Ht | exact Hp].
  - destruct H as (Hh & Ht & Hg & Hc & Hp).
    destruct (onRender_rest st h css) as (_ & _ & H3 & H4).
    destruct (onRender_cache st h css) as (H1 & H2 & _).
    split; [rewrite onRender_modal_handles; exact Hh | ].
    split; [rewrite H3; exact Ht | ].
    split; [unfold engine_targets; rewrite H4; exact Hg | ].
    split; [intros tl Htl; rewrite H1, H2 in Htl; apply Hc, Htl | ].
    unfold onRender.
    destruct (existsb (Nat.eqb h) (engine_targets st)) eqn:Hin;
      [ | exact Hp].
    simpl. apply in_place_render; [ | exact Hp].
    apply Hg. apply existsb_exists in Hin. destruct Hin as (x & Hx & Hxe).
    apply Nat.eqb_eq in Hxe. subst x. exact Hx.
Qed.

Lemma run_only d es : forall st,
  forallb is_interaction es = true ->
  only_modal_changed d st -> only_modal_changed d (run st es).
Proof.
  induction es as [ | e es IH]; intros st He H; simpl; [exact H | ].
  simpl in He. apply andb_true_iff in He. destruct He as [He Hes].
  apply IH; [exact Hes | apply step_only; assumption].
Qed.

(** X12. As long as the page itself does not replace the document, the
    modal controller and the engine it drives change elements in place
    only: after every sequence of clicks, key presses, focus events,
    completions and frames the document has the tree, the handles, the ids
    and the tags of the page it started with; the engine has been handed
    no element but the backdrop and the content area of the modal; and
    every element other than the modal is as it was but for its inline
    style, and exactly as it was unless it is that backdrop or content. *)
Theorem modal_changes_only_the_modal d es :
  forallb is_interaction es = true ->
  in_place (animated d) d (doc (run (initModal d) es)) /\
  incl (engine_targets (run (initModal d) es)) (animated d).
Proof.
  intros He.
  destruct (run_only d es (initModal d) He) as (_ & _ & Hg & _ & Hp).
  - split; [reflexivity | ]. split; [intros m [] | ].
    split; [intros x [] | ].
    split; [intros tl [Htl | Htl]; discriminate Htl | apply in_place_refl].
  - split; assumption.
Qed.

Lemma modal_changes_only_the_modal_witness :
  in_place [5%nat; 6%nat] Samples.page
    (doc (run (initModal Samples.page)
            [Click 3; Render 5 (Some "opacity: 1"); FocusIn 3;
             KeyDown "Escape"; Render 6 (Some "opacity: 0");
             CloseComplete])).
Proof.
  apply (modal_changes_only_the_modal Samples.page
           [Click 3; Render 5 (Some "opacity: 1"); FocusIn 3;
            KeyDown "Escape"; Render 6 (Some "opacity: 0"); CloseComplete]).
  reflexivity.
Defined.

(** The inline styles the engine writes stay in the document: after an
    open and a completed close the backdrop (5) of the landing page carries
    the style of the last frame, so the document is not the page it was. *)
Example styles_stay_after_close :
  let st :=
    run (initModal Samples.page)
      [Click 3; Render 5 (Some "opacity: 1; visibility: inherit");
       KeyDown "Escape"; Render 5 (Some "opacity: 0; visibility: hidden");
       CloseComplete] in
  option_map (fun n => getAttribute "style" (elt n)) (lookup 5 (doc st))
  = Some (Some "opacity: 0; visibility: hidden") /\
  doc st <> Samples.page.
Proof.
  intros st. split; [reflexivity | ].
  intros H. apply (f_equal (lookup 5)) in H. vm_compute in H.
  discriminate H.
Qed.

End ModalCoverage.

Module ButtonsCoverage.
Import Dom Buttons ButtonsFacts Notions.

(** X14. The look of an element changes only through events aimed at that
    element, and only if it carried the class [btn] when the listeners were
    attached: after any sequence of events of which none is aimed at [h],
    and after any sequence at all when [h] has no listeners, the element
    looks as the page styled it.  No button shares state with another. *)
Theorem buttons_are_independent d css es h :
  (forallb (fun e => negb (aimed_at h e)) es = true ->
     look (run (initButtonInteractions d css) es) h = css h) /\
  (listening h (initButtonInteractions d css) = false ->
     look (run (initButtonInteractions d css) es) h = css h).
Proof.
  split.
  - intros Hes.
    apply (run_quiet (fun s => s) h es (initButtonInteractions d css));
      [ | constructor].
    apply calm_not_aimed, Hes.
  - intros Hl.
    apply (run_quiet (fun s => s) h es (initButtonInteractions d css));
      [ | constructor].
    apply Forall_forall. intros e _. unfold listening in Hl.
    destruct e as [h' | h' | h' | h' | dt mid]; simpl; try exact I;
      intros Hb Heq; subst h'; simpl in Hl; congruence.
Qed.

(** On the landing page the link (9) is no button, and events aimed at the
    details button (3) leave the close button (7) alone. *)
Lemma buttons_are_independent_witness :
  look (run (initButtonInteractions Samples.page Samples.plain_css)
          [MouseEnter 9; Frame 500 Samples.halfway]) 9 = Samples.plain_css 9 /\
  look (run (initButtonInteractions Samples.page Samples.plain_css)
          [MouseEnter 3; Focus 3; Frame 500 Samples.halfway]) 7
  = Samples.plain_css 7.
Proof.
  split.
  - apply (proj2 (buttons_are_independent Samples.page Samples.plain_css
                    [MouseEnter 9; Frame 500 Samples.halfway] 9%nat)).
    reflexivity.
  - apply (proj1 (buttons_are_independent Samples.page Samples.plain_css
                    [MouseEnter 3; Focus 3; Frame 500 Samples.halfway] 7%nat)).
    reflexivity.
Defined.

(** X15. Pointer events never touch the shadow and focus events never touch
    the transform: after any sequence of events without a focus or blur
    aimed at [h], the [boxShadow] of [h] is the one of the page; after any
    sequence without a pointer-enter or pointer-leave aimed at [h], its
    translate-y and scale are those of the page. *)
Theorem hover_and_focus_are_orthogonal d css es h :
  (forallb (fun e => negb (is_focus e && aimed_at h e)) es = true ->
     boxShadow (look (run (initButtonInteractions d css) es) h)
     = boxShadow (css h)) /\
  (forallb (fun e => negb (is_pointer e && aimed_at h e)) es = true ->
     transform (look (run (initButtonInteractions d css) es) h)
     = transform (css h)).
Proof.
  split; intros Hes.
  - apply (run_quiet boxShadow h es (initButtonInteractions d css));
      [ | constructor].
    apply calm_without_focus, Hes.
  - apply (run_quiet transform h es (initButtonInteractions d css));
      [ | constructor].
    apply calm_without_pointer, Hes.
Qed.

Lemma hover_and_focus_are_orthogonal_witness :
  boxShadow
    (look (run (initButtonInteractions Samples.page Samples.plain_css)
             [MouseEnter 3; Frame 90 Samples.halfway; MouseLeave 3;
              Frame 400 Samples.halfway]) 3)
  = "none".
Proof.
  apply (proj1 (hover_and_focus_are_orthogonal Samples.page Samples.plain_css
                  [MouseEnter 3; Frame 90 Samples.halfway; MouseLeave 3;
                   Frame 400 Samples.halfway] 3%nat)).
  reflexivity.
Defined.

(** ** A pointer that comes back at once *)

Lemma filter_filter_weaker {T} (p q : T -> bool) l :
  (forall a, p a = true -> q a = true) ->
  filter p (filter q l) = filter p l.
Proof.
  intros H. induction l as [ | a l IH]; simpl; [reflexivity | ].
  destruct (q a) eqn:Hq; simpl.
  - rewrite IH. reflexivity.
  - destruct (p a) eqn:Hp; [ | exact IH].
    rewrite (H a Hp) in Hq. discriminate Hq.
Qed.

Lemma filter_none {T} (p : T -> bool) l :
  Forall (fun a => p a = false) l -> filter p l = [].
Proof.
  intros H. induction H as [ | a l Ha _ IH]; simpl; [reflexivity | ].
  rewrite Ha. exact IH.
Qed.

Lemma filter_all {T} (p : T -> bool) l :
  Forall (fun a => p a = true) l -> filter p l = l.
Proof.
  intros H. induction H as [ | a l Ha _ IH]; simpl; [reflexivity | ].
  rewrite Ha, IH. reflexivity.
Qed.

(** Over frames alone the clock only moves on, and the tweens under way
    are those of the start that have not ended. *)
Lemma run_frames fs : forall st,
  forallb is_frame fs = true -> alive st ->
  clock st <= clock (run st fs) /\
  tweens (run st fs)
  = filter (fun tw => negb (ends tw <=? clock (run st fs))) (tweens st).
Proof.
  induction fs as [ | e fs IH]; intros st Hfs Hal.
  - change (run st []) with st. split; [lia | ]. symmetry. apply filter_all.
    revert Hal. unfold alive. apply Forall_impl. intros tw Htw.
    apply negb_true_iff, Z.leb_gt. exact Htw.
  - simpl in Hfs. apply andb_true_iff in Hfs. destruct Hfs as [He Hfs].
    destruct e as [h | h | h | h | dt mid]; try discriminate He.
    change (run st (Frame dt mid :: fs)) with (run (tick dt mid st) fs).
    assert (Hal' : alive (tick dt mid st)).
    { unfold alive, tick; simpl. apply Forall_forall. intros tw Htw.
      apply filter_In in Htw. destruct Htw as [_ Htw].
      apply negb_true_iff, Z.leb_gt in Htw. exact Htw. }
    destruct (IH (tick dt mid st) Hfs Hal') as (Hck & Htw).
    assert (Hck0 : clock (tick dt mid st) = clock st + Z.max 0 dt)
      by reflexivity.
    split; [lia | ].
    rewrite Htw.
    change (tweens (tick dt mid st))
      with (filter (fun tw => negb (ends tw <=? clock st + Z.max 0 dt))
              (tweens st)).
    apply filter_filter_weaker. intros tw Hp.
    apply negb_true_iff, Z.leb_gt in Hp.
    apply negb_true_iff, Z.leb_gt. lia.
Qed.

Lemma gsap_to_alive h v dur st :
  0 < dur -> alive st -> alive (gsap_to h v dur st).
Proof.
  intros Hd H. unfold alive, gsap_to; simpl.
  apply Forall_app. split; [exact H | ].
  constructor; [simpl; lia | constructor].
Qed.

Lemma step_alive st e : alive st -> alive (step st e).
Proof.
  intros H. destruct e as [h | h | h | h | dt mid]; simpl;
    try (destruct (listening h st); [ | exact H];
         apply gsap_to_alive; [lia | exact H]).
  unfold alive, tick; simpl. apply Forall_forall. intros tw Htw.
  apply filter_In in Htw. destruct Htw as [_ Htw].
  apply negb_true_iff, Z.leb_gt in Htw. exact Htw.
Qed.

Lemma run_alive es : forall st, alive st -> alive (run st es).
Proof.
  induction es as [ | e es IH]; intros st H; simpl; [exact H | ].
  apply IH, step_alive, H.
Qed.

(** X16. A pointer-leave followed within 100 ms by a pointer-enter on the
    same button: the tween of the leave (280 ms) ends after the tween of
    the enter (180 ms), and where the button ends depends on the frames.
    If no frame falls between the two ends, both tweens end on one frame,
    on which they are rendered in the order of their creation, the enter
    last, and the button stays lifted.  If a frame falls between the two
    ends, the enter tween ends first and the leave tween goes on, so the
    button ends at rest although the pointer is on it.  Both hold for every
    element that carried [btn] when the listeners were attached, after any
    history, as long as no further pointer event reaches the button. *)
Theorem quick_reenter_depends_on_frames d css n es fs1 :
  In n (doc_querySelectorAll (ByClass "btn") d) ->
  forallb is_frame fs1 = true ->
  let s0 := run (initButtonInteractions d css) es in
  let s1 := run s0 (MouseLeave (handle n) :: fs1 ++ [MouseEnter (handle n)]) in
  clock s1 < clock s0 + 100 ->
  (forall fs2 dt mid es',
     forallb is_frame fs2 = true ->
     clock (run s1 fs2) < clock s1 + 180 ->
     clock s0 + 280 <= clock (run s1 fs2) + dt ->
     forallb (fun e => negb (is_pointer e && aimed_at (handle n) e)) es'
     = true ->
     transform (look (run (run s1 fs2) (Frame dt mid :: es')) (handle n))
     = ((-4 # 1)%Q, (101 # 100)%Q)) /\
  (forall fs2 es',
     forallb is_frame fs2 = true ->
     clock s1 + 180 <= clock (run s1 fs2) < clock s0 + 280 ->
     forallb (fun e => negb (is_pointer e && aimed_at (handle n) e)) es'
     = true ->
     clock s0 + 280 <= clock (run (run s1 fs2) es') ->
     transform (look (run (run s1 fs2) es') (handle n)) = (0%Q, 1%Q)).
Proof.
  intros Hn Hfs1 s0 s1 Hback. set (h := handle n) in *.
  assert (Hb0 : bounded s0) by (apply run_bounded; constructor).
  assert (Ha0 : alive s0) by (apply run_alive; constructor).
  assert (Hl : forall es0, listening h (run s0 es0) = true).
  { intros es0. unfold s0. rewrite <- buttons_run_app.
    apply listening_run, Hn. }
  set (L := {| target := h; goal := rest; ends := clock s0 + 280 |}).
  set (sL := onMouseLeave h s0).
  set (sF := run sL fs1).
  assert (Hl0 : listening h s0 = true) by apply (Hl []).
  assert (HsL : run s0 [MouseLeave h] = sL).
  { unfold run. cbn [fold_left step]. rewrite Hl0. reflexivity. }
  assert (HsF : run s0 (MouseLeave h :: fs1) = sF).
  { change (MouseLeave h :: fs1) with ([MouseLeave h] ++ fs1).
    rewrite buttons_run_app, HsL. reflexivity. }
  assert (HlF : listening h sF = true).
  { rewrite <- HsF. apply Hl. }
  assert (Hs1 : s1 = onMouseEnter h sF).
  { unfold s1. rewrite app_comm_cons, buttons_run_app, HsF.
    unfold run. cbn [fold_left step]. rewrite HlF. reflexivity. }
  assert (HaL : alive sL) by (apply gsap_to_alive; [lia | exact Ha0]).
  destruct (run_frames fs1 sL Hfs1 HaL) as (HckF & HtwF). fold sF in HckF, HtwF.
  assert (Hck1 : clock s1 = clock sF) by (rewrite Hs1; reflexivity).
  assert (HckL : clock sL = clock s0) by reflexivity.
  set (P := filter (fun tw => negb (ends tw <=? clock sF)) (tweens s0)).
  assert (HP : Forall (fun tw => ends tw <= clock s0 + 280) P).
  { apply (incl_Forall (incl_filter _ _)). exact Hb0. }
  assert (HtF : tweens sF = P ++ [L]).
  { rewrite HtwF. change (tweens sL) with (tweens s0 ++ [L]).
    rewrite filter_app. fold P. f_equal. simpl.
    destruct (clock s0 + 280 <=? clock sF) eqn:Hd;
      [apply Z.leb_le in Hd; lia | reflexivity]. }
  set (E := {| target := h; goal := lift; ends := clock sF + 180 |}).
  assert (Ht1 : tweens s1 = P ++ [L; E]).
  { rewrite Hs1. unfold onMouseEnter, gsap_to; simpl. rewrite HtF.
    rewrite <- app_assoc. reflexivity. }
  assert (Ha1 : alive s1).
  { rewrite Hs1. apply gsap_to_alive; [lia | ]. apply run_alive, HaL. }
  split.
  - intros fs2 dt mid es' Hfs2 Hearly Hdt Hes.
    destruct (run_frames fs2 s1 Hfs2 Ha1) as (Hck2 & Htw2).
    set (s2 := run s1 fs2) in *.
    change (run s2 (Frame dt mid :: es')) with (run (tick dt mid s2) es').
    set (now := clock s2 + Z.max 0 dt).
    assert (Hnow : clock s0 + 280 <= now) by (unfold now; lia).
    set (P2 := filter (fun tw => negb (ends tw <=? clock s2)) P).
    assert (HP2 : Forall (fun tw => ends tw <= clock s0 + 280) P2).
    { apply (incl_Forall (incl_filter _ _)). exact HP. }
    assert (Ht2 : tweens s2 = P2 ++ [L; E]).
    { rewrite Htw2, Ht1, filter_app. fold P2. f_equal. simpl.
      destruct (clock s0 + 280 <=? clock s2) eqn:Hd1;
        [apply Z.leb_le in Hd1; lia | ].
      destruct (clock sF + 180 <=? clock s2) eqn:Hd2;
        [apply Z.leb_le in Hd2; lia | reflexivity]. }
    assert (Hdone : tweens (tick dt mid s2) = []).
    { unfold tick; simpl. fold now. rewrite Ht2. apply filter_none.
      apply Forall_app. split.
      - revert HP2. apply Forall_impl. intros tw Htw.
        apply negb_false_iff, Z.leb_le. lia.
      - constructor; [ | constructor; [ | constructor]];
          apply negb_false_iff, Z.leb_le; simpl; lia. }
    rewrite (run_quiet transform h es' (tick dt mid s2)).
    + unfold tick; simpl. fold now. rewrite Ht2, fold_left_app. simpl.
      unfold render at 1.
      assert (HE : (ends E <=? now) = true)
        by (apply Z.leb_le; simpl; lia).
      rewrite HE. unfold finish. simpl. rewrite Nat.eqb_refl. reflexivity.
    + apply calm_without_pointer, Hes.
    + rewrite Hdone. constructor.
  - intros fs2 es' Hfs2 Hwin Hes Hend.
    destruct (run_frames fs2 s1 Hfs2 Ha1) as (_ & Htw2).
    set (s2 := run s1 fs2) in *.
    apply (driver_settles transform h L (0%Q, 1%Q) eq_refl
             (fun s => eq_refl) s2 es').
    + split; [simpl; lia | ].
      exists (filter (fun tw => negb (ends tw <=? clock s2)) P), [].
      split; [ | split; [ | constructor]].
      * rewrite Htw2, Ht1, filter_app. f_equal. simpl.
        destruct (clock s0 + 280 <=? clock s2) eqn:Hd1;
          [apply Z.leb_le in Hd1; lia | ].
        destruct (clock sF + 180 <=? clock s2) eqn:Hd2;
          [reflexivity | apply Z.leb_gt in Hd2; lia].
      * apply (incl_Forall (incl_filter _ _)).
        revert HP. apply Forall_impl. intros tw Htw. right. exact Htw.
    + apply calm_without_pointer, Hes.
    + exact Hend.
Qed.

(** The details button (3) of the landing page, left and entered again
    95 ms later, with frames 95 ms and 90 ms apart: the enter tween is due
    at 275 ms and the leave tween at 280 ms.  With the next frame at
    285 ms both tweens end on it and the button stays lifted; with a frame
    at 277 ms and another at 285 ms, the button ends at rest. *)
Lemma quick_reenter_depends_on_frames_witness :
  let s1 :=
    run (initButtonInteractions Samples.page Samples.plain_css)
      [MouseLeave 3; Frame 95 Samples.halfway; MouseEnter 3] in
  transform (look (run (run s1 [Frame 90 Samples.halfway])
                     [Frame 100 Samples.halfway]) 3)
  = ((-4 # 1)%Q, (101 # 100)%Q) /\
  transform (look (run (run s1 [Frame 90 Samples.halfway;
                                Frame 92 Samples.halfway])
                     [Frame 8 Samples.halfway]) 3)
  = (0%Q, 1%Q).
Proof.
  intros s1.
  assert (Hin : In Samples.details_button
                  (doc_querySelectorAll (ByClass "btn") Samples.page))
    by (left; reflexivity).
  destruct (quick_reenter_depends_on_frames Samples.page Samples.plain_css
              Samples.details_button [] [Frame 95 Samples.halfway]
              Hin eq_refl ltac:(simpl; lia))
    as (Hsame & Hbetween).
  split.
  - apply (Hsame [Frame 90 Samples.halfway] 100 Samples.halfway []);
      [reflexivity | simpl; lia | simpl; lia | reflexivity].
  - apply (Hbetween [Frame 90 Samples.halfway; Frame 92 Samples.halfway]
             [Frame 8 Samples.halfway]);
      [reflexivity | simpl; lia | reflexivity | simpl; lia].
Defined.

(** ** Focus and blur *)

Lemma gsap_to_shadows_short h v dur st :
  (to_boxShadow v <> None -> dur <= 180) ->
  shadows_short st -> shadows_short (gsap_to h v dur st).
Proof.
  intros Hv H. unfold shadows_short, gsap_to; simpl.
  apply Forall_app. split; [exact H | ].
  constructor; [ | constructor].
  unfold on_shadow; simpl. intros Hs.
  destruct (to_boxShadow v); [ | discriminate Hs].
  assert (dur <= 180) by (apply Hv; discriminate). lia.
Qed.

Lemma step_shadows_short st e : shadows_short st -> shadows_short (step st e).
Proof.
  intros Hs.
  destruct e as [h | h | h | h | dt mid]; simpl;
    try (destruct (listening h st); [ | exact Hs];
         apply gsap_to_shadows_short; [simpl | exact Hs];
         first [intros _; lia | intros Hn; exfalso; apply Hn; reflexivity]).
  unfold shadows_short, tick; simpl.
  apply (incl_Forall (incl_filter _ _)).
  revert Hs. apply Forall_impl. intros tw Htw Hon. specialize (Htw Hon). lia.
Qed.

Lemma run_shadows_short es : forall st,
  shadows_short st -> shadows_short (run st es).
Proof.
  induction es as [ | e es IH]; intros st H; simpl; [exact H | ].
  apply IH, step_shadows_short, H.
Qed.

Lemma off_shadow_quiet h tw : on_shadow tw = false -> quiet boxShadow h tw.
Proof.
  unfold on_shadow. intros H _ s.
  unfold reach, between. simpl.
  destruct (to_boxShadow (goal tw)); [discriminate H | ].
  split; [reflexivity | intros m; reflexivity].
Qed.

(** A focus or blur tween is the one that decides the shadow: by the first
    frame 180 ms or more after it was made, its end value is the shadow. *)
Lemma shadow_settles h v b st es :
  to_boxShadow v = Some b ->
  listening h st = true -> shadows_short st ->
  forallb (fun e => negb (is_focus e && aimed_at h e)) es = true ->
  clock st + 180 <= clock (run (gsap_to h v 180 st) es) ->
  boxShadow (look (run (gsap_to h v 180 st) es) h) = b.
Proof.
  intros Hv Hl Hs Hes Hck.
  apply (driver_settles boxShadow h
           {| target := h; goal := v; ends := clock st + 180 |} b eq_refl).
  - intros s. unfold reach; simpl. rewrite Hv. reflexivity.
  - split; [simpl; lia | ].
    exists (tweens st), []. split; [reflexivity | ].
    split; [ | constructor].
    revert Hs. unfold shadows_short. apply Forall_impl. intros tw Htw.
    destruct (on_shadow tw) eqn:Hon.
    + right. simpl. apply Htw. reflexivity.
    + left. apply off_shadow_quiet, Hon.
  - apply calm_without_focus, Hes.
  - exact Hck.
Qed.

(** X17. For every element that carried [btn] when the listeners were
    attached, and after any history of events: by the first frame that the
    engine renders 180 ms or more (on its clock) after a focus, the shadow
    is the glow, and by the first such frame after a blur it is ['none'],
    whatever tweens were under way, provided no further focus or blur
    reaches the button in the meantime; so a focus followed, after
    anything, by a blur ends without the glow. *)
Theorem focus_and_blur_settle d css n es es' :
  In n (doc_querySelectorAll (ByClass "btn") d) ->
  forallb (fun e => negb (is_focus e && aimed_at (handle n) e)) es' = true ->
  let st := run (initButtonInteractions d css) es in
  (clock st + 180 <= clock (run st (Focus (handle n) :: es')) ->
     boxShadow (look (run st (Focus (handle n) :: es')) (handle n))
     = "0 10px 30px rgba(99,58,234,0.18)") /\
  (clock st + 180 <= clock (run st (Blur (handle n) :: es')) ->
     boxShadow (look (run st (Blur (handle n) :: es')) (handle n)) = "none") /\
  (forall gap,
     let focused := run st (Focus (handle n) :: gap) in
     clock focused + 180 <= clock (run focused (Blur (handle n) :: es')) ->
     boxShadow (look (run focused (Blur (handle n) :: es')) (handle n))
     = "none").
Proof.
  intros Hn Hes st.
  assert (Hl : forall es0, listening (handle n)
                 (run (initButtonInteractions d css) es0) = true)
    by (intros es0; apply listening_run, Hn).
  assert (Hs : forall es0, shadows_short
                 (run (initButtonInteractions d css) es0))
    by (intros es0; apply run_shadows_short; constructor).
  split; [ | split].
  - intros Hck. simpl in *. unfold st in *. rewrite Hl in *.
    apply (shadow_settles _ glow); try assumption; [reflexivity | apply Hl | apply Hs].
  - intros Hck. simpl in *. unfold st in *. rewrite Hl in *.
    apply (shadow_settles _ no_glow); try assumption; [reflexivity | apply Hl | apply Hs].
  - intros gap focused Hck.
    assert (E : focused = run (initButtonInteractions d css)
                            (es ++ Focus (handle n) :: gap)).
    { unfold focused, st. rewrite buttons_run_app. reflexivity. }
    pose proof (Hl (es ++ Focus (handle n) :: gap)) as Hl'.
    pose proof (Hs (es ++ Focus (handle n) :: gap)) as Hs'.
    rewrite <- E in Hl', Hs'. clearbody focused.
    simpl in *. rewrite Hl' in *.
    apply (shadow_settles _ no_glow); try assumption. reflexivity.
Qed.

(** The details button (3) of the landing page: hovered, focused, blurred
    50 ms later; 200 ms after the blur the glow is gone. *)
Lemma focus_and_blur_settle_witness :
  boxShadow
    (look (run (run (initButtonInteractions Samples.page Samples.plain_css)
                  [MouseEnter 3; Frame 20 Samples.halfway])
             [Focus 3; Frame 50 Samples.halfway; Blur 3;
              Frame 200 Samples.halfway]) 3)
  = "none".
Proof.
  assert (Hin : In Samples.details_button
                  (doc_querySelectorAll (ByClass "btn") Samples.page))
    by (left; reflexivity).
  destruct (focus_and_blur_settle Samples.page Samples.plain_css
              Samples.details_button [MouseEnter 3; Frame 20 Samples.halfway]
              [Frame 200 Samples.halfway] Hin eq_refl)
    as (_ & _ & H).
  apply (H [Frame 50 Samples.halfway]). simpl. lia.
Defined.

(** A frame that comes before the end of the focus tween leaves the shadow
    at the value the engine has interpolated for it, not yet at the glow. *)
Example focus_not_settled_before_its_end :
  boxShadow
    (look (run (initButtonInteractions Samples.page Samples.plain_css)
             [Focus 3; Frame 176 Samples.halfway]) 3)
  = "0 5px 15px rgba(99,58,234,0.09)".
Proof. reflexivity. Qed.

End ButtonsCoverage.
